(** * A shallow embedding of the query planner of where.c (sqlite4)

    Costs ([WhereCost]) are 16-bit unsigned integers, modelled as [Z] with
    the wrap-around of the C conversions written out.  Bitmasks are 64-bit
    words ([Bitmask] = u64), modelled as [Z]. *)

From Stdlib Require Import ZArith List Bool Lia String Ascii.
Import ListNotations.
Open Scope Z_scope.
Set Warnings "-register-all".

(* ------------------------------------------------------------------ *)
(** ** Machine integers *)

Definition u16 (x : Z) : Z := x mod 65536.
Definition u64 (x : Z) : Z := x mod 18446744073709551616.

(** [BMS] = number of bits in a [Bitmask]. *)
Definition BMS : Z := 64.

(** [MASKBIT(n)] = [((Bitmask)1)<<(n)]. *)
Definition MASKBIT (n : Z) : Z := u64 (Z.shiftl 1 n).

(* ------------------------------------------------------------------ *)
(** ** CostArithmetic *)

Module Cost.

(** The table [x[]] of [whereCostAdd]. *)
Definition costAddTable : list Z :=
  [10; 10; 9; 9; 8; 8; 7; 7; 7; 6; 6; 6; 5; 5; 5; 4; 4; 4; 4;
   3; 3; 3; 3; 3; 3; 2; 2; 2; 2; 2; 2; 2].

Definition tab (i : Z) : Z := nth (Z.to_nat i) costAddTable 0.

(** [whereCostAdd]: the arguments are promoted to [int]; the result is
    converted back to the 16-bit [WhereCost]. *)
Definition whereCostAdd (a b : Z) : Z :=
  if b <=? a then
    if b + 49 <? a then a
    else if b + 31 <? a then u16 (a + 1)
    else u16 (a + tab (a - b))
  else
    if a + 49 <? b then b
    else if a + 31 <? b then u16 (b + 1)
    else u16 (b + tab (b - a)).

(** [whereCostToInt]: [x] is a [WhereCost]; [n] is a [u64], so the
    left shift wraps modulo 2^64. *)
Definition whereCostToInt (x0 : Z) : Z :=
  if x0 <? 10 then 1
  else
    let n0 := x0 mod 10 in
    let x := x0 / 10 in
    let n := if 5 <=? n0 then n0 - 2 else if 1 <=? n0 then n0 - 1 else n0 in
    if 3 <=? x then u64 (Z.shiftl (n + 8) (x - 3))
    else Z.shiftr (n + 8) (3 - x).

(** [sqlite4WhereOutputRowCount] *)
Definition sqlite4WhereOutputRowCount (nRowOut : Z) : Z :=
  whereCostToInt nRowOut.

End Cost.

(* ------------------------------------------------------------------ *)
(** ** CursorBitmap: [WhereMaskSet], [getMask], [createMask] *)

Module MaskSet.

(** [struct WhereMaskSet { int n; int ix[BMS]; }]: only the [n] entries
    in use are kept, so [n] is [length ix]. *)
Record WhereMaskSet := mkMaskSet { ix : list Z }.

Definition n (ms : WhereMaskSet) : Z := Z.of_nat (List.length (ix ms)).

(** [initMaskSet(P)]: [(P)->n=0]. *)
Definition initMaskSet : WhereMaskSet := mkMaskSet [].

(** The loop of [getMask]: index of the first [ix[i]==iCursor], starting
    the count at [i]. *)
Fixpoint findIx (l : list Z) (iCursor i : Z) : option Z :=
  match l with
  | [] => None
  | c :: l' => if c =? iCursor then Some i else findIx l' iCursor (i + 1)
  end.

(** [getMask]: the bitmask of a cursor, or 0 when it is not in the set. *)
Definition getMask (ms : WhereMaskSet) (iCursor : Z) : Z :=
  match findIx (ix ms) iCursor 0 with
  | Some i => MASKBIT i
  | None => 0
  end.

(** [createMask]: [pMaskSet->ix[pMaskSet->n++] = iCursor].  The only
    guard is [assert( pMaskSet->n < ArraySize(pMaskSet->ix) )]; the bound
    is enforced by the caller [sqlite4WhereBegin]. *)
Definition createMask (ms : WhereMaskSet) (iCursor : Z) : WhereMaskSet :=
  mkMaskSet (ix ms ++ [iCursor]).

(** The message of [sqlite4ErrorMsg(pParse, "at most %d tables in a join", BMS)]. *)
Definition errTooWide : string := "at most 64 tables in a join"%string.

(** The part of [sqlite4WhereBegin] that checks the width of the join and
    assigns a bit to every FROM entry, in FROM order
    ([for(ii=0; ii<pTabList->nSrc; ii++) createMask(pMaskSet, pTabList->a[ii].iCursor)]).
    The FROM clause is given by the list of its cursors. *)
Definition whereBeginMasks (fromCursors : list Z) : string + WhereMaskSet :=
  if BMS <? Z.of_nat (List.length fromCursors) then inl errTooWide
  else inr (fold_left createMask fromCursors initMaskSet).

(** [toTheLeft] of the debugging block of [sqlite4WhereBegin] after the
    first [k] FROM entries. *)
Definition toTheLeft (ms : WhereMaskSet) (fromCursors : list Z) (k : nat) : Z :=
  fold_left (fun acc c => Z.lor acc (getMask ms c)) (firstn k fromCursors) 0.

End MaskSet.

(* ------------------------------------------------------------------ *)
(** ** Expressions and WHERE terms *)

Module Term.

(** The operator codes of the expression nodes this development needs. *)
Inductive tk := TK_AND | TK_OR | TK_EQ | TK_NE | TK_LT | TK_LE | TK_GT | TK_GE
              | TK_PLUS.

Definition tk_eqb (a b : tk) : bool :=
  match a, b with
  | TK_AND, TK_AND | TK_OR, TK_OR | TK_EQ, TK_EQ | TK_NE, TK_NE
  | TK_LT, TK_LT | TK_LE, TK_LE | TK_GT, TK_GT | TK_GE, TK_GE
  | TK_PLUS, TK_PLUS => true
  | _, _ => false
  end.

(** The parsed expression tree handed over by the parser (an external
    collaborator).  [EColumn] is [TK_COLUMN] with its [iTable], [iColumn] and
    the column's affinity; [EConst] a literal or bound parameter with its
    affinity and an opaque token; [EBin] a binary node; [EIn] is
    [x IN (list)]. *)
Inductive Expr :=
  | EColumn (iTable iColumn aff : Z)
  | EConst (aff tok : Z)
  | EBin (op : tk) (l r : Expr)
  | EIn (l : Expr) (lst : list Expr).

(** [WO_xx] operator classes.  [WO_LT] is [WO_EQ<<(TK_LT-TK_EQ)] and so on,
    with the token order [TK_EQ < TK_GT < TK_LE < TK_LT < TK_GE] that the
    assertions of [allowedOp] and [exprCommute] fix. *)
Definition WO_IN    : Z := 1.
Definition WO_EQ    : Z := 2.
Definition WO_GT    : Z := 4.
Definition WO_LE    : Z := 8.
Definition WO_LT    : Z := 16.
Definition WO_GE    : Z := 32.
Definition WO_MATCH : Z := 64.
Definition WO_ISNULL : Z := 128.
Definition WO_OR    : Z := 256.
Definition WO_AND   : Z := 512.
Definition WO_EQUIV : Z := 1024.
Definition WO_NOOP  : Z := 2048.
Definition WO_ALL   : Z := 4095.
Definition WO_SINGLE : Z := 255.

(** [TERM_xx] flags.  [TERM_VNULL] is 0x80 when SQLITE4_ENABLE_STAT3 is
    defined and 0x00 otherwise. *)
Definition TERM_DYNAMIC : Z := 1.
Definition TERM_VIRTUAL : Z := 2.
Definition TERM_CODED   : Z := 4.
Definition TERM_COPIED  : Z := 8.
Definition TERM_ORINFO  : Z := 16.
Definition TERM_ANDINFO : Z := 32.
Definition TERM_OR_OK   : Z := 64.
Definition TERM_VNULL (enableStat3 : bool) : Z := if enableStat3 then 128 else 0.

Definition hasBits (x m : Z) : bool := negb (Z.land x m =? 0).

(** [struct WhereTerm] (the [u.leftColumn] member of the union only). *)
Record WhereTerm := mkTerm {
  pExpr : Expr;
  iParent : Z;
  leftCursor : Z;
  leftColumn : Z;
  eOperator : Z;
  wtFlags : Z;
  nChild : Z;
  prereqRight : Z;
  prereqAll : Z
}.

(** [struct WhereClause]: its split operator and its terms [a[0..nTerm)]. *)
Record WhereClause := mkWC { wcOp : tk; a : list WhereTerm }.

(** [whereClauseInsert] (allocation assumed to succeed): a new term with the
    given expression and flags and [iParent = -1] is appended; the fields the
    C code leaves for [exprAnalyze] to fill are zero here. *)
Definition whereClauseInsert (wc : WhereClause) (p : Expr) (flags : Z)
  : WhereClause * Z :=
  (mkWC (wcOp wc) (a wc ++ [mkTerm p (-1) 0 0 0 flags 0 0 0]),
   Z.of_nat (List.length (a wc))).

End Term.

(* ------------------------------------------------------------------ *)
(** ** SelectivityOracle: [whereRangeScanEst] *)

Module Range.
Import Term.

(** The part of [struct Index] the estimator reads. *)
Record Index := mkIndex { idxNum : Z; nSample : Z }.

Section RangeEst.
(** [SQLITE4_ENABLE_STAT3] at compile time, and
    [OptimizationEnabled(db, SQLITE4_Stat3)] at run time. *)
Variable enableStat3 : bool.
Variable stat3Opt : bool.
(** The histogram branch of the STAT3 build: [Some rangeDiv] when it
    completes with [SQLITE4_OK], [None] when [rc] is an error, in which case
    the code falls through to the default estimate. *)
Variable sampleRangeDiv : Index -> option WhereTerm -> option WhereTerm -> option Z.

(** [whereRangeScanEst]: the value stored in [*pRangeDiv]. *)
Definition whereRangeScanEst (p : Index) (nEq : Z)
  (pLower pUpper : option WhereTerm) : Z :=
  let sampled :=
    if enableStat3 && (nEq =? 0) && negb (nSample p =? 0) && stat3Opt
    then sampleRangeDiv p pLower pUpper else None in
  match sampled with
  | Some d => d
  | None =>
      (match pLower with
       | Some t => if Z.land (wtFlags t) (TERM_VNULL enableStat3) =? 0
                   then 20 else 0
       | None => 0
       end) +
      (match pUpper with Some _ => 20 | None => 0 end)
  end.

(** The range adjustment of [whereLoopAddBtreeIndex]:
    [pNew->nOut = saved_nOut>rDiv+10 ? saved_nOut - rDiv : 10]. *)
Definition rangeAdjust (saved_nOut rDiv : Z) : Z :=
  if rDiv + 10 <? saved_nOut then saved_nOut - rDiv else 10.

End RangeEst.
End Range.

(* ------------------------------------------------------------------ *)
(** ** CandidatePool: [WhereLoop] and [whereLoopInsert] *)

Module Loop.

Definition WHERE_INDEXED      : Z := 512.
Definition WHERE_VIRTUALTABLE : Z := 1024.
Definition WHERE_AUTO_INDEX   : Z := 16384.

(** An index descriptor, by identity (the pointer the C code compares) and
    its [tnum] (0 for the transient automatic index). *)
Record IndexRef := mkIndexRef { idxId : Z; tnum : Z }.

Definition indexRef_eqb (x y : option IndexRef) : bool :=
  match x, y with
  | Some a, Some b => (idxId a =? idxId b) && (tnum a =? tnum b)
  | None, None => true
  | _, _ => false
  end.

(** The fields of [struct WhereLoop] that [whereLoopInsert] reads or
    writes; [pIndex] is [u.btree.pIndex]. *)
Record WhereLoop := mkLoop {
  iTab : Z;
  iSortIdx : Z;
  prereq : Z;
  rSetup : Z;
  rRun : Z;
  nOut : Z;
  nLTerm : Z;
  wsFlags : Z;
  pIndex : option IndexRef
}.

(** First test of the search loop: [p] is no worse than the template in
    dependencies, setup cost and run cost. *)
Definition noWorse (p t : WhereLoop) : bool :=
  (Z.land (prereq p) (prereq t) =? prereq p)
  && (rSetup p <=? rSetup t) && (rRun p <=? rRun t).

(** The exception of rule (5): an indexed [p] using fewer terms of the same
    index as an indexed template, with the same dependencies. *)
Definition usesMoreTerms (p t : WhereLoop) : bool :=
  (nLTerm p <? nLTerm t)
  && negb (Z.land (wsFlags p) WHERE_INDEXED =? 0)
  && negb (Z.land (wsFlags t) WHERE_INDEXED =? 0)
  && indexRef_eqb (pIndex p) (pIndex t)
  && (prereq p =? prereq t).

(** Second test: the template is no worse than [p]
    ([ALWAYS(...)] is the plain condition in a release build). *)
Definition templateNoWorse (p t : WhereLoop) : bool :=
  (Z.land (prereq p) (prereq t) =? prereq t)
  && (rRun t <=? rRun p) && (rSetup t <=? rSetup p).

Definition sameSlot (p t : WhereLoop) : bool :=
  (iTab p =? iTab t) && (iSortIdx p =? iSortIdx t).

(** What is stored for the template: [whereLoopXfer] copies it, then the
    pointer to an automatic index ([tnum==0]) is cleared on b-tree loops. *)
Definition stored (t : WhereLoop) : WhereLoop :=
  if Z.land (wsFlags t) WHERE_VIRTUALTABLE =? 0 then
    match pIndex t with
    | Some ix => if tnum ix =? 0 then
                   mkLoop (iTab t) (iSortIdx t) (prereq t) (rSetup t) (rRun t)
                          (nOut t) (nLTerm t) (wsFlags t) None
                 else t
    | None => t
    end
  else t.

(** [whereLoopInsert] with [pBuilder->pOrSet==0], on the list
    [pWInfo->pLoops] (allocation assumed to succeed).  The search stops at
    the first loop of the same [iTab] and [iSortIdx] that is comparable with
    the template: it is kept (no-op), or overwritten in place; when there is
    none the template is linked at the end of the list. *)
Fixpoint whereLoopInsert (pool : list WhereLoop) (t : WhereLoop) : list WhereLoop :=
  match pool with
  | [] => [stored t]
  | p :: rest =>
      if negb (sameSlot p t) then p :: whereLoopInsert rest t
      else if noWorse p t then
        if usesMoreTerms p t then stored t :: rest
        else pool
      else if templateNoWorse p t then stored t :: rest
      else p :: whereLoopInsert rest t
  end.

(** Weak dominance as the spec states it: [E] dominates [C]. *)
Definition specDominates (e c : WhereLoop) : bool :=
  sameSlot e c && noWorse e c.

End Loop.

(* ------------------------------------------------------------------ *)
(** ** Solver: the merge step of [wherePathSolver] *)

Module Solver.

(** [struct WherePath] ([aLoop] as the list of the loops' identities). *)
Record WherePath := mkPath {
  maskLoop : Z;
  revLoop : Z;
  nRow : Z;
  rCost : Z;
  isOrderedValid : bool;
  isOrdered : bool;
  aLoop : list Z
}.

(** [mxChoice = (nLoop==1) ? 1 : (nLoop==2 ? 5 : 10)]. *)
Definition mxChoice (nLoop : Z) : nat :=
  if nLoop =? 1 then 1%nat else if nLoop =? 2 then 5%nat else 10%nat.

(** [pTo->maskLoop==maskNew && pTo->isOrderedValid==isOrderedValid]. *)
Definition samePathKey (p t : WherePath) : bool :=
  (maskLoop p =? maskLoop t) && Bool.eqb (isOrderedValid p) (isOrderedValid t).

(** The search [for(jj=0, pTo=aTo; jj<nTo; jj++, pTo++)] for an entry
    with the same key, from index [jj]. *)
Fixpoint findSame (aTo : list WherePath) (t : WherePath) (jj : nat) : option nat :=
  match aTo with
  | [] => None
  | p :: rest => if samePathKey p t then Some jj else findSame rest t (S jj)
  end.

(** [for(jj=nTo-1; aTo[jj].rCost<mxCost; jj--){}], started with
    [jj + 1 = nTo]; [None] when it would run below 0 (excluded by
    [assert(jj>0)]). *)
Fixpoint scanDown (aTo : list WherePath) (mxCost : Z) (jj1 : nat) : option nat :=
  match jj1 with
  | O => None
  | S jj => if rCost (nth jj aTo (mkPath 0 0 0 0 false false [])) <? mxCost
            then scanDown aTo mxCost jj else Some jj
  end.

Fixpoint setNth (l : list WherePath) (i : nat) (x : WherePath) : list WherePath :=
  match l, i with
  | [], _ => []
  | _ :: rest, O => x :: rest
  | y :: rest, S i => y :: setNth rest i x
  end.

(** [mxCost = aTo[0].rCost; for(jj=1; jj<mxChoice; jj++) if( ... > mxCost ) ...]. *)
Definition maxCost (aTo : list WherePath) : Z :=
  match aTo with
  | [] => 0
  | p :: rest => fold_left (fun m q => Z.max m (rCost q)) rest (rCost p)
  end.

(** Writing the winner into [aTo[jj]] (or appending it when [jj==nTo]),
    then recomputing [mxCost] when the set is full. *)
Definition storePath (mx : nat) (aTo : list WherePath) (mxCost : Z) (jj : nat)
  (t : WherePath) : list WherePath * Z :=
  let aTo' := if Nat.eqb jj (List.length aTo) then aTo ++ [t] else setNth aTo jj t in
  (aTo', if Nat.leb mx (List.length aTo') then maxCost aTo' else mxCost).

(** One candidate [t] (the path [pFrom] extended by [pWLoop], with its cost
    already computed) checked against the [nTo = length aTo] best paths of
    the generation; returns the new [aTo] and [mxCost]. *)
Definition mergePath (mx : nat) (aTo : list WherePath) (mxCost : Z) (t : WherePath)
  : list WherePath * Z :=
  match findSame aTo t 0 with
  | None =>
      if Nat.leb mx (List.length aTo) && (mxCost <=? rCost t) then (aTo, mxCost)
      else if Nat.ltb (List.length aTo) mx then storePath mx aTo mxCost (List.length aTo) t
      else match scanDown aTo mxCost (List.length aTo) with
           | Some jj => storePath mx aTo mxCost jj t
           | None => (aTo, mxCost)
           end
  | Some jj =>
      if rCost (nth jj aTo t) <=? rCost t then (aTo, mxCost)
      else storePath mx aTo mxCost jj t
  end.

End Solver.

(* ------------------------------------------------------------------ *)
(** ** Transitive-equality scan: [whereScanInit] / [whereScanNext] *)

Module Scan.
Import Term.

(** [ArraySize(pScan->aEquiv)] is 22 slots, i.e. 11 (cursor, column) pairs. *)
Definition aEquivSlots : nat := 22.

Definition rightOf (e : Expr) : option Expr :=
  match e with EBin _ _ r => Some r | _ => None end.

Definition columnOf (e : option Expr) : option (Z * Z) :=
  match e with Some (EColumn t c _) => Some (t, c) | _ => None end.

(** The state of a [WhereScan].  [chain] is [pOrigWC] followed by its
    [pOuter] clauses; [wc] is the position of [pWC] in it ([length chain]
    for NULL).  [aEquiv] holds the pairs, so [nEquiv = 2 * length aEquiv];
    [ieq] is the pair being scanned, so [iEquiv = 2 * ieq + 2]. *)
Record WhereScan := mkScan {
  chain : list WhereClause;
  zCollName : option string;
  idxaff : Z;
  opMask : Z;
  wc : nat;
  k : nat;
  aEquiv : list (Z * Z);
  ieq : nat
}.

Section ScanDef.
(** [sqlite4IndexAffinityOk(pX, idxaff)], from the expression module. *)
Variable indexAffinityOk : Expr -> Z -> bool.
(** [sqlite4_stricmp(pColl->zName, zCollName)==0], where [pColl] is
    [sqlite4BinaryCompareCollSeq] of the term's operands or the default
    collation. *)
Variable collMatches : Expr -> string -> bool.

Definition setK (s : WhereScan) (wc' k' : nat) (ae : list (Z * Z)) (ieq' : nat) : WhereScan :=
  mkScan (chain s) (zCollName s) (idxaff s) (opMask s) wc' k' ae ieq'.

(** The [WO_EQUIV] branch: record the right-hand column of [X=Y] unless it is
    already present or the array is full. *)
Definition addEquiv (s : WhereScan) (t : WhereTerm) : list (Z * Z) :=
  if hasBits (eOperator t) WO_EQUIV && Nat.ltb (2 * List.length (aEquiv s)) aEquivSlots then
    match columnOf (rightOf (pExpr t)) with
    | Some q => if existsb (fun p => (fst p =? fst q) && (snd p =? snd q)) (aEquiv s)
                then aEquiv s else aEquiv s ++ [q]
    | None => aEquiv s
    end
  else aEquiv s.

(** The tests that decide whether a term with a matching left-hand side is
    returned. *)
Definition accepts (s : WhereScan) (t : WhereTerm) : bool :=
  hasBits (eOperator t) (opMask s) &&
  (match zCollName s with
   | Some z => if hasBits (eOperator t) WO_ISNULL then true
               else indexAffinityOk (pExpr t) (idxaff s) && collMatches (pExpr t) z
   | None => true
   end) &&
  negb (hasBits (eOperator t) WO_EQ &&
        match columnOf (rightOf (pExpr t)), aEquiv s with
        | Some q, p0 :: _ => (fst q =? fst p0) && (snd q =? snd p0)
        | _, _ => false
        end).

Inductive stepResult :=
  | Done
  | Continue (s : WhereScan)
  | Found (t : WhereTerm) (s : WhereScan).

(** One iteration of the loops of [whereScanNext]. *)
Definition scanStep (s : WhereScan) : stepResult :=
  match nth_error (aEquiv s) (ieq s) with
  | None => Done
  | Some (iCur, iColumn) =>
      match nth_error (chain s) (wc s) with
      | None => Continue (setK s 0 0 (aEquiv s) (S (ieq s)))
      | Some clause =>
          match nth_error (a clause) (k s) with
          | None => Continue (setK s (S (wc s)) 0 (aEquiv s) (ieq s))
          | Some t =>
              if (leftCursor t =? iCur) && (leftColumn t =? iColumn) then
                let ae := addEquiv s t in
                let s' := setK s (wc s) (S (k s)) ae (ieq s) in
                if accepts s' t then Found t s' else Continue s'
              else Continue (setK s (wc s) (S (k s)) (aEquiv s) (ieq s))
          end
      end
  end.

(** [fuel] iterations of the scan, collecting every term returned by the
    successive calls of [whereScanNext]; also returns the last state. *)
Fixpoint scanRun (fuel : nat) (s : WhereScan) : list WhereTerm * WhereScan :=
  match fuel with
  | O => ([], s)
  | S f =>
      match scanStep s with
      | Done => ([], s)
      | Continue s' => scanRun f s'
      | Found t s' => let '(ts, s'') := scanRun f s' in (t :: ts, s'')
      end
  end.

(** [whereScanInit], given the collation and affinity it derives from the
    index. *)
Definition whereScanInit (chain0 : list WhereClause) (iCur iColumn : Z)
  (opMask0 : Z) (zColl : option string) (aff : Z) : WhereScan :=
  mkScan chain0 zColl aff opMask0 0 0 [(iCur, iColumn)] 0.

End ScanDef.

(** A term of the scanned clauses. *)
Definition inChain (ch : list WhereClause) (t : WhereTerm) : Prop :=
  exists c, In c ch /\ In t (a c).

(** [reach ch start n p]: [p] is reachable from [start] through [n]
    [WO_EQUIV] terms [X=Y] of the clauses. *)
Inductive reach (ch : list WhereClause) (start : Z * Z) : nat -> Z * Z -> Prop :=
  | reach_start : reach ch start 0 start
  | reach_step n p t q :
      reach ch start n p -> inChain ch t ->
      (leftCursor t, leftColumn t) = p ->
      hasBits (eOperator t) WO_EQUIV = true ->
      columnOf (rightOf (pExpr t)) = Some q ->
      reach ch start (S n) q.

End Scan.

(* ------------------------------------------------------------------ *)
(** ** LIKE/GLOB prefix rewrite: [isLikeOrGlob] and its use in [exprAnalyze] *)

Module Like.

(** [SQLITE4_AFF_TEXT] (sqliteInt.h). *)
Definition SQLITE4_AFF_TEXT : Z := 97.

(** Modelled from the spec: [sqlite4UpperToLower] (global.c, not among the
    sources here; the spec does not describe it) is SQLite's ASCII
    case-folding table: 'A'..'Z' map to 'a'..'z', every other byte to
    itself. *)
Definition sqlite4UpperToLower (c : Z) : Z :=
  if (65 <=? c) && (c <=? 90) then c + 32 else c.

(** The right-hand side of the LIKE/GLOB call ([pList->a[0].pExpr]): a
    string literal, a bound parameter (with its current value when that
    value is text), or anything else.  Strings are their bytes, without the
    terminating NUL. *)
Inductive LikeRhs :=
  | RString (z : list Z)
  | RVariable (textValue : option (list Z))
  | ROther.

(** A candidate LIKE/GLOB expression.  [likeFn] is what
    [sqlite4IsLikeFunction] reports: [None] when it is not a LIKE/GLOB call,
    otherwise [*pnoCase] and the three wildcard characters [wc].  The
    left-hand side ([pList->a[1].pExpr]) is described by whether it is a
    [TK_COLUMN], its affinity and whether its table is virtual. *)
Record LikeExpr := mkLike {
  likeFn : option (bool * (Z * Z * Z));
  lhsIsColumn : bool;
  lhsAff : Z;
  lhsVirtual : bool;
  rhs : LikeRhs
}.

Definition isWild (wc : Z * Z * Z) (c : Z) : bool :=
  let '(w0, w1, w2) := wc in (c =? w0) || (c =? w1) || (c =? w2).

(** [z[i]], reading the terminating NUL past the end. *)
Definition zAt (z : list Z) (i : nat) : Z := nth i z 0.

(** [while( (c=z[cnt])!=0 && c!=wc[0] && c!=wc[1] && c!=wc[2] ) cnt++]. *)
Fixpoint prefixLen (z : list Z) (wc : Z * Z * Z) : nat :=
  match z with
  | [] => O
  | c :: r => if (c =? 0) || isWild wc c then O else S (prefixLen r wc)
  end.

(** [isLikeOrGlob]: [Some (prefix, isComplete, noCase)] when it returns
    true. *)
Definition isLikeOrGlob (e : LikeExpr) : option (list Z * bool * bool) :=
  match likeFn e with
  | None => None
  | Some (noCase, wc) =>
      if negb (lhsIsColumn e) || negb (lhsAff e =? SQLITE4_AFF_TEXT) || lhsVirtual e
      then None
      else
        let oz := match rhs e with
                  | RString z => Some z
                  | RVariable v => v
                  | ROther => None
                  end in
        match oz with
        | None => None
        | Some z =>
            let cnt := prefixLen z wc in
            let c := zAt z cnt in
            let '(w0, _, _) := wc in
            if negb (Nat.eqb cnt 0) && negb (zAt z (cnt - 1) =? 255) then
              Some (firstn cnt z, (c =? w0) && (zAt z (S cnt) =? 0), noCase)
            else None
        end
  end.

(** A virtual term [pLeft COLLATE coll <op> bound] appended by the rewrite. *)
Record NewRange := mkRange { nrOp : Term.tk; nrColl : string; nrBound : list Z }.

(** The LIKE/GLOB block of [exprAnalyze]: the two terms it appends (in
    order) and whether they are made children of the LIKE term
    ([isComplete]). *)
Definition likeRewrite (wcOp : Term.tk) (e : LikeExpr) : option (list NewRange * bool) :=
  if Term.tk_eqb wcOp Term.TK_AND then
    match isLikeOrGlob e with
    | Some (pStr1, isComplete, noCase) =>
        let c := last pStr1 0 in
        let isComplete' := if noCase && (c =? 64) then false else isComplete in
        let c' := if noCase then sqlite4UpperToLower c else c in
        let pStr2 := removelast pStr1 ++ [(c' + 1) mod 256] in
        let coll := if noCase then "NOCASE"%string else "BINARY"%string in
        Some ([mkRange Term.TK_GE coll pStr1; mkRange Term.TK_LT coll pStr2], isComplete')
    | None => None
    end
  else None.

End Like.

(* ------------------------------------------------------------------ *)
(** ** [exprAnalyze] and the OR-term analysis [exprAnalyzeOrTerm] *)

Module OrIn.
Import Term MaskSet.

Section Usage.
Variable ms : WhereMaskSet.

(** [exprTableUsage] and [exprListTableUsage]. *)
Fixpoint exprTableUsage (e : Expr) : Z :=
  match e with
  | EColumn t _ _ => getMask ms t
  | EConst _ _ => 0
  | EBin _ l r => Z.lor (exprTableUsage r) (exprTableUsage l)
  | EIn l lst =>
      Z.lor (exprTableUsage l)
        ((fix go (xs : list Expr) : Z :=
            match xs with [] => 0 | x :: r => Z.lor (exprTableUsage x) (go r) end) lst)
  end.

Definition exprListTableUsage (lst : list Expr) : Z :=
  fold_right (fun x acc => Z.lor (exprTableUsage x) acc) 0 lst.

End Usage.

(** [pExpr->pLeft] and [pExpr->pRight] ([None] for NULL). *)
Definition pLeftOf (e : Expr) : option Expr :=
  match e with EBin _ l _ | EIn l _ => Some l | _ => None end.

Definition pRightOf (e : Expr) : option Expr :=
  match e with EBin _ _ r => Some r | _ => None end.

(** [allowedOp] together with [operatorMask]: the [WO_xx] class of an
    indexable operator, [None] for any other node. *)
Definition operatorMask (e : Expr) : option Z :=
  match e with
  | EBin TK_EQ _ _ => Some WO_EQ
  | EBin TK_GT _ _ => Some WO_GT
  | EBin TK_LE _ _ => Some WO_LE
  | EBin TK_LT _ _ => Some WO_LT
  | EBin TK_GE _ _ => Some WO_GE
  | EIn _ _ => Some WO_IN
  | _ => None
  end.

(** [exprCommute] (the collation markers are not modelled). *)
Definition exprCommute (e : Expr) : Expr :=
  match e with
  | EBin op l r =>
      let op' := match op with
                 | TK_GT => TK_LT | TK_LT => TK_GT
                 | TK_LE => TK_GE | TK_GE => TK_LE
                 | o => o
                 end in
      EBin op' r l
  | _ => e
  end.

Definition isEqExpr (e : Expr) : bool :=
  match e with EBin TK_EQ _ _ => true | _ => false end.

Definition dfltTerm : WhereTerm := mkTerm (EConst 0 0) (-1) 0 0 0 0 0 0 0.

(** [pWC->a[i] = x]; out of range nothing changes. *)
Fixpoint setAt (l : list WhereTerm) (i : nat) (x : WhereTerm) : list WhereTerm :=
  match l, i with
  | [], _ => []
  | _ :: r, O => x :: r
  | y :: r, S i' => y :: setAt r i' x
  end.

Definition termAt (wc : WhereClause) (i : nat) : WhereTerm := nth i (a wc) dfltTerm.

Definition setTerm (wc : WhereClause) (i : nat) (x : WhereTerm) : WhereClause :=
  mkWC (wcOp wc) (setAt (a wc) i x).

Definition withFlags (t : WhereTerm) (f : Z) : WhereTerm :=
  mkTerm (pExpr t) (iParent t) (leftCursor t) (leftColumn t) (eOperator t) f
    (nChild t) (prereqRight t) (prereqAll t).

Definition withOp (t : WhereTerm) (op : Z) : WhereTerm :=
  mkTerm (pExpr t) (iParent t) (leftCursor t) (leftColumn t) op (wtFlags t)
    (nChild t) (prereqRight t) (prereqAll t).

Definition withParent (t : WhereTerm) (p : Z) : WhereTerm :=
  mkTerm (pExpr t) p (leftCursor t) (leftColumn t) (eOperator t) (wtFlags t)
    (nChild t) (prereqRight t) (prereqAll t).

Definition withChild (t : WhereTerm) (n : Z) : WhereTerm :=
  mkTerm (pExpr t) (iParent t) (leftCursor t) (leftColumn t) (eOperator t) (wtFlags t)
    n (prereqRight t) (prereqAll t).

(** [whereSplit]: the operands of the [op]-tree, each inserted with flags 0. *)
Fixpoint splitExpr (op : tk) (e : Expr) : list Expr :=
  match e with
  | EBin o l r => if tk_eqb o op then splitExpr op l ++ splitExpr op r else [e]
  | _ => [e]
  end.

Definition freshTerm (e : Expr) : WhereTerm := mkTerm e (-1) 0 0 0 0 0 0 0.

Definition whereSplit (op : tk) (e : Expr) : WhereClause :=
  mkWC op (map freshTerm (splitExpr op e)).

(** [exprAnalyzeAll]: [exprAnalyze] on [nTerm-1], ..., [0], with [nTerm]
    read once, so the terms it appends are not analysed again. *)
Fixpoint analyzeDown (ana : WhereClause -> nat -> WhereClause) (wc : WhereClause)
    (i : nat) : WhereClause :=
  match i with
  | O => wc
  | S i' => analyzeDown ana (ana wc i') i'
  end.

Definition exprAnalyzeAll (ana : WhereClause -> nat -> WhereClause) (wc : WhereClause)
  : WhereClause :=
  analyzeDown ana wc (List.length (a wc)).

Definition clearOk (t : WhereTerm) : WhereTerm :=
  withFlags t (Z.land (wtFlags t) (Z.lnot TERM_OR_OK)).

Definition setOk (t : WhereTerm) : WhereTerm :=
  withFlags t (Z.lor (wtFlags t) TERM_OR_OK).

Section Analyze.

Variable ms : WhereMaskSet.
(** [OptimizationEnabled(db, SQLITE4_Transitive)]. *)
Variable transitive : bool.
(** [sqlite4ExprAffinity] (expr.c). *)
Variable exprAffinity : Expr -> Z.

(** The first loop of [exprAnalyzeOrTerm], over the sub-terms [ts] of the
    OR clause [full]: the final [(indexable, chngToIN)].  [andMask t] is the
    [b] computed for a sub-term that is not a single indexable comparison. *)
Fixpoint orScan (andMask : WhereTerm -> Z) (full ts : list WhereTerm)
    (indexable chngToIN : Z) : Z * Z :=
  match ts with
  | [] => (indexable, chngToIN)
  | t :: r =>
      if indexable =? 0 then (indexable, chngToIN)
      else if Z.land (eOperator t) WO_SINGLE =? 0 then
        orScan andMask full r (Z.land indexable (andMask t)) 0
      else if hasBits (wtFlags t) TERM_COPIED then
        orScan andMask full r indexable chngToIN
      else
        let b := Z.lor (getMask ms (leftCursor t))
                   (if hasBits (wtFlags t) TERM_VIRTUAL
                    then getMask ms (leftCursor (nth (Z.to_nat (iParent t)) full dfltTerm))
                    else 0) in
        orScan andMask full r (Z.land indexable b)
          (if Z.land (eOperator t) WO_EQ =? 0 then 0 else Z.land chngToIN b)
  end.

(** The search for a candidate (iCursor, iColumn) of one pass of the [j]
    loop: the sub-terms passed over (TERM_OR_OK cleared) and, if found, the
    candidate and the sub-terms from it on (its TERM_OR_OK cleared). *)
Fixpoint phase1 (chngToIN iCursor : Z) (ts : list WhereTerm)
  : list WhereTerm * option (Z * Z * list WhereTerm) :=
  match ts with
  | [] => ([], None)
  | t :: r =>
      if (leftCursor t =? iCursor)
         || (Z.land chngToIN (getMask ms (leftCursor t)) =? 0)
      then let '(pre, res) := phase1 chngToIN iCursor r in (clearOk t :: pre, res)
      else ([], Some (leftCursor t, leftColumn t, clearOk t :: r))
  end.

(** The check that the candidate is common to every sub-term:
    [okToChngToIN] and the sub-terms with their TERM_OR_OK updated (those
    after the one that fails are left as they are). *)
Fixpoint phase2 (iCursor iColumn : Z) (ts : list WhereTerm) : bool * list WhereTerm :=
  match ts with
  | [] => (true, [])
  | t :: r =>
      if negb (leftCursor t =? iCursor) then
        let '(ok, r') := phase2 iCursor iColumn r in (ok, clearOk t :: r')
      else if negb (leftColumn t =? iColumn) then (false, t :: r)
      else
        let affRight := match pRightOf (pExpr t) with
                        | Some e => exprAffinity e | None => 0 end in
        let affLeft := match pLeftOf (pExpr t) with
                       | Some e => exprAffinity e | None => 0 end in
        if negb (affRight =? 0) && negb (affRight =? affLeft) then (false, t :: r)
        else let '(ok, r') := phase2 iCursor iColumn r in (ok, setOk t :: r')
  end.

(** One pass of the [j] loop: [okToChngToIN], whether no candidate was
    found ([i<0]), the [iCursor] chosen, and the sub-terms. *)
Definition jPass (chngToIN iCursor : Z) (ts : list WhereTerm)
  : bool * bool * Z * list WhereTerm :=
  let '(pre, res) := phase1 chngToIN iCursor ts in
  match res with
  | None => (false, true, iCursor, pre)
  | Some (c, col, rest) =>
      let '(ok, rest') := phase2 c col rest in (ok, false, c, pre ++ rest')
  end.

(** [for(j=0; j<2 && !okToChngToIN; j++)]: the sub-terms when
    [okToChngToIN] ends true. *)
Definition chooseIn (chngToIN : Z) (ts : list WhereTerm) : option (list WhereTerm) :=
  let '(ok, brk, c, ts1) := jPass chngToIN (-1) ts in
  if ok then Some ts1
  else if brk then None
  else let '(ok2, _, _, ts2) := jPass chngToIN c ts1 in
       if ok2 then Some ts2 else None.

(** The IN list ([pList]) and [pLeft] built from the TERM_OR_OK sub-terms. *)
Definition inList (ts : list WhereTerm) : list Expr * option Expr :=
  fold_left (fun acc t =>
               if hasBits (wtFlags t) TERM_OR_OK then
                 (fst acc ++ match pRightOf (pExpr t) with Some r => [r] | None => [] end,
                  pLeftOf (pExpr t))
               else acc) ts ([], None).

Section WithAnalyze.
(** The recursive [exprAnalyze] used on sub-clauses and on the new IN term. *)
Variable ana : WhereClause -> nat -> WhereClause.

(** The [b] of a sub-term that is not a single comparison: the masks of the
    [leftCursor]s of the indexable terms of its AND-split. *)
Definition andMask (t : WhereTerm) : Z :=
  fold_left (fun b t' => if match operatorMask (pExpr t') with Some _ => true | None => false end
                         then Z.lor b (getMask ms (leftCursor t')) else b)
    (a (exprAnalyzeAll ana (whereSplit TK_AND (pExpr t)))) 0.

(** [exprAnalyzeOrTerm] (allocations assumed to succeed).  The sub-clause
    kept in [pOrInfo] is not part of [WhereTerm] here; the effect on the
    parent clause is. *)
Definition exprAnalyzeOrTerm (wc : WhereClause) (idx : nat) : WhereClause :=
  let t := termAt wc idx in
  let subs := a (exprAnalyzeAll ana (whereSplit TK_OR (pExpr t))) in
  let '(indexable, chngToIN) := orScan andMask subs subs (Z.ones 64) (Z.ones 64) in
  let t1 := withOp (withFlags t (Z.lor (wtFlags t) TERM_ORINFO))
                   (if indexable =? 0 then 0 else WO_OR) in
  let wc1 := setTerm wc idx t1 in
  if chngToIN =? 0 then wc1
  else
    match chooseIn chngToIN subs with
    | None => wc1
    | Some subs' =>
        match inList subs' with
        | (lst, Some pLeft) =>
            let '(wc2, idxNew) :=
              whereClauseInsert wc1 (EIn pLeft lst) (Z.lor TERM_VIRTUAL TERM_DYNAMIC) in
            let wc3 := ana wc2 (Z.to_nat idxNew) in
            let wc4 := setTerm wc3 (Z.to_nat idxNew)
                         (withParent (termAt wc3 (Z.to_nat idxNew)) (Z.of_nat idx)) in
            setTerm wc4 idx (withOp (withChild (termAt wc4 idx) 1) WO_NOOP)
        | (_, None) => setTerm wc1 idx (withOp t1 WO_NOOP)
        end
    end.

(** One [exprAnalyze(pSrc, pWC, idx)] for the expression forms of [Expr]
    (no ON-clause marking, so [extraRight] is 0).  The in-place commutation
    of a sub-expression shared with a parent OR tree is not reflected in
    the parent's [pExpr]. *)
Definition exprAnalyzeStep (wc : WhereClause) (idx : nat) : WhereClause :=
  let t := termAt wc idx in
  let e := pExpr t in
  let prereqLeft := match pLeftOf e with Some l => exprTableUsage ms l | None => 0 end in
  let prereqRight := match e with
                     | EIn _ lst => exprListTableUsage ms lst
                     | _ => match pRightOf e with Some r => exprTableUsage ms r | None => 0 end
                     end in
  let prereqAll := exprTableUsage ms e in
  let t0 := mkTerm e (-1) (-1) (leftColumn t) 0 (wtFlags t) (nChild t) prereqRight prereqAll in
  match operatorMask e with
  | Some m =>
      let opMask := if Z.land prereqRight prereqLeft =? 0 then WO_ALL else WO_EQUIV in
      let t1 := match pLeftOf e with
                | Some (EColumn lt lc _) =>
                    mkTerm e (-1) lt lc (Z.land m opMask) (wtFlags t) (nChild t)
                      prereqRight prereqAll
                | _ => t0
                end in
      match pRightOf e with
      | Some (EColumn rt rc _) =>
          let e' := exprCommute e in
          let m' := match operatorMask e' with Some m' => m' | None => 0 end in
          if 0 <=? leftCursor t1 then
            let extra := if isEqExpr e && transitive then WO_EQUIV else 0 in
            let t2 := mkTerm e (-1) (leftCursor t1) (leftColumn t1)
                        (Z.lor (eOperator t1) extra) (Z.lor (wtFlags t1) TERM_COPIED) 1
                        prereqRight prereqAll in
            let pNew := mkTerm e' (Z.of_nat idx) rt rc (Z.land (m' + extra) opMask)
                          (Z.lor TERM_VIRTUAL TERM_DYNAMIC) 0 prereqLeft prereqAll in
            mkWC (wcOp wc) (setAt (a wc) idx t2 ++ [pNew])
          else
            setTerm wc idx (mkTerm e' (-1) rt rc (Z.land m' opMask) (wtFlags t1) (nChild t1)
                              prereqLeft prereqAll)
      | _ => setTerm wc idx t1
      end
  | None =>
      match e with
      | EBin TK_OR _ _ => exprAnalyzeOrTerm (setTerm wc idx t0) idx
      | _ => setTerm wc idx t0
      end
  end.

End WithAnalyze.

(** [exprAnalyze], its nested calls bounded by [fuel]. *)
Fixpoint exprAnalyze (fuel : nat) (wc : WhereClause) (idx : nat) : WhereClause :=
  match fuel with
  | O => wc
  | S f => exprAnalyzeStep (exprAnalyze f) wc idx
  end.

End Analyze.

(** A model of [sqlite4ExprAffinity] for the nodes of [Expr]: a column or a
    literal has its own affinity, any other node none. *)
Definition exprAffinityOf (e : Expr) : Z :=
  match e with EColumn _ _ aff | EConst aff _ => aff | _ => 0 end.

End OrIn.

(* ------------------------------------------------------------------ *)
(** ** whereCost, estLog, WhereOrSet, codeApplyAffinity *)

Module CostEst.

(** The table [a[]] of [whereCost]. *)
Definition whereCostTab : list Z := [0; 2; 3; 5; 6; 7; 8; 9].

(** [while( x<8 ){ y -= 10; x <<= 1; }] *)
Fixpoint loopUp (fuel : nat) (x y : Z) : Z * Z :=
  match fuel with
  | O => (x, y)
  | S f => if x <? 8 then loopUp f (Z.shiftl x 1) (y - 10) else (x, y)
  end.

(** [while( x>255 ){ y += 40; x >>= 4; }] *)
Fixpoint loopDown4 (fuel : nat) (x y : Z) : Z * Z :=
  match fuel with
  | O => (x, y)
  | S f => if 255 <? x then loopDown4 f (Z.shiftr x 4) (y + 40) else (x, y)
  end.

(** [while( x>15 ){ y += 10; x >>= 1; }] *)
Fixpoint loopDown1 (fuel : nat) (x y : Z) : Z * Z :=
  match fuel with
  | O => (x, y)
  | S f => if 15 <? x then loopDown1 f (Z.shiftr x 1) (y + 10) else (x, y)
  end.

(** A bound on the iterations of every loop of [whereCost]: the down loops
    lower [log2 x] by at least one per iteration, the up loop runs at most
    twice. *)
Definition whereCostFuel (x : Z) : nat := (Z.to_nat (Z.log2 x) + 3)%nat.

(** [whereCost]: [x] is a [tRowcnt] (unsigned); [y] is a [WhereCost]; the
    result [a[x&7] + y - 10] is converted to the 16-bit [WhereCost]. *)
Definition whereCost (x : Z) : Z :=
  let fuel := whereCostFuel x in
  if x <? 8 then
    if x <? 2 then 0
    else
      let '(x1, y1) := loopUp fuel x 40 in
      u16 (nth (Z.to_nat (Z.land x1 7)) whereCostTab 0 + y1 - 10)
  else
    let '(x1, y1) := loopDown4 fuel x 40 in
    let '(x2, y2) := loopDown1 fuel x1 y1 in
    u16 (nth (Z.to_nat (Z.land x2 7)) whereCostTab 0 + y2 - 10).

(** [estLog] *)
Definition estLog (N : Z) : Z :=
  let x := whereCost N in if 33 <? x then x - 33 else 0.

End CostEst.

Module OrSet.
Import Cost.

(** [struct WhereOrCost]. *)
Record WhereOrCost := mkOrCost { prereq : Z; rRun : Z; nOut : Z }.

(** [N_OR_COST]; a [WhereOrSet] is the list of its [n] valid entries. *)
Definition N_OR_COST : nat := 3.

Definition dfltOrCost : WhereOrCost := mkOrCost 0 0 0.

(** [pSet->a[j] = x]. *)
Fixpoint replaceAt (l : list WhereOrCost) (j : nat) (x : WhereOrCost) : list WhereOrCost :=
  match l, j with
  | [], _ => []
  | _ :: r, O => x :: r
  | y :: r, S j' => y :: replaceAt r j' x
  end.

(** The first loop of [whereOrInsert]: [Some (inl j)] is the
    [goto whereOrInsert_done] with [p = &pSet->a[j]], [Some (inr tt)] the
    [return 0], [None] the end of the loop. *)
Fixpoint orSetScan (l : list WhereOrCost) (prereq0 rRun0 : Z) (j : nat)
  : option (nat + unit) :=
  match l with
  | [] => None
  | p :: r =>
      if (rRun0 <=? rRun p) && (Z.land prereq0 (prereq p) =? prereq0)
      then Some (inl j)
      else if (rRun p <=? rRun0) && (Z.land (prereq p) prereq0 =? prereq p)
      then Some (inr tt)
      else orSetScan r prereq0 rRun0 (S j)
  end.

(** [for(i=1; i<pSet->n; i++){ if( p->rRun>pSet->a[i].rRun ) p = pSet->a + i; }]:
    the index of the first entry of least [rRun], [p] starting at [best]. *)
Fixpoint orSetMin (l : list WhereOrCost) (best : nat) (bestRun : Z) (i : nat) : nat :=
  match l with
  | [] => best
  | q :: r =>
      if rRun q <? bestRun then orSetMin r i (rRun q) (S i)
      else orSetMin r best bestRun (S i)
  end.

(** The code at [whereOrInsert_done] on [p = &pSet->a[j]]. *)
Definition orSetDone (s : list WhereOrCost) (j : nat) (prereq0 rRun0 nOut0 : Z)
  : list WhereOrCost :=
  let p := nth j s dfltOrCost in
  replaceAt s j (mkOrCost prereq0 rRun0 (if nOut0 <? nOut p then nOut0 else nOut p)).

(** [whereOrInsert]: the updated set and the return value. *)
Definition whereOrInsert (s : list WhereOrCost) (prereq0 rRun0 nOut0 : Z)
  : list WhereOrCost * Z :=
  match orSetScan s prereq0 rRun0 0 with
  | Some (inl j) => (orSetDone s j prereq0 rRun0 nOut0, 1)
  | Some (inr _) => (s, 0)
  | None =>
      if (List.length s <? N_OR_COST)%nat then
        (* [p = &pSet->a[pSet->n++]; p->nOut = nOut;] then the done code *)
        (orSetDone (s ++ [mkOrCost prereq0 rRun0 nOut0]) (List.length s)
           prereq0 rRun0 nOut0, 1)
      else
        match s with
        | [] => (s, 0)
        | p0 :: r =>
            let j := orSetMin r 0 (rRun p0) 1 in
            if rRun (nth j s dfltOrCost) <=? rRun0 then (s, 0)
            else (orSetDone s j prereq0 rRun0 nOut0, 1)
        end
  end.

(** [whereOrMove(&sPrev, &sSum); sSum.n = 0;] and the double loop of
    [whereLoopAddOr] that combines the costs of two OR operands. *)
Definition orSetCombine (sPrev sCur : list WhereOrCost) : list WhereOrCost :=
  fold_left (fun sum p =>
    fold_left (fun sum c =>
      fst (whereOrInsert sum (Z.lor (prereq p) (prereq c))
             (whereCostAdd (rRun p) (rRun c))
             (whereCostAdd (nOut p) (nOut c)))) sCur sum) sPrev [].


End OrSet.

Module Affinity.
Section AffinityDef.
(** [SQLITE4_AFF_NONE] (sqliteInt.h). *)
Variable SQLITE4_AFF_NONE : Z.

(** [while( n>0 && zAff[0]==SQLITE4_AFF_NONE ){ n--; base++; zAff++; }] *)
Fixpoint skipLeadingNone (base n : Z) (zAff : list Z) : Z * Z * list Z :=
  match zAff with
  | c :: z' =>
      if (0 <? n) && (c =? SQLITE4_AFF_NONE)
      then skipLeadingNone (base + 1) (n - 1) z'
      else (base, n, zAff)
  | [] => (base, n, zAff)
  end.

(** [while( n>1 && zAff[n-1]==SQLITE4_AFF_NONE ){ n--; }], at most [fuel]
    iterations. *)
Fixpoint trimTrailingNone (fuel : nat) (n : Z) (zAff : list Z) : Z :=
  match fuel with
  | O => n
  | S f =>
      if (1 <? n) && (nth (Z.to_nat (n - 1)) zAff 0 =? SQLITE4_AFF_NONE)
      then trimTrailingNone f (n - 1) zAff
      else n
  end.

(** [codeApplyAffinity] for a non-NULL [zAff] of at least [n] entries: the
    operands [(base, n, zAff[0..n))] of the [OP_Affinity] it codes, or
    [None] when it codes nothing.  The second loop runs at most [n] times. *)
Definition codeApplyAffinity (base n : Z) (zAff : list Z) : option (Z * Z * list Z) :=
  let '(base1, n1, z1) := skipLeadingNone base n zAff in
  let n2 := trimTrailingNone (Z.to_nat n1) n1 z1 in
  if 0 <? n2 then Some (base1, n2, firstn (Z.to_nat n2) z1) else None.

End AffinityDef.
End Affinity.

(* ------------------------------------------------------------------ *)
(** ** disableTerm, columnsInIndex, whereKeyStats *)

Module Disable.
Import Term OrIn.

(** [u8]: [WhereTerm.nChild] is an 8-bit unsigned field. *)
Definition u8 (x : Z) : Z := x mod 256.

Section DisableDef.
(** [pLevel->iLeftJoin]. *)
Variable iLeftJoin : Z.
(** [ExprHasProperty(pExpr, EP_FromJoin)]: the ON-clause marking, which the
    expression tree of this development does not carry. *)
Variable fromJoin : Expr -> bool.

Fixpoint disableTermF (fuel : nat) (wc : list WhereTerm) (i : nat) : list WhereTerm :=
  match fuel with
  | O => wc
  | S f =>
      let t := nth i wc dfltTerm in
      if negb (hasBits (wtFlags t) TERM_CODED) && ((iLeftJoin =? 0) || fromJoin (pExpr t))
      then
        let wc1 := setAt wc i (withFlags t (Z.lor (wtFlags t) TERM_CODED)) in
        if 0 <=? iParent t then
          let j := Z.to_nat (iParent t) in
          let o := nth j wc1 dfltTerm in
          let c := u8 (nChild o - 1) in
          let wc2 := setAt wc1 j (withChild o c) in
          if c =? 0 then disableTermF f wc2 j else wc2
        else wc1
      else wc
  end.

(** [disableTerm(pLevel, pTerm)] with [pTerm = &pWC->a[i]] ([None] for a
    NULL [pTerm]).  Every recursive call follows the coding of a term that
    was not coded, so [length wc + 1] calls are enough
    ([disableTermF_fuel] below). *)
Definition disableTerm (wc : list WhereTerm) (pTerm : option nat) : list WhereTerm :=
  match pTerm with
  | None => wc
  | Some i => disableTermF (S (List.length wc)) wc i
  end.
End DisableDef.
End Disable.

Module Cover.
Section CoverDef.
(** [SQLITE4_INDEX_PRIMARYKEY] (its value is in sqliteInt.h). *)
Variable SQLITE4_INDEX_PRIMARYKEY : Z.

(** The fields of [Index] that [columnsInIndex] reads. *)
Record CoverIndex := mkCoverIndex { eIndexType : Z; nCover : Z; aiCover : list Z }.

(** [for(j=nCover-1; j>=0; j--){ x = aiCover[j]; if( x<BMS-1 ) m |= MASKBIT(x); }],
    called with [j = nCover]. *)
Fixpoint coverLoop (aiCover : list Z) (j : nat) (m : Z) : Z :=
  match j with
  | O => m
  | S j' =>
      let x := nth j' aiCover 0 in
      coverLoop aiCover j' (if x <? BMS - 1 then Z.lor m (MASKBIT x) else m)
  end.

Definition columnsInIndex (pIdx : CoverIndex) : Z :=
  if negb (eIndexType pIdx =? SQLITE4_INDEX_PRIMARYKEY)
  then coverLoop (aiCover pIdx) (Z.to_nat (nCover pIdx)) 0
  else 0.
End CoverDef.
End Cover.

Module KeyStats.

(** [IndexSample]: the encoded sample key [aVal] (its [nVal] bytes) and the
    estimated numbers of rows less than and equal to it. *)
Record IndexSample := mkSample { aVal : list Z; nLt : Z; nEq : Z }.

Definition dfltSample : IndexSample := mkSample [] 0 0.

(** [memcmp(p, q, n)] on unsigned bytes: the difference of the first two
    bytes that differ, 0 if the first [n] bytes agree (callers use only the
    sign). *)
Fixpoint memcmp (p q : list Z) (n : nat) : Z :=
  match n, p, q with
  | S n', x :: p', y :: q' => if x =? y then memcmp p' q' n' else x - y
  | _, _, _ => 0
  end.

(** The comparison in the loop of [whereKeyStats]: [res] for the key [buf]
    against the sample [s]. *)
Definition sampleCmp (buf : list Z) (s : IndexSample) : Z :=
  let n := Nat.min (List.length buf) (List.length (aVal s)) in
  let res := memcmp buf (aVal s) n in
  if res =? 0 then Z.of_nat (List.length buf) - Z.of_nat (List.length (aVal s)) else res.

(** [for(i=0; i<nSample; i++){ ...; if( res<=0 ){ isEq = (res==0); break; } }]:
    the final [i] and [isEq]. *)
Fixpoint findSample (buf : list Z) (l : list IndexSample) (i : nat) : nat * bool :=
  match l with
  | [] => (i, false)
  | s :: r =>
      let res := sampleCmp buf s in
      if res <=? 0 then (i, res =? 0) else findSample buf r (S i)
  end.

Section KeyStatsDef.
(** The width of [tRowcnt] (32 or 64 bits, chosen in sqliteInt.h). *)
Variable w : Z.
Definition rowcnt (x : Z) : Z := x mod 2 ^ w.

(** [iLower] and [iUpper] when no sample equals the key; [n] is
    [aiRowEst[0]]. *)
Definition keyStatsBounds (n : Z) (aSample : list IndexSample) (i : nat) : Z * Z :=
  match i with
  | O => (0, nLt (nth 0 aSample dfltSample))
  | S i' =>
      let iUpper := if (List.length aSample <=? i)%nat then n
                    else nLt (nth i aSample dfltSample) in
      let p := nth i' aSample dfltSample in
      (rowcnt (nEq p + nLt p), iUpper)
  end.

(** [whereKeyStats(pParse, pIdx, pBuf, roundUp, aStat)] with
    [aiRowEst[0] = n], [avgEq], the [nSample] samples [aSample] and the
    encoded key [buf]; the result is [(aStat[0], aStat[1])]. *)
Definition whereKeyStats (n avgEq : Z) (aSample : list IndexSample) (buf : list Z)
    (roundUp : bool) : Z * Z :=
  let '(i, isEq) := findSample buf aSample 0 in
  if isEq then (nLt (nth i aSample dfltSample), nEq (nth i aSample dfltSample))
  else
    let '(iLower, iUpper) := keyStatsBounds n aSample i in
    let iGap := if iUpper <=? iLower then 0 else iUpper - iLower in
    let iGap := if roundUp then rowcnt (iGap * 2) / 3 else iGap / 3 in
    (rowcnt (iLower + iGap), avgEq).
End KeyStatsDef.
End KeyStats.

(* ================================================================== *)
(** * Properties *)

(* ------------------------------------------------------------------ *)
(** ** Cost arithmetic *)

Section CostFacts.
Import Cost.

Lemma costAddTable_range :
  Forall (fun z => 2 <= z <= 10) costAddTable.
Proof. unfold costAddTable; repeat (apply Forall_cons; [lia|]); apply Forall_nil. Qed.

Lemma tab_range (i : Z) : 0 <= i <= 31 -> 2 <= tab i <= 10.
Proof.
  intros Hi. unfold tab.
  apply (proj1 (Forall_forall _ _) costAddTable_range).
  apply nth_In. change (List.length costAddTable) with 32%nat. lia.
Qed.

Lemma u16_small (x : Z) : 0 <= x < 65536 -> u16 x = x.
Proof. intros; unfold u16; apply Z.mod_small; lia. Qed.

End CostFacts.

(** C3: for all costs [a, b <= 6900], [whereCostAdd] is symmetric and
    lies between [max(a,b)] and [max(a,b) + 10]. *)
Theorem whereCostAdd_sym_bounded (a b : Z) :
  0 <= a <= 6900 -> 0 <= b <= 6900 ->
  Cost.whereCostAdd a b = Cost.whereCostAdd b a /\
  Z.max a b <= Cost.whereCostAdd a b <= Z.max a b + 10.
Proof.
  intros Ha Hb. unfold Cost.whereCostAdd.
  destruct (Z.leb_spec b a), (Z.leb_spec a b);
    repeat match goal with
    | |- context [?x <? ?y] => destruct (Z.ltb_spec x y)
    end;
    try (assert (a = b) by lia; subst b);
    repeat match goal with
    | |- context [Cost.tab ?i] =>
        let H := fresh in assert (H := tab_range i ltac:(lia));
        generalize dependent (Cost.tab i); intros
    end;
    repeat rewrite u16_small by lia; lia.
Qed.

Lemma whereCostAdd_sym_bounded_witness :
  Cost.whereCostAdd 100 95 = Cost.whereCostAdd 95 100 /\
  Z.max 100 95 <= Cost.whereCostAdd 100 95 <= Z.max 100 95 + 10.
Proof. apply whereCostAdd_sym_bounded; lia. Defined.

(** C10 (defect): at the 16-bit cost 640 ([2^64] rows) the shift
    [(n+8)<<(x-3)] of [whereCostToInt] is [8<<61], which wraps to 0 in a
    [u64]; the row count reported by [sqlite4WhereOutputRowCount] is 0. *)
Theorem whereOutputRowCount_zero_at_640 :
  Cost.sqlite4WhereOutputRowCount 640 = 0.
Proof. vm_compute. reflexivity. Qed.

(* ------------------------------------------------------------------ *)
(** ** Cursor bitmap *)

Section MaskFacts.
Import MaskSet.

Lemma fold_createMask (l : list Z) (ms : WhereMaskSet) :
  fold_left createMask l ms = mkMaskSet (ix ms ++ l).
Proof.
  revert ms; induction l as [|c l IH]; intros ms; simpl.
  - rewrite app_nil_r; destruct ms; reflexivity.
  - rewrite IH; simpl; rewrite <- app_assoc; reflexivity.
Qed.

Lemma findIx_nth (l : list Z) (k : nat) (off : Z) :
  NoDup l -> (k < List.length l)%nat ->
  findIx l (nth k l 0) off = Some (off + Z.of_nat k).
Proof.
  revert k off; induction l as [|a l IH]; intros k off Hnd Hk; simpl in *.
  - lia.
  - inversion Hnd as [|? ? Hnotin Hnd']; subst.
    destruct k as [|k].
    + rewrite Z.eqb_refl; f_equal; lia.
    + assert (Hin : In (nth k l 0) l) by (apply nth_In; lia).
      destruct (Z.eqb_spec a (nth k l 0)) as [Heq|_].
      * rewrite Heq in Hnotin; contradiction.
      * rewrite IH by (auto; lia). f_equal; lia.
Qed.

Lemma MASKBIT_pow (i : Z) : 0 <= i < BMS -> MASKBIT i = 2 ^ i.
Proof.
  intros Hi. unfold MASKBIT, u64, BMS in *.
  rewrite Z.shiftl_1_l. apply Z.mod_small. split.
  - apply Z.pow_nonneg; lia.
  - change 18446744073709551616 with (2 ^ 64). apply Z.pow_lt_mono_r; lia.
Qed.

Lemma firstn_S_nth (l : list Z) (k : nat) :
  (k < List.length l)%nat -> firstn (S k) l = firstn k l ++ [nth k l 0].
Proof.
  revert k; induction l as [|a l IH]; intros k Hk; simpl in *; [lia|].
  destruct k as [|k]; [reflexivity|].
  simpl. rewrite <- IH by lia. reflexivity.
Qed.

Lemma lor_ones_pow (i : Z) : 0 <= i -> Z.lor (Z.ones i) (2 ^ i) = Z.ones (i + 1).
Proof.
  intros Hi. apply Z.bits_inj'; intros m Hm.
  rewrite Z.lor_spec, Z.pow2_bits_eqb by lia.
  rewrite !Z.testbit_ones_nonneg by lia.
  destruct (Z.eqb_spec i m); destruct (Z.ltb_spec m i), (Z.ltb_spec m (i + 1));
    simpl; lia.
Qed.

Lemma land_ones_le (i j : Z) : 0 <= i <= j ->
  Z.land (Z.ones i) (Z.ones j) = Z.ones i.
Proof.
  intros Hij. apply Z.bits_inj'; intros m Hm.
  rewrite Z.land_spec, !Z.testbit_ones_nonneg by lia.
  destruct (Z.ltb_spec m i), (Z.ltb_spec m j); simpl; lia.
Qed.

(** The mask set built by [sqlite4WhereBegin] over distinct cursors. *)
Lemma getMask_from (cs : list Z) (k : nat) :
  NoDup cs -> (k < List.length cs)%nat -> Z.of_nat (List.length cs) <= BMS ->
  getMask (fold_left createMask cs initMaskSet) (nth k cs 0) = 2 ^ Z.of_nat k.
Proof.
  intros Hnd Hk Hw. rewrite fold_createMask. unfold getMask. simpl.
  rewrite findIx_nth by assumption. simpl. apply MASKBIT_pow. lia.
Qed.

Lemma toTheLeft_from (cs : list Z) (k : nat) :
  NoDup cs -> (k <= List.length cs)%nat -> Z.of_nat (List.length cs) <= BMS ->
  toTheLeft (fold_left createMask cs initMaskSet) cs k = Z.ones (Z.of_nat k).
Proof.
  intros Hnd Hk Hw. induction k as [|k IH]; [reflexivity|].
  unfold toTheLeft in *. rewrite firstn_S_nth by lia.
  rewrite fold_left_app. simpl. rewrite IH by lia.
  rewrite getMask_from by (auto; lia).
  rewrite lor_ones_pow by lia. f_equal. lia.
Qed.

End MaskFacts.

(** C2: cursors are interned in FROM order: for every FROM entry, the mask
    [M] of its cursor satisfies [M - 1 = ] the union of the masks of the
    entries to its left, and for [i < j], [mask_i - 1] is a strict subset
    of [mask_j - 1].  The cursors of the FROM entries are distinct and
    there are at most [BMS] of them. *)
Theorem mask_of_from_order (cs : list Z) :
  NoDup cs -> Z.of_nat (List.length cs) <= BMS ->
  exists ms, MaskSet.whereBeginMasks cs = inr ms /\
    (forall i, (i < List.length cs)%nat ->
       MaskSet.getMask ms (nth i cs 0) - 1 = MaskSet.toTheLeft ms cs i) /\
    (forall i j, (i < j < List.length cs)%nat ->
       let mi := MaskSet.getMask ms (nth i cs 0) - 1 in
       let mj := MaskSet.getMask ms (nth j cs 0) - 1 in
       Z.land mi mj = mi /\ mi <> mj).
Proof.
  intros Hnd Hw. exists (fold_left MaskSet.createMask cs MaskSet.initMaskSet).
  split; [unfold MaskSet.whereBeginMasks; destruct (Z.ltb_spec BMS (Z.of_nat (List.length cs))); [lia|reflexivity]|].
  split.
  - intros i Hi. rewrite toTheLeft_from, getMask_from by (auto; lia).
    rewrite Z.ones_equiv. lia.
  - intros i j Hij. simpl. rewrite !getMask_from by (auto; lia).
    rewrite !Z.sub_1_r, <- !Z.ones_equiv. split.
    + apply land_ones_le; lia.
    + intros Heq. assert (Z.ones (Z.of_nat i) < Z.ones (Z.of_nat j)); [|lia].
      rewrite !Z.ones_equiv. assert (2 ^ Z.of_nat i < 2 ^ Z.of_nat j)
        by (apply Z.pow_lt_mono_r; lia). lia.
Qed.

Lemma mask_of_from_order_witness :
  exists ms, MaskSet.whereBeginMasks [3; 7; 11] = inr ms /\
    (forall i, (i < 3)%nat ->
       MaskSet.getMask ms (nth i [3; 7; 11] 0) - 1 = MaskSet.toTheLeft ms [3; 7; 11] i) /\
    (forall i j, (i < j < 3)%nat ->
       let mi := MaskSet.getMask ms (nth i [3; 7; 11] 0) - 1 in
       let mj := MaskSet.getMask ms (nth j [3; 7; 11] 0) - 1 in
       Z.land mi mj = mi /\ mi <> mj).
Proof.
  apply (mask_of_from_order [3; 7; 11]).
  - repeat constructor; simpl; intuition lia.
  - simpl; unfold BMS; lia.
Defined.

(** C7 (counterexample): interning cursor 5 a second time is not
    idempotent: [createMask] appends it again and consumes a second bit. *)
Lemma createMask_not_idempotent :
  let ms1 := MaskSet.createMask MaskSet.initMaskSet 5 in
  let ms2 := MaskSet.createMask ms1 5 in
  MaskSet.n ms1 = 1 /\ MaskSet.n ms2 = 2 /\ MaskSet.n ms2 <> MaskSet.n ms1.
Proof. vm_compute. split; [reflexivity|split; [reflexivity|discriminate]]. Qed.

(** C7 (amended): [createMask] appends its cursor unconditionally, so
    interning a cursor already in the set consumes one more bit while
    [getMask] keeps returning the bit of its first occurrence; a FROM
    clause of more than [BMS] entries makes [sqlite4WhereBegin] fail
    before any mask is created, with the message
    "at most 64 tables in a join". *)
Theorem createMask_appends_and_width_check (ms : MaskSet.WhereMaskSet) (c : Z) :
  In c (MaskSet.ix ms) ->
  MaskSet.n (MaskSet.createMask ms c) = MaskSet.n ms + 1 /\
  MaskSet.getMask (MaskSet.createMask ms c) c = MaskSet.getMask ms c /\
  (forall cs : list Z, BMS < Z.of_nat (List.length cs) ->
     MaskSet.whereBeginMasks cs = inl MaskSet.errTooWide).
Proof.
  intros Hin. split; [|split].
  - unfold MaskSet.n, MaskSet.createMask; simpl. rewrite length_app; simpl; lia.
  - unfold MaskSet.getMask, MaskSet.createMask; simpl.
    assert (H : forall l off, In c l ->
              MaskSet.findIx (l ++ [c]) c off = MaskSet.findIx l c off).
    { induction l as [|a l IH]; intros off Hl; [destruct Hl|].
      simpl. destruct (Z.eqb_spec a c); [reflexivity|].
      destruct Hl as [->|Hl]; [congruence|]. apply IH; exact Hl. }
    rewrite H by exact Hin. reflexivity.
  - intros cs Hcs. unfold MaskSet.whereBeginMasks.
    destruct (Z.ltb_spec BMS (Z.of_nat (List.length cs))); [reflexivity|lia].
Qed.

Lemma createMask_appends_and_width_check_witness :
  let ms := MaskSet.mkMaskSet [4; 5] in
  MaskSet.n (MaskSet.createMask ms 5) = MaskSet.n ms + 1 /\
  MaskSet.getMask (MaskSet.createMask ms 5) 5 = MaskSet.getMask ms 5 /\
  (forall cs : list Z, BMS < Z.of_nat (List.length cs) ->
     MaskSet.whereBeginMasks cs = inl MaskSet.errTooWide).
Proof. apply createMask_appends_and_width_check. simpl; auto. Defined.

(* ------------------------------------------------------------------ *)
(** ** Range selectivity *)

(** A synthesised [x>NULL] term of a STAT3 build ([TERM_VNULL] set). *)
Definition vnullTerm : Term.WhereTerm :=
  Term.mkTerm (Term.EColumn 1 0 0) 2 1 0 Term.WO_GT
    (Z.lor (Z.lor Term.TERM_VIRTUAL Term.TERM_DYNAMIC) (Term.TERM_VNULL true)) 0 0 0.

(** C9 (counterexample): in a STAT3 build, on an index without samples, a
    lower bound that is the synthesised [x>NULL] term gets no reduction
    (0 rather than 20 deci-bels). *)
Lemma rangeScanEst_vnull_lower :
  Range.whereRangeScanEst true true (fun _ _ _ => None) (Range.mkIndex 1 0) 1
    (Some vnullTerm) None = 0.
Proof. reflexivity. Qed.

(** C9 (amended): when no sample histogram is usable (the STAT3 branch does
    not apply or fails), the estimate is 20 deci-bels for an upper bound plus
    20 for a lower bound, except that a lower bound carrying [TERM_VNULL]
    (the [x>NULL] term a STAT3 build synthesises from [x IS NOT NULL])
    contributes 0; the caller then lowers the row estimate by that amount
    but never below 10 (2 rows). *)
Theorem rangeScanEst_no_samples
  (enableStat3 stat3Opt : bool) sampleRangeDiv (p : Range.Index) (nEq : Z)
  (pLower pUpper : option Term.WhereTerm) (saved_nOut : Z) :
  (enableStat3 && (nEq =? 0) && negb (Range.nSample p =? 0) && stat3Opt = false
   \/ sampleRangeDiv p pLower pUpper = None) ->
  let lowerCounts :=
    match pLower with
    | Some t => negb (Term.hasBits (Term.wtFlags t) (Term.TERM_VNULL enableStat3))
    | None => false
    end in
  let nEnds := (if lowerCounts then 1 else 0) +
               (match pUpper with Some _ => 1 | None => 0 end) in
  Range.whereRangeScanEst enableStat3 stat3Opt sampleRangeDiv p nEq pLower pUpper
    = 20 * nEnds /\
  Range.rangeAdjust saved_nOut (20 * nEnds) =
    (if 20 * nEnds + 10 <? saved_nOut then saved_nOut - 20 * nEnds else 10).
Proof.
  intros Hno lowerCounts nEnds. split; [|reflexivity].
  unfold Range.whereRangeScanEst, nEnds, lowerCounts, Term.hasBits.
  assert (Hs : (if enableStat3 && (nEq =? 0) && negb (Range.nSample p =? 0) && stat3Opt
                then sampleRangeDiv p pLower pUpper else None) = None).
  { destruct Hno as [H|H]; [rewrite H; reflexivity|].
    destruct (_ && _); [exact H|reflexivity]. }
  rewrite Hs.
  destruct pLower as [t|], pUpper; try destruct (Z.land _ _ =? 0); simpl; lia.
Qed.

Lemma rangeScanEst_no_samples_witness :
  let p := Range.mkIndex 1 0 in
  let sd := fun (_ : Range.Index) (_ _ : option Term.WhereTerm) => @None Z in
  Range.whereRangeScanEst false false sd p 0 (Some vnullTerm) (Some vnullTerm)
    = 20 * 2 /\
  Range.rangeAdjust 100 (20 * 2) = 60.
Proof.
  pose proof (rangeScanEst_no_samples false false
    (fun _ _ _ => None) (Range.mkIndex 1 0) 0 (Some vnullTerm) (Some vnullTerm) 100
    (or_intror eq_refl)) as H.
  simpl in H. exact H.
Defined.

(* ------------------------------------------------------------------ *)
(** ** Candidate-loop insertion *)

Definition loopA : Loop.WhereLoop := Loop.mkLoop 0 0 1 0 20 0 1 0 None.
Definition loopB : Loop.WhereLoop := Loop.mkLoop 0 0 2 0 20 0 1 0 None.
Definition loopT : Loop.WhereLoop := Loop.mkLoop 0 0 0 0 10 0 1 0 None.

(** C1 (counterexample): the template [loopT] (no dependencies, run cost 10)
    weakly dominates both [loopA] and [loopB] of the pool, but only the
    first of them is overwritten; [loopB] stays in the pool. *)
Lemma whereLoopInsert_keeps_dominated :
  Loop.specDominates loopT loopB = true /\
  In loopB (Loop.whereLoopInsert [loopA; loopB] loopT) /\
  Loop.whereLoopInsert [loopA; loopB] loopT = [loopT; loopB].
Proof. vm_compute. split; [reflexivity|split; [right; left; reflexivity|reflexivity]]. Qed.

Section InsertFacts.
Import Loop.

(** A loop the search passes over. *)
Definition passedOver (t p : WhereLoop) : Prop :=
  sameSlot p t = false \/ (noWorse p t = false /\ templateNoWorse p t = false).

Lemma whereLoopInsert_app (pre post : list WhereLoop) (t : WhereLoop) :
  Forall (passedOver t) pre ->
  whereLoopInsert (pre ++ post) t = pre ++ whereLoopInsert post t.
Proof.
  induction pre as [|p pre IH]; intros Hpre; [reflexivity|].
  inversion Hpre as [|? ? Hp Hrest]; subst. simpl.
  destruct Hp as [Hs|[Hn Ht]].
  - rewrite Hs; simpl; rewrite IH by exact Hrest; reflexivity.
  - destruct (sameSlot p t); simpl; rewrite ?Hn, ?Ht, IH by exact Hrest; reflexivity.
Qed.

End InsertFacts.

(** C1 (amended): insertion scans the pool in order, passing over loops of
    another [iTab] or [iSortIdx] and loops that are neither no worse than
    the template [C] nor no better, and acts only on the first comparable
    loop [E]: if [E] is no worse than [C] (prereq subset, [rSetup] and
    [rRun] no larger), [C] is dropped, unless [E] and [C] are indexed loops
    on the same index with identical prereqs and [E] uses fewer terms, in
    which case [C] overwrites [E] whatever their run costs; otherwise, if
    [C] is no worse than [E] ([C.prereq] a subset, [rRun] and [rSetup] no
    larger), [C] overwrites [E] alone, later loops being kept.  When there
    is no comparable loop, [C] is appended. *)
Theorem whereLoopInsert_first_comparable
  (pre post : list Loop.WhereLoop) (e t : Loop.WhereLoop) :
  Forall (passedOver t) pre ->
  Loop.sameSlot e t = true ->
  (Forall (passedOver t) post ->
     Loop.whereLoopInsert (pre ++ post) t = pre ++ post ++ [Loop.stored t]) /\
  (Loop.noWorse e t = true ->
     Loop.whereLoopInsert (pre ++ e :: post) t =
       if Loop.usesMoreTerms e t then pre ++ Loop.stored t :: post
       else pre ++ e :: post) /\
  (Loop.noWorse e t = false -> Loop.templateNoWorse e t = true ->
     Loop.whereLoopInsert (pre ++ e :: post) t = pre ++ Loop.stored t :: post).
Proof.
  intros Hpre Hs. split; [|split].
  - intros Hpost. rewrite whereLoopInsert_app by exact Hpre. f_equal.
    rewrite <- (app_nil_r post) at 1.
    rewrite whereLoopInsert_app by exact Hpost. reflexivity.
  - intros Hn. rewrite whereLoopInsert_app by exact Hpre. simpl.
    rewrite Hs, Hn. simpl. destruct (Loop.usesMoreTerms e t); reflexivity.
  - intros Hn Ht. rewrite whereLoopInsert_app by exact Hpre. simpl.
    rewrite Hs, Hn, Ht. reflexivity.
Qed.

Lemma whereLoopInsert_first_comparable_witness :
  Loop.noWorse loopA loopT = false /\ Loop.templateNoWorse loopA loopT = true /\
  Loop.whereLoopInsert ([] ++ loopA :: [loopB]) loopT = [] ++ Loop.stored loopT :: [loopB].
Proof.
  split; [reflexivity|split; [reflexivity|]].
  apply (proj2 (proj2 (whereLoopInsert_first_comparable [] [loopB] loopA loopT
                         (Forall_nil _) eq_refl))); reflexivity.
Defined.

(* ------------------------------------------------------------------ *)
(** ** Join-order solver *)

Definition pathSat : Solver.WherePath := Solver.mkPath 3 0 0 100 true true [1].
Definition pathUnsat : Solver.WherePath := Solver.mkPath 3 0 0 50 true false [2].

(** C4 (counterexample): a path whose ORDER BY status is known to be
    unsatisfied ([isOrdered = 0]) replaces a cheaper-to-match path with the
    same [maskLoop] whose ORDER BY is satisfied: the merge key is
    [isOrderedValid], not the three-valued status. *)
Lemma mergePath_status_not_key :
  Solver.isOrdered pathSat <> Solver.isOrdered pathUnsat /\
  fst (Solver.mergePath 5 [pathSat] 0 pathUnsat) = [pathUnsat].
Proof. split; [discriminate|reflexivity]. Qed.

Section SolverFacts.
Import Solver.

Lemma findSame_some (l : list WherePath) (t : WherePath) (k j : nat) :
  findSame l t k = Some j ->
  (k <= j < k + List.length l)%nat /\ samePathKey (nth (j - k) l t) t = true.
Proof.
  revert k; induction l as [|p l IH]; intros k H; simpl in H; [discriminate|].
  destruct (samePathKey p t) eqn:Hp.
  - injection H as <-. simpl. rewrite Nat.sub_diag. split; [lia|exact Hp].
  - apply IH in H as [Hj Hn]. simpl. split; [lia|].
    replace (j - k)%nat with (S (j - S k)) by lia. exact Hn.
Qed.

Lemma findSame_none (l : list WherePath) (t : WherePath) (k : nat) :
  findSame l t k = None -> Forall (fun p => samePathKey p t = false) l.
Proof.
  revert k; induction l as [|p l IH]; intros k H; simpl in H; [constructor|].
  destruct (samePathKey p t) eqn:Hp; [discriminate|].
  constructor; [exact Hp|exact (IH _ H)].
Qed.

Lemma length_setNth (l : list WherePath) (i : nat) (x : WherePath) :
  List.length (setNth l i x) = List.length l.
Proof.
  revert i; induction l as [|y l IH]; intros [|i]; simpl; auto.
Qed.

Lemma fold_max_spec (rest : list WherePath) (m : Z) :
  let r := fold_left (fun m q => Z.max m (rCost q)) rest m in
  (r = m \/ exists q, In q rest /\ r = rCost q) /\ m <= r /\
  (forall q, In q rest -> rCost q <= r).
Proof.
  revert m; induction rest as [|p rest IH]; intros m; simpl.
  - split; [left; reflexivity|split; [lia|intros q []]].
  - destruct (IH (Z.max m (rCost p))) as [[Hr|[q [Hq Hr]]] [Hle Hall]].
    + split; [|split].
      * destruct (Z.max_spec m (rCost p)) as [[_ E]|[_ E]]; rewrite Hr, E;
          [right; exists p; auto|left; reflexivity].
      * lia.
      * intros q [<-|Hq]; [lia|apply Hall; exact Hq].
    + split; [right; exists q; auto|split; [lia|]].
      intros q' [<-|Hq']; [lia|apply Hall; exact Hq'].
Qed.

Lemma maxCost_spec (l : list WherePath) (d : WherePath) :
  l <> [] ->
  (exists k, (k < List.length l)%nat /\ rCost (nth k l d) = maxCost l) /\
  (forall k, (k < List.length l)%nat -> rCost (nth k l d) <= maxCost l).
Proof.
  destruct l as [|p rest]; [congruence|intros _]. unfold maxCost.
  destruct (fold_max_spec rest (rCost p)) as [[Hr|[q [Hq Hr]]] [Hle Hall]].
  - split; [exists O; simpl; split; [lia|symmetry; exact Hr]|].
    intros [|k] Hk; simpl; [lia|]. apply Hall, nth_In. simpl in Hk; lia.
  - split.
    + apply In_nth with (d := d) in Hq as [k [Hk Hn]].
      exists (S k). simpl. split; [lia|]. rewrite Hn. symmetry; exact Hr.
    + intros [|k] Hk; simpl; [lia|]. apply Hall, nth_In. simpl in Hk; lia.
Qed.

Lemma scanDown_found (l : list WherePath) (mx : Z) (n : nat) :
  (exists k, (k < n)%nat /\ mx <= rCost (nth k l (mkPath 0 0 0 0 false false []))) ->
  exists j, scanDown l mx n = Some j /\ (j < n)%nat /\
            mx <= rCost (nth j l (mkPath 0 0 0 0 false false [])).
Proof.
  induction n as [|n IH]; intros [k [Hk Hle]]; [lia|]. simpl.
  destruct (Z.ltb_spec (rCost (nth n l (mkPath 0 0 0 0 false false []))) mx) as [Hlt|Hge].
  - destruct IH as [j [Hj1 [Hj2 Hj3]]].
    + exists k. split; [|exact Hle]. destruct (Nat.eq_dec k n) as [->|]; [lia|lia].
    + exists j; auto.
  - exists n; auto.
Qed.

End SolverFacts.

(** C4 (amended): per generation at most [M] paths are retained, with
    [M = 1] for one table, 5 for two and 10 for three or more.  A new path
    [T] is matched with the first retained path [T'] having the same
    [maskLoop] and the same [isOrderedValid] flag (whether the ORDER BY
    status is known, so satisfied and unsatisfied paths compete, the cost of
    the latter including the sort), and replaces it iff [T.cost < T'.cost];
    with no such [T'], [T] is appended while fewer than [M] paths are
    retained, and otherwise replaces a retained path of maximum cost iff
    [T.cost] is below that maximum. *)
Theorem mergePath_policy (nLoop : Z) (aTo : list Solver.WherePath) (mxCost : Z)
  (t : Solver.WherePath) :
  let M := Solver.mxChoice nLoop in
  (List.length aTo <= M)%nat ->
  (List.length aTo = M -> mxCost = Solver.maxCost aTo) ->
  (M = 1%nat <-> nLoop = 1) /\ (M = 5%nat <-> nLoop = 2) /\
  (nLoop <> 1 -> nLoop <> 2 -> M = 10%nat) /\
  let '(aTo', mxCost') := Solver.mergePath M aTo mxCost t in
  (List.length aTo' <= M)%nat /\
  (List.length aTo' = M -> mxCost' = Solver.maxCost aTo') /\
  (forall jj, Solver.findSame aTo t 0 = Some jj ->
     (jj < List.length aTo)%nat /\ Solver.samePathKey (nth jj aTo t) t = true /\
     aTo' = if Solver.rCost t <? Solver.rCost (nth jj aTo t)
            then Solver.setNth aTo jj t else aTo) /\
  (Solver.findSame aTo t 0 = None ->
     Forall (fun p => Solver.samePathKey p t = false) aTo /\
     ((List.length aTo < M)%nat -> aTo' = aTo ++ [t]) /\
     (List.length aTo = M ->
        if Solver.rCost t <? mxCost
        then exists jj, (jj < M)%nat /\ Solver.rCost (nth jj aTo t) = mxCost /\
                        aTo' = Solver.setNth aTo jj t
        else aTo' = aTo)).
Proof.
  intros M Hlen Hmx.
  assert (HM1 : (1 <= M)%nat) by (unfold M, Solver.mxChoice;
    destruct (nLoop =? 1), (nLoop =? 2); lia).
  split; [|split; [|split]].
  - unfold M, Solver.mxChoice. destruct (Z.eqb_spec nLoop 1), (Z.eqb_spec nLoop 2); split; intros; lia.
  - unfold M, Solver.mxChoice. destruct (Z.eqb_spec nLoop 1), (Z.eqb_spec nLoop 2); split; intros; lia.
  - unfold M, Solver.mxChoice. intros H1 H2.
    destruct (Z.eqb_spec nLoop 1), (Z.eqb_spec nLoop 2); [lia|lia|lia|reflexivity].
  - clearbody M. unfold Solver.mergePath.
    destruct (Solver.findSame aTo t 0) as [jj|] eqn:Hf.
    + destruct (findSame_some _ _ _ _ Hf) as [Hj Hk]. rewrite Nat.sub_0_r in Hk.
      assert (Hst : Solver.storePath M aTo mxCost jj t =
                    (Solver.setNth aTo jj t,
                     if Nat.leb M (List.length aTo) then Solver.maxCost (Solver.setNth aTo jj t)
                     else mxCost)).
      { unfold Solver.storePath. replace (Nat.eqb jj (List.length aTo)) with false
          by (symmetry; apply Nat.eqb_neq; lia).
        rewrite length_setNth. reflexivity. }
      destruct (Z.leb_spec (Solver.rCost (nth jj aTo t)) (Solver.rCost t)).
      * split; [lia|split; [exact Hmx|split; [|intros; discriminate]]].
        intros jj' Hjj'. injection Hjj' as <-. split; [lia|split; [exact Hk|]].
        destruct (Z.ltb_spec (Solver.rCost t) (Solver.rCost (nth jj aTo t))); [lia|reflexivity].
      * rewrite Hst. split; [rewrite length_setNth; lia|split].
        -- rewrite length_setNth. intros HL. rewrite HL, Nat.leb_refl. reflexivity.
        -- split; [|intros; discriminate].
           intros jj' Hjj'. injection Hjj' as <-. split; [lia|split; [exact Hk|]].
           destruct (Z.ltb_spec (Solver.rCost t) (Solver.rCost (nth jj aTo t))); [reflexivity|lia].
    + pose proof (findSame_none _ _ _ Hf) as Hall.
      destruct (Nat.leb_spec M (List.length aTo)) as [HML|HML].
      * assert (HL : List.length aTo = M) by lia.
        assert (Hne : aTo <> []) by (intros ->; simpl in HL; lia).
        specialize (Hmx HL).
        destruct (Z.leb_spec mxCost (Solver.rCost t)) as [Hge|Hlt]; simpl.
        -- split; [lia|split; [intros; exact Hmx|split; [intros; discriminate|]]].
           intros _. split; [exact Hall|split; [lia|]].
           intros _. destruct (Z.ltb_spec (Solver.rCost t) mxCost); [lia|reflexivity].
        -- replace (Nat.ltb (List.length aTo) M) with false by (symmetry; apply Nat.ltb_ge; lia).
           destruct (maxCost_spec aTo (Solver.mkPath 0 0 0 0 false false []) Hne)
             as [[k [Hk Hkm]] Hub].
           destruct (scanDown_found aTo mxCost (List.length aTo)) as [j [Hs [Hj Hjc]]].
           { exists k; split; [exact Hk|lia]. }
           rewrite Hs. unfold Solver.storePath.
           replace (Nat.eqb j (List.length aTo)) with false by (symmetry; apply Nat.eqb_neq; lia).
           rewrite length_setNth, HL, Nat.leb_refl.
           split; [lia|split; [reflexivity|split; [intros; discriminate|]]].
           intros _. split; [exact Hall|split; [lia|]].
           intros _. destruct (Z.ltb_spec (Solver.rCost t) mxCost); [|lia].
           exists j. split; [lia|split; [|reflexivity]].
           specialize (Hub j Hj).
           rewrite (nth_indep aTo t (Solver.mkPath 0 0 0 0 false false [])) by exact Hj. lia.
      * replace (Nat.leb M (List.length aTo)) with false by (symmetry; apply Nat.leb_gt; lia).
        simpl. replace (Nat.ltb (List.length aTo) M) with true by (symmetry; apply Nat.ltb_lt; lia).
        unfold Solver.storePath. rewrite Nat.eqb_refl, length_app. simpl.
        split; [lia|split].
        -- intros HL. replace (Nat.leb M (List.length aTo + 1)) with true
             by (symmetry; apply Nat.leb_le; lia). reflexivity.
        -- split; [intros; discriminate|]. intros _. split; [exact Hall|split; [reflexivity|lia]].
Qed.

Lemma mergePath_policy_witness :
  let '(aTo', _) := Solver.mergePath (Solver.mxChoice 3) [pathSat] 0 pathUnsat in
  aTo' = if Solver.rCost pathUnsat <? Solver.rCost (nth 0 [pathSat] pathUnsat)
         then Solver.setNth [pathSat] 0 pathUnsat else [pathSat].
Proof.
  destruct (mergePath_policy 3 [pathSat] 0 pathUnsat) as [_ [_ [_ H]]].
  - vm_compute; lia.
  - vm_compute; discriminate.
  - destruct (Solver.mergePath (Solver.mxChoice 3) [pathSat] 0 pathUnsat) as [aTo' m].
    destruct H as [_ [_ [H _]]]. apply (H 0%nat). reflexivity.
Defined.

(* ------------------------------------------------------------------ *)
(** ** Transitive-equality scan *)

Section ScanFacts.
Import Term Scan.

Variable indexAffinityOk : Expr -> Z -> bool.
Variable collMatches : Expr -> string -> bool.

(** The invariant of the [aEquiv] array. *)
Definition equivInv (ch : list WhereClause) (start : Z * Z) (l : list (Z * Z)) : Prop :=
  (List.length l <= 11)%nat /\
  forall i p, nth_error l i = Some p -> exists n, (n <= i)%nat /\ reach ch start n p.

Lemma addEquiv_inv (s : WhereScan) (start p : Z * Z) (t : WhereTerm) :
  equivInv (chain s) start (aEquiv s) ->
  nth_error (aEquiv s) (ieq s) = Some p ->
  inChain (chain s) t -> (leftCursor t, leftColumn t) = p ->
  equivInv (chain s) start (addEquiv s t).
Proof.
  intros [Hlen Hall] Hp Ht Hlhs. unfold addEquiv.
  destruct (hasBits (eOperator t) WO_EQUIV) eqn:Heq; [|split; assumption].
  destruct (Nat.ltb_spec (2 * List.length (aEquiv s)) aEquivSlots) as [Hsl|];
    [|split; assumption].
  destruct (columnOf (rightOf (pExpr t))) as [q|] eqn:Hq; [|split; assumption].
  destruct (existsb _ _); [split; assumption|].
  unfold aEquivSlots in Hsl. simpl. unfold equivInv. split; [rewrite length_app; simpl; lia|].
  intros i r Hr.
  destruct (Nat.ltb_spec i (List.length (aEquiv s))) as [Hi|Hi].
  - rewrite nth_error_app1 in Hr by exact Hi. apply Hall; exact Hr.
  - rewrite nth_error_app2 in Hr by exact Hi.
    destruct (i - List.length (aEquiv s))%nat as [|m] eqn:Hm; simpl in Hr;
      [|destruct m; discriminate].
    injection Hr as <-.
    assert (Hieq : (ieq s < List.length (aEquiv s))%nat)
      by (apply nth_error_Some; congruence).
    destruct (Hall _ _ Hp) as [n [Hn Hreach]].
    exists (S n). split; [lia|].
    eapply reach_step; eauto.
Qed.

Lemma scanStep_inv (s : WhereScan) (start : Z * Z) :
  equivInv (chain s) start (aEquiv s) ->
  match scanStep indexAffinityOk collMatches s with
  | Done => True
  | Continue s' => chain s' = chain s /\ opMask s' = opMask s /\
                   equivInv (chain s) start (aEquiv s')
  | Found t s' => chain s' = chain s /\ opMask s' = opMask s /\
                  equivInv (chain s) start (aEquiv s') /\
                  inChain (chain s) t /\ hasBits (eOperator t) (opMask s) = true /\
                  exists n, (n <= 10)%nat /\ reach (chain s) start n (leftCursor t, leftColumn t)
  end.
Proof.
  intros Hinv. unfold scanStep.
  destruct (nth_error (aEquiv s) (ieq s)) as [[iCur iColumn]|] eqn:E1; [|exact I].
  destruct (nth_error (chain s) (wc s)) as [clause|] eqn:E2;
    [|simpl; auto].
  destruct (nth_error (a clause) (k s)) as [t|] eqn:E3; [|simpl; auto].
  assert (Hin : inChain (chain s) t)
    by (exists clause; split; eapply nth_error_In; eauto).
  destruct ((leftCursor t =? iCur) && (leftColumn t =? iColumn)) eqn:E4;
    [|simpl; auto].
  apply andb_prop in E4 as [E4a E4b]. apply Z.eqb_eq in E4a, E4b.
  assert (Hadd : equivInv (chain s) start (addEquiv s t))
    by (eapply addEquiv_inv; eauto; rewrite E4a, E4b; reflexivity).
  destruct (accepts _ _ _ t) eqn:Hacc; simpl; [|auto].
  split; [reflexivity|split; [reflexivity|split; [exact Hadd|split; [exact Hin|]]]].
  unfold accepts in Hacc. simpl in Hacc.
  apply andb_prop in Hacc as [Hacc _]. apply andb_prop in Hacc as [Hop _].
  split; [exact Hop|].
  destruct Hinv as [Hlen Hall].
  destruct (Hall _ _ E1) as [n [Hn Hr]].
  assert (Hieq : (ieq s < List.length (aEquiv s))%nat)
    by (apply nth_error_Some; congruence).
  exists n. split; [lia|]. rewrite E4a, E4b. exact Hr.
Qed.

Lemma scanRun_inv (fuel : nat) (s : WhereScan) (start : Z * Z) :
  equivInv (chain s) start (aEquiv s) ->
  let '(ts, sN) := scanRun indexAffinityOk collMatches fuel s in
  equivInv (chain s) start (aEquiv sN) /\
  forall t, In t ts ->
    inChain (chain s) t /\ hasBits (eOperator t) (opMask s) = true /\
    exists n, (n <= 10)%nat /\ reach (chain s) start n (leftCursor t, leftColumn t).
Proof.
  revert s; induction fuel as [|f IH]; intros s Hinv; simpl.
  - split; [exact Hinv|intros t []].
  - pose proof (scanStep_inv s start Hinv) as Hs.
    destruct (scanStep indexAffinityOk collMatches s) as [|s'|t s'].
    + split; [exact Hinv|intros t []].
    + destruct Hs as [Hc [Ho Hi]]. rewrite <- Hc in Hi.
      specialize (IH s' Hi). destruct (scanRun _ _ f s') as [ts sN].
      rewrite Hc, Ho in IH. exact IH.
    + destruct Hs as [Hc [Ho [Hi Ht]]]. rewrite <- Hc in Hi.
      specialize (IH s' Hi). destruct (scanRun _ _ f s') as [ts sN].
      rewrite Hc, Ho in IH. destruct IH as [IH1 IH2].
      split; [exact IH1|]. intros t' [<-|Ht']; [exact Ht|apply IH2; exact Ht'].
Qed.

End ScanFacts.

(** C8: the equivalence array of the scan holds at most 11 (cursor, column)
    pairs (22 slots): every term the scan returns has an accepted operator
    and a left-hand side reachable from the starting pair through at most 10
    [WO_EQUIV] equalities of the scanned clauses, and once the array is full
    an equivalence met on the way is not recorded. *)
Theorem whereScan_equiv_cap
  (indexAffinityOk : Term.Expr -> Z -> bool) (collMatches : Term.Expr -> string -> bool)
  (ch : list Term.WhereClause) (iCur iColumn opMask : Z) (zColl : option string)
  (aff : Z) (fuel : nat) :
  let s0 := Scan.whereScanInit ch iCur iColumn opMask zColl aff in
  let '(ts, sN) := Scan.scanRun indexAffinityOk collMatches fuel s0 in
  (List.length (Scan.aEquiv sN) <= 11)%nat /\
  (forall t, In t ts ->
     Scan.inChain ch t /\ Term.hasBits (Term.eOperator t) opMask = true /\
     exists n, (n <= 10)%nat /\ Scan.reach ch (iCur, iColumn) n (Term.leftCursor t, Term.leftColumn t)) /\
  (forall s t, List.length (Scan.aEquiv s) = 11%nat -> Scan.addEquiv s t = Scan.aEquiv s).
Proof.
  intros s0.
  assert (H0 : equivInv ch (iCur, iColumn) (Scan.aEquiv s0)).
  { split; [simpl; lia|].
    intros [|i] p Hp; simpl in Hp; [|destruct i; discriminate].
    injection Hp as <-. exists O. split; [lia|constructor]. }
  pose proof (scanRun_inv indexAffinityOk collMatches fuel s0 (iCur, iColumn) H0) as H.
  destruct (Scan.scanRun indexAffinityOk collMatches fuel s0) as [ts sN].
  destruct H as [[Hlen _] Hts]. split; [exact Hlen|split; [exact Hts|]].
  intros s t Hfull. unfold Scan.addEquiv, Scan.aEquivSlots.
  rewrite Hfull. simpl. rewrite andb_false_r. reflexivity.
Qed.

(** The scan follows [A.x = B.y] to return [B.y = 5] when looking for [A.x]. *)
Example whereScan_follows_equiv :
  let tEq := Term.mkTerm (Term.EBin Term.TK_EQ (Term.EColumn 1 0 0) (Term.EColumn 2 3 0))
               (-1) 1 0 (Z.lor Term.WO_EQ Term.WO_EQUIV) 0 0 0 0 in
  let tConst := Term.mkTerm (Term.EBin Term.TK_EQ (Term.EColumn 2 3 0) (Term.EConst 0 5))
               (-1) 2 3 Term.WO_EQ 0 0 0 0 in
  fst (Scan.scanRun (fun _ _ => true) (fun _ _ => true) 50
         (Scan.whereScanInit [Term.mkWC Term.TK_AND [tEq; tConst]] 1 0 Term.WO_EQ None 0))
  = [tEq; tConst].
Proof. reflexivity. Qed.

(* ------------------------------------------------------------------ *)
(** ** LIKE/GLOB prefix rewrite *)

Section LikeFacts.
Import Like.

(** A LIKE 'A%' on a TEXT column of an ordinary table, with the default
    LIKE wildcards. *)
Definition likeUpperA : LikeExpr :=
  mkLike (Some (true, (37, 95, 91))) true SQLITE4_AFF_TEXT false (RString [65; 37]).

Lemma prefixLen_app (wc : Z * Z * Z) (p rest : list Z) :
  Forall (fun c => 0 < c <= 255 /\ isWild wc c = false) p ->
  (rest = [] \/ exists c r, rest = c :: r /\ (c = 0 \/ isWild wc c = true)) ->
  prefixLen (p ++ rest) wc = List.length p.
Proof.
  intros Hp Hr. induction Hp as [|c p [Hc Hw] _ IH]; simpl.
  - destruct Hr as [-> | (c & r & -> & [-> | Hw])]; simpl; auto.
    rewrite Hw, orb_true_r. reflexivity.
  - rewrite Hw, orb_false_r. destruct (Z.eqb_spec c 0); [lia|]. simpl. now rewrite IH.
Qed.

Lemma nth_pred_length_last (p rest : list Z) :
  p <> [] -> nth (List.length p - 1) (p ++ rest) 0 = last p 0.
Proof.
  intros Hp. rewrite (app_removelast_last 0 Hp).
  rewrite last_last, <- app_assoc, length_app. simpl.
  rewrite app_nth2 by lia.
  replace (List.length (removelast p) + 1 - 1 - List.length (removelast p))%nat with O by lia.
  reflexivity.
Qed.

Lemma Forall_last (P : Z -> Prop) (p : list Z) :
  p <> [] -> Forall P p -> P (last p 0).
Proof.
  intros Hp HF. rewrite (app_removelast_last 0 Hp) in HF.
  apply Forall_app in HF. destruct HF as [_ HF]. now inversion HF.
Qed.

Lemma upperToLower_byte (c : Z) :
  0 < c <= 254 -> 0 < sqlite4UpperToLower c <= 254.
Proof.
  unfold sqlite4UpperToLower. intros H.
  destruct (65 <=? c) eqn:E1, (c <=? 90) eqn:E2; simpl;
    rewrite ?Z.leb_le, ?Z.leb_gt in *; lia.
Qed.

End LikeFacts.

(** Claim C6 (counterexample).  For a case-insensitive LIKE the upper bound
    is not the prefix with its last byte incremented: LIKE 'A%' gives the
    bounds x >= 'A' and x < 'b' (byte 98) under NOCASE, not x < 'B'
    (byte 66), because the last byte is first folded to lower case. *)
Lemma likeRewrite_nocase_folds_last_byte :
  Like.likeRewrite Term.TK_AND likeUpperA =
    Some ([Like.mkRange Term.TK_GE "NOCASE" [65];
           Like.mkRange Term.TK_LT "NOCASE" [98]], true)
  /\ [98] <> removelast [65] ++ [65 + 1].
Proof.
  split.
  - vm_compute. reflexivity.
  - simpl. congruence.
Qed.

(** Claim C6 (amended).  Let the LIKE/GLOB call be recognised, its left side
    a TEXT-affinity column of a non-virtual table, and its pattern [z] a
    string literal or a parameter bound to text.  Write [z = p ++ rest] with
    [p] the bytes before the first wildcard (or the end).  In the top-level
    AND, if [p] is non-empty and its last byte [c] is not 0xFF, the analyser
    appends exactly the two terms x >= p and x < p', both under NOCASE for
    LIKE and BINARY for GLOB, where [p'] is [p] with [c] replaced by [c + 1]
    for a case-sensitive match and by [sqlite4UpperToLower[c] + 1] for a
    case-insensitive one.  If [p] is empty or [c] is 0xFF nothing is
    appended. *)
Theorem likeRewrite_prefix_bounds (e : Like.LikeExpr) (noCase : bool)
    (wc : Z * Z * Z) (z p rest : list Z) :
  Like.likeFn e = Some (noCase, wc) ->
  Like.lhsIsColumn e = true ->
  Like.lhsAff e = Like.SQLITE4_AFF_TEXT ->
  Like.lhsVirtual e = false ->
  (Like.rhs e = Like.RString z \/ Like.rhs e = Like.RVariable (Some z)) ->
  z = p ++ rest ->
  Forall (fun c => 0 < c <= 255 /\ Like.isWild wc c = false) p ->
  (rest = [] \/ exists c r, rest = c :: r /\ (c = 0 \/ Like.isWild wc c = true)) ->
  let coll := if noCase then "NOCASE"%string else "BINARY"%string in
  let c := last p 0 in
  let c' := if noCase then Like.sqlite4UpperToLower c else c in
  (p <> [] -> c <> 255 ->
     exists isComplete,
       Like.likeRewrite Term.TK_AND e =
         Some ([Like.mkRange Term.TK_GE coll p;
                Like.mkRange Term.TK_LT coll (removelast p ++ [c' + 1])],
               isComplete))
  /\ (p = [] \/ c = 255 -> Like.likeRewrite Term.TK_AND e = None).
Proof.
  intros Hfn Hcol Haff Hvirt Hrhs Hz Hp Hrest coll c c'.
  assert (Hlen : Like.prefixLen z wc = List.length p)
    by (subst z; apply prefixLen_app; assumption).
  assert (Hisl : Like.isLikeOrGlob e =
    let cnt := List.length p in
    let '(w0, _, _) := wc in
    if negb (Nat.eqb cnt 0) && negb (Like.zAt z (cnt - 1) =? 255) then
      Some (firstn cnt z, (Like.zAt z cnt =? w0) && (Like.zAt z (S cnt) =? 0), noCase)
    else None).
  { unfold Like.isLikeOrGlob. rewrite Hfn, Hcol, Haff, Hvirt, Z.eqb_refl. simpl.
    destruct Hrhs as [H | H]; rewrite H, Hlen; reflexivity. }
  destruct wc as [[w0 w1] w2]. simpl in Hisl.
  unfold Like.likeRewrite. simpl Term.tk_eqb. cbv iota. rewrite Hisl.
  split.
  - intros Hne Hc.
    assert (HcR : 0 < c <= 255) by (apply (Forall_last (fun c => 0 < c <= 255)); auto;
      eapply Forall_impl; [|exact Hp]; simpl; tauto).
    assert (Hz1 : Like.zAt z (List.length p - 1) = c)
      by (subst z; apply nth_pred_length_last; auto).
    assert (Hlen0 : Nat.eqb (List.length p) 0 = false)
      by (destruct p; [congruence | reflexivity]).
    rewrite Hlen0, Hz1. destruct (Z.eqb_spec c 255); [contradiction|]. simpl.
    assert (Hf : firstn (List.length p) z = p)
      by (subst z; rewrite firstn_app, Nat.sub_diag, firstn_all; simpl; apply app_nil_r).
    rewrite Hf. eexists. f_equal. f_equal. f_equal. f_equal. f_equal.
    f_equal. f_equal. fold c. fold c'.
    assert (0 < c' <= 254)
      by (unfold c'; destruct noCase; [apply upperToLower_byte|]; lia).
    apply Z.mod_small. lia.
  - intros [-> | Hc].
    + simpl. reflexivity.
    + destruct (Nat.eqb (List.length p) 0) eqn:E; [reflexivity|].
      assert (Hne : p <> []) by (destruct p; discriminate).
      assert (Hz1 : Like.zAt z (List.length p - 1) = c)
        by (subst z; apply nth_pred_length_last; auto).
      rewrite Hz1, Hc. reflexivity.
Qed.

Lemma likeRewrite_prefix_bounds_witness :
  (Like.likeFn (Like.mkLike (Some (false, (42, 63, 91))) true Like.SQLITE4_AFF_TEXT false
                  (Like.RString [97; 98; 42])) = Some (false, (42, 63, 91)))
  /\ exists isComplete,
       Like.likeRewrite Term.TK_AND
         (Like.mkLike (Some (false, (42, 63, 91))) true Like.SQLITE4_AFF_TEXT false
            (Like.RString [97; 98; 42])) =
       Some ([Like.mkRange Term.TK_GE "BINARY" [97; 98];
              Like.mkRange Term.TK_LT "BINARY" (removelast [97; 98] ++ [98 + 1])],
             isComplete).
Proof.
  split; [reflexivity|].
  apply (proj1 (likeRewrite_prefix_bounds
    (Like.mkLike (Some (false, (42, 63, 91))) true Like.SQLITE4_AFF_TEXT false
       (Like.RString [97; 98; 42]))
    false (42, 63, 91) [97; 98; 42] [97; 98] [42]
    eq_refl eq_refl eq_refl eq_refl (or_introl eq_refl) eq_refl
    ltac:(repeat constructor; vm_compute; congruence)
    ltac:(right; exists 42, []; split; [reflexivity | right; reflexivity]))).
  - discriminate.
  - simpl. discriminate.
Defined.

(* ------------------------------------------------------------------ *)
(** ** OR-term analysis: the OR-to-IN rewrite *)

Section OrInFacts.
Import Term MaskSet OrIn.

Lemma length_setAt (l : list WhereTerm) i x : List.length (setAt l i x) = List.length l.
Proof. revert i; induction l; intros [|i]; simpl; auto. Qed.

Lemma nth_setAt_eq (l : list WhereTerm) i x d :
  (i < List.length l)%nat -> nth i (setAt l i x) d = x.
Proof. revert i; induction l; intros [|i] H; simpl in *; try lia; auto. apply IHl; lia. Qed.

Lemma nth_setAt_neq (l : list WhereTerm) i j x d :
  j <> i -> nth j (setAt l i x) d = nth j l d.
Proof.
  revert i j; induction l; intros [|i] [|j] H; simpl; auto; try congruence.
Qed.

Lemma setAt_app_l (l1 l2 : list WhereTerm) i x :
  (i < List.length l1)%nat -> setAt (l1 ++ l2) i x = setAt l1 i x ++ l2.
Proof. revert i; induction l1; intros [|i] H; simpl in *; try lia; auto. f_equal. apply IHl1; lia. Qed.

Variables (ms : WhereMaskSet) (transitive : bool) (exprAffinity : Expr -> Z).
Variables (T C aff : Z).

Let mT := getMask ms T.
Definition eqT (x : Expr) : Expr := EBin TK_EQ (EColumn T C aff) x.

(** An analysed sub-term [T.C = x]. *)
Definition origP (x : Expr) (t : WhereTerm) : Prop :=
  pExpr t = eqT x /\ leftCursor t = T /\ leftColumn t = C
  /\ Z.land (eOperator t) WO_SINGLE <> 0 /\ Z.land (eOperator t) WO_EQ <> 0
  /\ hasBits (wtFlags t) TERM_VIRTUAL = false.

(** The commuted copy of the sub-term at [p]. *)
Definition copyP (p : nat) (t : WhereTerm) : Prop :=
  iParent t = Z.of_nat p /\ hasBits (wtFlags t) TERM_COPIED = false
  /\ hasBits (wtFlags t) TERM_VIRTUAL = true
  /\ Z.land (eOperator t) WO_SINGLE <> 0 /\ Z.land (eOperator t) WO_EQ <> 0
  /\ leftCursor t <> T /\ hasBits (wtFlags t) TERM_OR_OK = false.

Hypothesis HT : 0 <= T.
Hypothesis HmT : mT <> 0.

Lemma analyze_eq_subterm (ana : WhereClause -> nat -> WhereClause) (wc : WhereClause)
    (i : nat) (x : Expr) :
  (i < List.length (a wc))%nat ->
  nth i (a wc) dfltTerm = freshTerm (eqT x) ->
  Z.land (exprTableUsage ms x) mT = 0 ->
  exists t' cs,
    exprAnalyzeStep ms transitive exprAffinity ana wc i = mkWC (wcOp wc) (setAt (a wc) i t' ++ cs)
    /\ origP x t' /\ Forall (copyP i) cs /\ (List.length cs <= 1)%nat.
Proof.
  intros Hi Ht Hx. unfold exprAnalyzeStep, termAt. rewrite Ht. cbn -[Z.land Z.lor Z.add].
  fold mT. rewrite Hx, Z.eqb_refl.
  destruct x as [U D aU | ? ? | ? ? ? | ? ?]; cbn -[Z.land Z.lor Z.add].
  2-4: eexists _, []; split; [rewrite app_nil_r; reflexivity|];
    split; [|split; [constructor | simpl; lia]];
    unfold origP; repeat split; vm_compute; congruence.
  destruct (0 <=? T) eqn:E; [|apply Z.leb_gt in E; lia].
  eexists _, [_]. split; [reflexivity|].
  assert (HU : U <> T).
  { intros ->. simpl in Hx. fold mT in Hx. rewrite Z.land_diag in Hx. contradiction. }
  split; [|split; [constructor; [|constructor] | simpl; lia]].
  - unfold origP; repeat split; try (destruct transitive; vm_compute; congruence).
  - unfold copyP; repeat split; try (destruct transitive; vm_compute; congruence); auto.
Qed.


Lemma setAt_middle (l1 l2 : list WhereTerm) (y x : WhereTerm) :
  setAt (l1 ++ y :: l2) (List.length l1) x = l1 ++ x :: l2.
Proof. induction l1; simpl; congruence. Qed.

Lemma nth_middle' (l1 l2 : list WhereTerm) (y d : WhereTerm) :
  nth (List.length l1) (l1 ++ y :: l2) d = y.
Proof. induction l1; simpl; auto. Qed.

Definition copyAny (n : nat) (t : WhereTerm) : Prop := exists p, (p < n)%nat /\ copyP p t.

Lemma analyzeDown_eqs (ana : WhereClause -> nat -> WhereClause) (n : nat) :
  (forall W i x, (i < List.length (a W))%nat -> nth i (a W) dfltTerm = freshTerm (eqT x) ->
     Z.land (exprTableUsage ms x) mT = 0 ->
     exists t' cs, ana W i = mkWC (wcOp W) (setAt (a W) i t' ++ cs)
       /\ origP x t' /\ Forall (copyP i) cs /\ (List.length cs <= 1)%nat) ->
  forall k W pre post L1 L2,
    a W = map (fun x => freshTerm (eqT x)) pre ++ L1 ++ L2 ->
    List.length pre = k -> (k + List.length post)%nat = n ->
    Forall2 origP post L1 -> Forall (copyAny n) L2 ->
    Forall (fun x => Z.land (exprTableUsage ms x) mT = 0) pre ->
    exists L1' L2', a (analyzeDown ana W k) = L1' ++ L2'
      /\ Forall2 origP (pre ++ post) L1' /\ Forall (copyAny n) L2'.
Proof.
  intros Hana k. induction k as [|k IH]; intros W pre post L1 L2 HW Hk Hn H1 H2 Hpre.
  - destruct pre; [|discriminate]. simpl in *. eauto.
  - destruct (exists_last (l := pre)) as [pre' [x Hx]]; [intros ->; discriminate|].
    subst pre. rewrite length_app in Hk. simpl in Hk.
    apply Forall_app in Hpre. destruct Hpre as [Hpre' Hxx].
    apply Forall_cons_iff in Hxx. destruct Hxx as [Hx0 _].
    rewrite map_app in HW. simpl in HW. rewrite <- app_assoc in HW. simpl in HW.
    assert (Hlen : List.length (map (fun x => freshTerm (eqT x)) pre') = k)
      by (rewrite length_map; lia).
    destruct (Hana W k x) as (t' & cs & Ha & Ho & Hc & _); auto.
    + rewrite HW, length_app. simpl. lia.
    + rewrite HW, <- Hlen. apply nth_middle'.
    + simpl. rewrite Ha.
      destruct (IH (mkWC (wcOp W) (setAt (a W) k t' ++ cs)) pre' (x :: post) (t' :: L1) (L2 ++ cs))
        as (L1' & L2' & HA & HF1 & HF2).
      * simpl. rewrite HW, <- Hlen, setAt_middle. rewrite <- !app_assoc. simpl. rewrite <- ?app_assoc. reflexivity.
      * rewrite length_map in Hlen. exact Hlen.
      * simpl. lia.
      * constructor; assumption.
      * apply Forall_app. split; auto. eapply Forall_impl; [|exact Hc].
        intros t Ht. exists k. split; [lia|exact Ht].
      * exact Hpre'.
      * exists L1', L2'. rewrite <- app_assoc. auto.
Qed.


Lemma land_lor_absorb (x m : Z) : Z.land (Z.lor x m) m = m.
Proof.
  apply Z.bits_inj'. intros k _. rewrite Z.land_spec, Z.lor_spec.
  destruct (Z.testbit x k), (Z.testbit m k); reflexivity.
Qed.

Lemma land_keep (x y m : Z) :
  Z.land x m = m -> Z.land y m = m -> Z.land (Z.land x y) m = m.
Proof.
  intros Hx Hy. rewrite <- Z.land_assoc, Hy. exact Hx.
Qed.

(** What the first loop of [exprAnalyzeOrTerm] needs of a sub-term. *)
Definition scanOk (full : list WhereTerm) (t : WhereTerm) : Prop :=
  Z.land (eOperator t) WO_SINGLE <> 0 /\ Z.land (eOperator t) WO_EQ <> 0
  /\ ((leftCursor t = T /\ hasBits (wtFlags t) TERM_VIRTUAL = false)
      \/ (hasBits (wtFlags t) TERM_VIRTUAL = true
          /\ leftCursor (nth (Z.to_nat (iParent t)) full dfltTerm) = T)).

Lemma orScan_keeps_T (andMask : WhereTerm -> Z) (full ts : list WhereTerm) (ind chng : Z) :
  Forall (scanOk full) ts -> Z.land ind mT = mT -> Z.land chng mT = mT ->
  Z.land (snd (orScan ms andMask full ts ind chng)) mT = mT.
Proof.
  intros HF. revert ind chng. induction HF as [|t ts [Hs [He Hk]] _ IH]; intros ind chng Hi Hc;
    simpl; auto.
  destruct (Z.eqb_spec ind 0) as [->|_]; [rewrite Z.land_0_l in Hi; congruence|].
  destruct (Z.eqb_spec (Z.land (eOperator t) WO_SINGLE) 0); [contradiction|].
  destruct (hasBits (wtFlags t) TERM_COPIED); [auto|].
  destruct (Z.eqb_spec (Z.land (eOperator t) WO_EQ) 0); [contradiction|].
  assert (Hb : Z.land (Z.lor (getMask ms (leftCursor t))
             (if hasBits (wtFlags t) TERM_VIRTUAL
              then getMask ms (leftCursor (nth (Z.to_nat (iParent t)) full dfltTerm))
              else 0)) mT = mT).
  { destruct Hk as [[-> ->] | [-> ->]].
    - rewrite Z.lor_0_r. apply Z.land_diag.
    - apply land_lor_absorb. }
  apply IH; apply land_keep; auto.
Qed.


Definition origQ (x : Expr) (t : WhereTerm) : Prop :=
  pExpr t = eqT x /\ leftCursor t = T /\ leftColumn t = C.

Definition okify (t : WhereTerm) : WhereTerm :=
  if leftCursor t =? T then setOk t else clearOk t.

Definition affBad (t : WhereTerm) : bool :=
  let affRight := match pRightOf (pExpr t) with Some e => exprAffinity e | None => 0 end in
  let affLeft := match pLeftOf (pExpr t) with Some e => exprAffinity e | None => 0 end in
  negb (affRight =? 0) && negb (affRight =? affLeft).

Lemma phase2_all (ts : list WhereTerm) :
  Forall (fun t => leftCursor t = T -> leftColumn t = C /\ affBad t = false) ts ->
  phase2 exprAffinity T C ts = (true, map okify ts).
Proof.
  induction 1 as [|t ts Ht _ IH]; simpl; auto.
  unfold okify. destruct (Z.eqb_spec (leftCursor t) T) as [E|E]; simpl.
  - destruct (Ht E) as [Hc Ha]. rewrite Hc, Z.eqb_refl. simpl.
    unfold affBad in Ha. rewrite Ha, IH. reflexivity.
  - rewrite IH. reflexivity.
Qed.

Lemma chooseIn_first (t0 : WhereTerm) (rest : list WhereTerm) (chng : Z) :
  leftCursor t0 = T -> leftColumn t0 = C -> Z.land chng mT = mT ->
  Forall (fun t => leftCursor t = T -> leftColumn t = C /\ affBad t = false) (t0 :: rest) ->
  chooseIn ms exprAffinity chng (t0 :: rest) = Some (map okify (clearOk t0 :: rest)).
Proof.
  intros Hl Hc Hch HF.
  assert (H1 : phase1 ms chng (-1) (t0 :: rest) = ([], Some (T, C, clearOk t0 :: rest))).
  { simpl. rewrite Hl, Hc. fold mT. destruct (Z.eqb_spec T (-1)); [lia|].
    rewrite Hch. destruct (Z.eqb_spec mT 0); [contradiction|]. reflexivity. }
  unfold chooseIn, jPass. rewrite H1, phase2_all; [reflexivity|].
  inversion HF; subst. constructor; auto.
Qed.

Definition inStep (acc : list Expr * option Expr) (t : WhereTerm) : list Expr * option Expr :=
  if hasBits (wtFlags t) TERM_OR_OK then
    (fst acc ++ match pRightOf (pExpr t) with Some r => [r] | None => [] end,
     pLeftOf (pExpr t))
  else acc.

Lemma hasBits_setOk (f : Z) : hasBits (Z.lor f TERM_OR_OK) TERM_OR_OK = true.
Proof. unfold hasBits. rewrite land_lor_absorb. reflexivity. Qed.

Lemma hasBits_clearOk (f : Z) :
  hasBits (Z.land f (Z.lnot TERM_OR_OK)) TERM_OR_OK = false.
Proof.
  unfold hasBits. rewrite <- Z.land_assoc, (Z.land_comm (Z.lnot _)), Z.land_lnot_diag,
    Z.land_0_r. reflexivity.
Qed.

Lemma inStep_orig (L : list WhereTerm) (xs : list Expr) (acc : list Expr * option Expr) :
  Forall2 origQ xs L ->
  fold_left inStep (map okify L) acc
    = (fst acc ++ xs, match xs with [] => snd acc | _ => Some (EColumn T C aff) end).
Proof.
  intros H. revert acc. induction H as [|x t xs L [He [Hl Hc]] _ IH]; intros acc; simpl.
  - rewrite app_nil_r. destruct acc; reflexivity.
  - unfold okify at 2. rewrite Hl, Z.eqb_refl. unfold inStep at 2. simpl.
    rewrite hasBits_setOk, He. simpl. rewrite IH. simpl. rewrite <- app_assoc.
    destruct xs; reflexivity.
Qed.

Lemma inStep_copies (L : list WhereTerm) (acc : list Expr * option Expr) :
  Forall (fun t => leftCursor t <> T) L -> fold_left inStep (map okify L) acc = acc.
Proof.
  intros H. revert acc. induction H as [|t L Ht _ IH]; intros acc; simpl; auto.
  unfold okify at 2. destruct (Z.eqb_spec (leftCursor t) T); [contradiction|].
  unfold inStep at 2. simpl. rewrite hasBits_clearOk. apply IH.
Qed.

Lemma inList_okify (L1 L2 : list WhereTerm) (xs : list Expr) :
  xs <> [] -> Forall2 origQ xs L1 -> Forall (fun t => leftCursor t <> T) L2 ->
  inList (map okify (L1 ++ L2)) = (xs, Some (EColumn T C aff)).
Proof.
  intros Hne H1 H2. change (inList (map okify (L1 ++ L2)))
    with (fold_left inStep (map okify (L1 ++ L2)) ([], None)).
  rewrite map_app, fold_left_app, (inStep_orig L1 xs _ H1).
  rewrite (inStep_copies L2 _ H2). destruct xs; [congruence|reflexivity].
Qed.


End OrInFacts.

Section OrInMore.
Import Term MaskSet OrIn.

Lemma getMask_range (ms : WhereMaskSet) (c : Z) : 0 <= getMask ms c < 2 ^ 64.
Proof.
  unfold getMask. destruct (findIx _ _ _); [|lia].
  unfold MASKBIT, u64. apply Z.mod_pos_bound. lia.
Qed.

Lemma land_ones64 (ms : WhereMaskSet) (c : Z) :
  Z.land (Z.ones 64) (getMask ms c) = getMask ms c.
Proof.
  rewrite Z.land_comm, Z.land_ones by lia. apply Z.mod_small. apply getMask_range.
Qed.

Lemma Forall2_nth_r {A B} (P : A -> B -> Prop) (xs : list A) (L : list B) (p : nat)
    (da : A) (db : B) :
  Forall2 P xs L -> (p < List.length L)%nat -> P (nth p xs da) (nth p L db).
Proof.
  intros H. revert p. induction H; intros [|p] Hp; simpl in *; try lia; auto.
  apply IHForall2. lia.
Qed.

Lemma Forall2_Forall_r {A B} (P : A -> B -> Prop) (xs : list A) (L : list B) :
  Forall2 P xs L -> Forall (fun t => exists x, P x t) L.
Proof. induction 1; constructor; eauto. Qed.

Lemma splitExpr_nonempty (op : tk) (e : Expr) : splitExpr op e <> [].
Proof.
  induction e; simpl; try congruence.
  destruct (tk_eqb op0 op); [|congruence].
  destruct (splitExpr op e1); [contradiction|discriminate].
Qed.

Lemma listUsage_disjoint (ms : WhereMaskSet) (m : Z) (rs : list Expr) :
  Forall (fun x => Z.land (exprTableUsage ms x) m = 0) rs ->
  Z.land (exprListTableUsage ms rs) m = 0.
Proof.
  induction 1; simpl; auto. unfold exprListTableUsage in *; simpl.
  rewrite Z.land_lor_distr_l, H, IHForall. reflexivity.
Qed.

Lemma analyze_or_entry (ms : WhereMaskSet) (tr : bool) (af : Expr -> Z)
    (ana : WhereClause -> nat -> WhereClause) (wc : WhereClause) (idx : nat) (l r : Expr) :
  pExpr (nth idx (a wc) dfltTerm) = EBin TK_OR l r ->
  exists t0, pExpr t0 = EBin TK_OR l r /\
    exprAnalyzeStep ms tr af ana wc idx = exprAnalyzeOrTerm ms af ana (setTerm wc idx t0) idx.
Proof.
  intros H. unfold exprAnalyzeStep, termAt. rewrite H. eexists. split; [|reflexivity].
  reflexivity.
Qed.


Lemma origP_cond (af : Expr -> Z) (T C aff : Z) (rs : list Expr) (L : list WhereTerm) :
  Forall2 (origP T C aff) rs L ->
  Forall (fun x => af x = 0 \/ af x = af (EColumn T C aff)) rs ->
  Forall (fun t => leftCursor t = T -> leftColumn t = C /\ affBad af t = false) L.
Proof.
  induction 1 as [|x t xs L Ho _ IH]; intros Ha; constructor.
  - destruct Ho as (He & _ & Hc & _). apply Forall_cons_iff in Ha. destruct Ha as [Hx _]. intros _. split; [exact Hc|].
    unfold affBad. rewrite He. simpl.
    destruct Hx as [Hx|Hx]; rewrite Hx, ?Z.eqb_refl, ?andb_false_r; reflexivity.
  - apply Forall_cons_iff in Ha. apply IH, Ha.
Qed.

Lemma copy_cond (T : Z) (n : nat) (L : list WhereTerm) :
  Forall (copyAny T n) L -> Forall (fun t => leftCursor t <> T) L.
Proof.
  intros H. eapply Forall_impl; [|exact H]. intros t (p & _ & _ & _ & _ & _ & _ & Hl & _).
  exact Hl.
Qed.

Lemma origP_origQ (T C aff : Z) (rs : list Expr) (L : list WhereTerm) :
  Forall2 (origP T C aff) rs L -> Forall2 (origQ T C aff) rs L.
Proof.
  intros H. eapply Forall2_impl; [|exact H]. intros x t (He & Hl & Hc & _).
  repeat split; assumption.
Qed.

Lemma analyze_in_term (ms : WhereMaskSet) (tr : bool) (af : Expr -> Z)
    (ana : WhereClause -> nat -> WhereClause) (wc : WhereClause) (N : nat)
    (T C aff fl : Z) (rs : list Expr) :
  nth N (a wc) dfltTerm = mkTerm (EIn (EColumn T C aff) rs) (-1) 0 0 0 fl 0 0 0 ->
  Z.land (exprListTableUsage ms rs) (getMask ms T) = 0 ->
  exprAnalyzeStep ms tr af ana wc N
  = setTerm wc N (mkTerm (EIn (EColumn T C aff) rs) (-1) T C WO_IN fl 0
                   (exprListTableUsage ms rs) (exprTableUsage ms (EIn (EColumn T C aff) rs))).
Proof.
  intros Hn Hd. unfold exprAnalyzeStep, termAt. rewrite Hn. cbn -[Z.land Z.lor].
  rewrite Hd. reflexivity.
Qed.


Lemma Forall2_head {A B} (P : A -> B -> Prop) (xs : list A) (t t' : B) (L : list B) :
  Forall2 P xs (t :: L) -> (forall x, P x t -> P x t') -> Forall2 P xs (t' :: L).
Proof. intros H Hp. inversion H; subst. constructor; auto. Qed.

Lemma Forall2_head_ex {A B} (P : A -> B -> Prop) (xs : list A) (t : B) (L : list B) :
  Forall2 P xs (t :: L) -> exists x, P x t.
Proof. intros H. inversion H; eauto. Qed.

End OrInMore.

(** A single-table OR term [T.C = T.C+1 OR T.C = 5] on cursor 0. *)
Definition orSelfRef : Term.Expr :=
  Term.EBin Term.TK_OR
    (Term.EBin Term.TK_EQ (Term.EColumn 0 3 98)
       (Term.EBin Term.TK_PLUS (Term.EColumn 0 3 98) (Term.EConst 0 1)))
    (Term.EBin Term.TK_EQ (Term.EColumn 0 3 98) (Term.EConst 0 5)).

(** Claim C5 (counterexample).  Every operand of [T.C = T.C+1 OR T.C = 5]
    is an equality on the same table and column, and the right sides have no
    affinity, yet no IN term is synthesised: the first operand's right side
    uses [T], so its [eOperator] is not single-column, [chngToIN] becomes 0
    and the OR term is left as a Case 2 candidate ([WO_OR]). *)
Lemma orTerm_self_reference_not_rewritten :
  let wc' := OrIn.exprAnalyze (MaskSet.mkMaskSet [0]) true OrIn.exprAffinityOf 3
               (Term.mkWC Term.TK_AND [OrIn.freshTerm orSelfRef]) 0 in
  OrIn.splitExpr Term.TK_OR orSelfRef
    = map (fun x => Term.EBin Term.TK_EQ (Term.EColumn 0 3 98) x)
        [Term.EBin Term.TK_PLUS (Term.EColumn 0 3 98) (Term.EConst 0 1); Term.EConst 0 5]
  /\ Forall (fun x => OrIn.exprAffinityOf x = 0)
       [Term.EBin Term.TK_PLUS (Term.EColumn 0 3 98) (Term.EConst 0 1); Term.EConst 0 5]
  /\ List.length (Term.a wc') = 1%nat
  /\ Term.eOperator (nth 0 (Term.a wc') OrIn.dfltTerm) = Term.WO_OR.
Proof.
  split; [reflexivity|]. split; [repeat constructor|].
  vm_compute. split; reflexivity.
Qed.

(** Claim C5 (amended).  Let the term at [idx] be an OR whose [whereSplit]
    operands are [T.C = x] for each [x] of [rs], where [T] is a cursor of the
    mask set (its bit is non-zero), no [x] references [T], and every [x] has
    no affinity or the affinity of [T.C].  Then [exprAnalyze] appends exactly
    one term, [T.C IN (rs)], flagged TERM_VIRTUAL|TERM_DYNAMIC, analysed
    (WO_IN on [T.C]) and child of [idx]; the OR term gets [nChild = 1] and
    [eOperator = WO_NOOP] (Case 1 overrides Case 2), and no other term
    changes. *)
Theorem orTerm_rewritten_to_in (ms : MaskSet.WhereMaskSet) (transitive : bool)
    (exprAffinity : Term.Expr -> Z) (fuel : nat) (wc : Term.WhereClause) (idx : nat)
    (l r : Term.Expr) (T C aff : Z) (rs : list Term.Expr) :
  (idx < List.length (Term.a wc))%nat ->
  Term.pExpr (nth idx (Term.a wc) OrIn.dfltTerm) = Term.EBin Term.TK_OR l r ->
  OrIn.splitExpr Term.TK_OR (Term.EBin Term.TK_OR l r)
    = map (fun x => Term.EBin Term.TK_EQ (Term.EColumn T C aff) x) rs ->
  0 <= T -> MaskSet.getMask ms T <> 0 ->
  Forall (fun x => Z.land (OrIn.exprTableUsage ms x) (MaskSet.getMask ms T) = 0) rs ->
  Forall (fun x => exprAffinity x = 0 \/ exprAffinity x = exprAffinity (Term.EColumn T C aff)) rs ->
  let wc' := OrIn.exprAnalyze ms transitive exprAffinity (S (S fuel)) wc idx in
  let t := nth idx (Term.a wc') OrIn.dfltTerm in
  let tIn := nth (List.length (Term.a wc)) (Term.a wc') OrIn.dfltTerm in
  List.length (Term.a wc') = S (List.length (Term.a wc))
  /\ (forall j, j <> idx -> (j < List.length (Term.a wc))%nat ->
        nth j (Term.a wc') OrIn.dfltTerm = nth j (Term.a wc) OrIn.dfltTerm)
  /\ Term.pExpr t = Term.EBin Term.TK_OR l r
  /\ Term.eOperator t = Term.WO_NOOP /\ Term.nChild t = 1
  /\ Term.pExpr tIn = Term.EIn (Term.EColumn T C aff) rs
  /\ Term.iParent tIn = Z.of_nat idx
  /\ Term.wtFlags tIn = Z.lor Term.TERM_VIRTUAL Term.TERM_DYNAMIC
  /\ Term.leftCursor tIn = T /\ Term.leftColumn tIn = C
  /\ Term.eOperator tIn = Term.WO_IN.
Proof.
  intros Hidx Hor Hsplit HT HmT Hdis Haff wc' t tIn.
  set (ana := OrIn.exprAnalyze ms transitive exprAffinity (S fuel)).
  assert (Hwc' : wc' = OrIn.exprAnalyzeStep ms transitive exprAffinity ana wc idx)
    by reflexivity.
  destruct (analyze_or_entry ms transitive exprAffinity ana wc idx l r Hor)
    as (t0 & Ht0 & Hentry).
  rewrite Hentry in Hwc'. clear Hentry.
  set (W := OrIn.setTerm wc idx t0) in Hwc'.
  assert (HWt : OrIn.termAt W idx = t0)
    by (unfold W, OrIn.termAt, OrIn.setTerm; simpl; apply nth_setAt_eq; exact Hidx).
  (* the sub-clause *)
  assert (Hsub : exists L1 L2,
     Term.a (OrIn.exprAnalyzeAll ana (OrIn.whereSplit Term.TK_OR (Term.pExpr t0))) = L1 ++ L2
     /\ Forall2 (origP T C aff) rs L1 /\ Forall (copyAny T (List.length rs)) L2).
  { rewrite Ht0. unfold OrIn.exprAnalyzeAll, OrIn.whereSplit. rewrite Hsplit. simpl.
    rewrite map_map, length_map.
    assert (Hana : forall W i x, (i < List.length (Term.a W))%nat ->
       nth i (Term.a W) OrIn.dfltTerm = OrIn.freshTerm (eqT T C aff x) ->
       Z.land (OrIn.exprTableUsage ms x) (MaskSet.getMask ms T) = 0 ->
       exists t' cs, ana W i = Term.mkWC (Term.wcOp W) (OrIn.setAt (Term.a W) i t' ++ cs)
         /\ origP T C aff x t' /\ Forall (copyP T i) cs /\ (List.length cs <= 1)%nat)
      by (intros; apply analyze_eq_subterm; assumption).
    destruct (analyzeDown_eqs ms T C aff ana (List.length rs) Hana (List.length rs)
      (Term.mkWC Term.TK_OR (map (fun x => OrIn.freshTerm (eqT T C aff x)) rs))
      rs [] [] []) as (L1 & L2 & HA & HF1 & HF2).
    - simpl. rewrite !app_nil_r. reflexivity.
    - reflexivity.
    - simpl. lia.
    - constructor.
    - constructor.
    - exact Hdis.
    - rewrite app_nil_r in HF1. exists L1, L2. auto. }
  destruct Hsub as (L1 & L2 & HA & HF1 & HF2).
  assert (Hrs : rs <> []).
  { intros ->. simpl in Hsplit. apply (splitExpr_nonempty Term.TK_OR (Term.EBin Term.TK_OR l r)).
    exact Hsplit. }
  assert (HlenL1 : List.length L1 = List.length rs) by (symmetry; eapply Forall2_length; eauto).
  assert (Hscan : Forall (scanOk T (L1 ++ L2)) (L1 ++ L2)).
  { apply Forall_app. split.
    - eapply Forall_impl; [|exact (Forall2_Forall_r _ _ _ HF1)].
      intros t' (x & _ & Hl & _ & Hs & He & Hv). unfold scanOk. auto.
    - eapply Forall_impl; [|exact HF2]. intros c (p & Hp & Hpar & _ & Hv & Hs & He & _ & _).
      unfold scanOk. split; [exact Hs|]. split; [exact He|]. right. split; [exact Hv|].
      rewrite Hpar, Nat2Z.id, app_nth1 by lia.
      destruct (Forall2_nth_r _ _ _ p (Term.EConst 0 0) OrIn.dfltTerm HF1 ltac:(lia))
        as (_ & Hl & _). exact Hl. }
  unfold OrIn.exprAnalyzeOrTerm in Hwc'. rewrite HWt, HA in Hwc'.
  destruct (OrIn.orScan ms (OrIn.andMask ms ana) (L1 ++ L2) (L1 ++ L2) (Z.ones 64) (Z.ones 64))
    as [ind chng] eqn:Hsc.
  assert (Hch : Z.land chng (MaskSet.getMask ms T) = MaskSet.getMask ms T).
  { change chng with (snd (ind, chng)). rewrite <- Hsc.
    apply orScan_keeps_T; auto; apply land_ones64. }
  assert (Hchng : (chng =? 0) = false).
  { destruct (Z.eqb_spec chng 0) as [->|]; [|reflexivity].
    rewrite Z.land_0_l in Hch. congruence. }
  destruct L1 as [|t1 L1r]; [destruct rs; [congruence|inversion HF1]|].
  rewrite Hchng in Hwc'. simpl app in Hwc'.
  rewrite (chooseIn_first ms exprAffinity T C HT HmT t1 (L1r ++ L2) chng) in Hwc'.
  2-3: destruct (Forall2_head_ex _ _ _ _ HF1) as (x1 & _ & Hl1 & Hc1 & _); assumption.
  2: exact Hch.
  2: { change (t1 :: L1r ++ L2) with ((t1 :: L1r) ++ L2).
       apply Forall_app. split; [exact (origP_cond exprAffinity T C aff rs _ HF1 Haff)|].
       eapply Forall_impl; [|exact (copy_cond _ _ _ HF2)]. intros c Hc Hc'. contradiction. }
  change (OrIn.clearOk t1 :: L1r ++ L2) with ((OrIn.clearOk t1 :: L1r) ++ L2) in Hwc'.
  rewrite (inList_okify T C aff (OrIn.clearOk t1 :: L1r) L2 rs) in Hwc'.
  2: exact Hrs.
  2: { apply (Forall2_head _ _ t1); [exact (origP_origQ _ _ _ _ _ HF1)|].
       intros x (He & Hl & Hc). repeat split; assumption. }
  2: exact (copy_cond _ _ _ HF2).
  unfold Term.whereClauseInsert in Hwc'. cbv beta iota zeta in Hwc'.
  rewrite Nat2Z.id in Hwc'.
  set (t1' := OrIn.withOp (OrIn.withFlags t0 (Z.lor (Term.wtFlags t0) Term.TERM_ORINFO))
                (if ind =? 0 then 0 else Term.WO_OR)) in Hwc'.
  set (wc1 := OrIn.setTerm W idx t1') in Hwc'.
  assert (Hlen1 : List.length (Term.a wc1) = List.length (Term.a wc))
    by (unfold wc1, W, OrIn.setTerm; simpl; rewrite !length_setAt; reflexivity).
  assert (Hnth1 : nth idx (Term.a wc1) OrIn.dfltTerm = t1')
    by (unfold wc1, OrIn.setTerm; simpl; apply nth_setAt_eq;
        unfold W, OrIn.setTerm; simpl; rewrite length_setAt; exact Hidx).
  assert (Hnth1' : forall j, j <> idx ->
            nth j (Term.a wc1) OrIn.dfltTerm = nth j (Term.a wc) OrIn.dfltTerm)
    by (intros j Hj; unfold wc1, W, OrIn.setTerm; simpl; rewrite !nth_setAt_neq by exact Hj;
        reflexivity).
  clearbody wc1.
  set (inT := Term.mkTerm (Term.EIn (Term.EColumn T C aff) rs) (-1) 0 0 0
                (Z.lor Term.TERM_VIRTUAL Term.TERM_DYNAMIC) 0 0 0) in Hwc'.
  set (tIn' := Term.mkTerm (Term.EIn (Term.EColumn T C aff) rs) (-1) T C Term.WO_IN
                 (Z.lor Term.TERM_VIRTUAL Term.TERM_DYNAMIC) 0
                 (OrIn.exprListTableUsage ms rs)
                 (OrIn.exprTableUsage ms (Term.EIn (Term.EColumn T C aff) rs))).
  assert (Hin : ana (Term.mkWC (Term.wcOp wc1) (Term.a wc1 ++ [inT])) (List.length (Term.a wc1))
              = OrIn.setTerm (Term.mkWC (Term.wcOp wc1) (Term.a wc1 ++ [inT]))
                  (List.length (Term.a wc1)) tIn').
  { apply analyze_in_term.
    - simpl. apply nth_middle'.
    - apply listUsage_disjoint. exact Hdis. }
  rewrite Hin in Hwc'. clear Hin.
  unfold OrIn.setTerm, OrIn.termAt in Hwc'. simpl in Hwc'.
  rewrite setAt_middle, nth_middle', setAt_middle in Hwc'.
  rewrite app_nth1, Hnth1, setAt_app_l in Hwc' by lia.
  unfold t, tIn. rewrite Hwc'. simpl Term.a.
  match goal with |- context [OrIn.setAt (Term.a wc1) idx ?x] => set (X := x) end.
  assert (HnIn : nth (List.length (Term.a wc))
                   (OrIn.setAt (Term.a wc1) idx X ++ [OrIn.withParent tIn' (Z.of_nat idx)])
                   OrIn.dfltTerm = OrIn.withParent tIn' (Z.of_nat idx))
    by (rewrite <- Hlen1, <- (length_setAt (Term.a wc1) idx X); apply nth_middle').
  rewrite HnIn.
  repeat split.
  - rewrite length_app, length_setAt. simpl. lia.
  - intros j Hj Hjl. rewrite app_nth1 by (rewrite length_setAt; lia).
    rewrite nth_setAt_neq by exact Hj. apply Hnth1'. exact Hj.
  - rewrite app_nth1, nth_setAt_eq by (rewrite ?length_setAt; lia). exact Ht0.
  - rewrite app_nth1, nth_setAt_eq by (rewrite ?length_setAt; lia). reflexivity.
  - rewrite app_nth1, nth_setAt_eq by (rewrite ?length_setAt; lia). reflexivity.
Qed.

(** [T.C = 5 OR T.C = 6] on cursor 0 of the mask set [{0, 1}]. *)
Definition orTwoConsts : Term.Expr :=
  Term.EBin Term.TK_OR
    (Term.EBin Term.TK_EQ (Term.EColumn 0 3 98) (Term.EConst 0 5))
    (Term.EBin Term.TK_EQ (Term.EColumn 0 3 98) (Term.EConst 0 6)).

Definition orTwoConstsWC : Term.WhereClause :=
  Term.mkWC Term.TK_AND [OrIn.freshTerm orTwoConsts].

Lemma orTerm_rewritten_to_in_witness :
  let wc' := OrIn.exprAnalyze (MaskSet.mkMaskSet [0; 1]) true OrIn.exprAffinityOf 2
               orTwoConstsWC 0 in
  let tIn := nth 1 (Term.a wc') OrIn.dfltTerm in
  List.length (Term.a wc') = 2%nat
  /\ Term.pExpr tIn = Term.EIn (Term.EColumn 0 3 98) [Term.EConst 0 5; Term.EConst 0 6]
  /\ Term.eOperator (nth 0 (Term.a wc') OrIn.dfltTerm) = Term.WO_NOOP.
Proof.
  destruct (orTerm_rewritten_to_in (MaskSet.mkMaskSet [0; 1]) true OrIn.exprAffinityOf 0
              orTwoConstsWC 0
              (Term.EBin Term.TK_EQ (Term.EColumn 0 3 98) (Term.EConst 0 5))
              (Term.EBin Term.TK_EQ (Term.EColumn 0 3 98) (Term.EConst 0 6))
              0 3 98 [Term.EConst 0 5; Term.EConst 0 6])
    as (Hl & _ & _ & Hop & _ & Hin & _).
  - simpl. lia.
  - reflexivity.
  - reflexivity.
  - lia.
  - vm_compute. discriminate.
  - repeat constructor.
  - repeat constructor; left; reflexivity.
  - split; [exact Hl|]. split; [exact Hin|exact Hop].
Defined.


Section CostEstFacts.
Import CostEst.

Definition topBits (x : Z) : Z := Z.shiftr x (Z.log2 x - 3).

Lemma topBits_range (x : Z) : 8 <= x -> 8 <= topBits x <= 15.
Proof.
  intros Hx. unfold topBits.
  assert (HL : 3 <= Z.log2 x).
  { change 3 with (Z.log2 8). apply Z.log2_le_mono; lia. }
  rewrite Z.shiftr_div_pow2 by lia.
  destruct (Z.log2_spec x) as [H1 H2]; [lia|].
  assert (Hp : 2 ^ Z.log2 x = 2 ^ (Z.log2 x - 3) * 8).
  { change 8 with (2 ^ 3). rewrite <- (Z.pow_add_r 2 (Z.log2 x - 3) 3) by lia. f_equal; lia. }
  assert (Hq : 2 ^ Z.succ (Z.log2 x) = 2 ^ (Z.log2 x - 3) * 16).
  { change 16 with (2 ^ 4). rewrite <- (Z.pow_add_r 2 (Z.log2 x - 3) 4) by lia. f_equal; lia. }
  assert (Hpos : 0 < 2 ^ (Z.log2 x - 3)) by (apply Z.pow_pos_nonneg; lia).
  split.
  - apply Z.div_le_lower_bound; lia.
  - apply Z.lt_succ_r. apply Z.div_lt_upper_bound; lia.
Qed.

Lemma log2_shiftr_k (x k : Z) : 0 <= k -> 2 ^ k <= x ->
  Z.log2 (Z.shiftr x k) = Z.log2 x - k.
Proof.
  intros Hk Hx. rewrite Z.log2_shiftr by (apply Z.lt_le_trans with (2^k); [apply Z.pow_pos_nonneg|]; lia).
  assert (k <= Z.log2 x) by (rewrite <- (Z.log2_pow2 k) by lia; apply Z.log2_le_mono; lia).
  lia.
Qed.

Lemma topBits_shiftr (x k : Z) : 0 <= k -> 2 ^ (k + 3) <= x ->
  topBits (Z.shiftr x k) = topBits x.
Proof.
  intros Hk Hx. unfold topBits.
  rewrite log2_shiftr_k; [| lia |].
  2:{ apply Z.le_trans with (2 ^ (k+3)); [apply Z.pow_le_mono_r; lia | lia]. }
  assert (k + 3 <= Z.log2 x) by (rewrite <- (Z.log2_pow2 (k+3)) by lia; apply Z.log2_le_mono; lia).
  rewrite Z.shiftr_shiftr by lia. f_equal; lia.
Qed.

Lemma loopDown4_spec (fuel : nat) (x y : Z) :
  8 <= x -> Z.log2 x <= Z.of_nat fuel ->
  let '(x', y') := loopDown4 fuel x y in
  8 <= x' <= 255 /\ y' = y + 10 * (Z.log2 x - Z.log2 x') /\ topBits x' = topBits x /\
  Z.log2 x' <= Z.log2 x.
Proof.
  revert x y. induction fuel as [|f IH]; intros x y Hx Hf; cbn [loopDown4 loopDown1].
  - assert (Z.log2 x <= 0) by lia.
    assert (3 <= Z.log2 x) by (change 3 with (Z.log2 8); apply Z.log2_le_mono; lia). lia.
  - destruct (Z.ltb_spec 255 x).
    + assert (HL : 8 <= Z.log2 x) by (change 8 with (Z.log2 256); apply Z.log2_le_mono; lia).
      assert (Hs : Z.log2 (Z.shiftr x 4) = Z.log2 x - 4)
        by (apply log2_shiftr_k; [lia | change (2^4) with 16; lia]).
      assert (H16 : 16 <= Z.shiftr x 4).
      { rewrite Z.shiftr_div_pow2 by lia. change (2^4) with 16.
        apply Z.div_le_lower_bound; lia. }
      specialize (IH (Z.shiftr x 4) (y + 40) ltac:(lia) ltac:(lia)).
      destruct (loopDown4 f (Z.shiftr x 4) (y + 40)) as [x' y'].
      destruct IH as (H1 & H2 & H3 & H4). split; [lia|]. split; [lia|].
      split; [|lia]. rewrite H3. apply topBits_shiftr; [lia | change (2^(4+3)) with 128; lia].
    + split; [lia|]. split; [lia|]. split; [reflexivity | lia].
Qed.

Lemma loopDown1_spec (fuel : nat) (x y : Z) :
  8 <= x -> Z.log2 x <= Z.of_nat fuel ->
  let '(x', y') := loopDown1 fuel x y in
  8 <= x' <= 15 /\ y' = y + 10 * (Z.log2 x - Z.log2 x') /\ topBits x' = topBits x /\
  Z.log2 x' <= Z.log2 x.
Proof.
  revert x y. induction fuel as [|f IH]; intros x y Hx Hf; cbn [loopDown4 loopDown1].
  - assert (Z.log2 x <= 0) by lia.
    assert (3 <= Z.log2 x) by (change 3 with (Z.log2 8); apply Z.log2_le_mono; lia). lia.
  - destruct (Z.ltb_spec 15 x).
    + assert (HL : 4 <= Z.log2 x) by (change 4 with (Z.log2 16); apply Z.log2_le_mono; lia).
      assert (Hs : Z.log2 (Z.shiftr x 1) = Z.log2 x - 1)
        by (apply log2_shiftr_k; [lia | change (2^1) with 2; lia]).
      assert (H8 : 8 <= Z.shiftr x 1).
      { rewrite Z.shiftr_div_pow2 by lia. change (2^1) with 2.
        apply Z.div_le_lower_bound; lia. }
      specialize (IH (Z.shiftr x 1) (y + 10) ltac:(lia) ltac:(lia)).
      destruct (loopDown1 f (Z.shiftr x 1) (y + 10)) as [x' y'].
      destruct IH as (H1 & H2 & H3 & H4). split; [lia|]. split; [lia|].
      split; [|lia]. rewrite H3. apply topBits_shiftr; [lia | change (2^(1+3)) with 16; lia].
    + split; [lia|]. split; [lia|]. split; [reflexivity | lia].
Qed.

Lemma topBits_small (x : Z) : 8 <= x <= 15 -> topBits x = x /\ Z.log2 x = 3.
Proof.
  intros Hx. assert (HL : Z.log2 x = 3).
  { apply Z.log2_unique; [lia|]. change (2^3) with 8. change (2^Z.succ 3) with 16. lia. }
  unfold topBits; rewrite HL. split; [apply Z.shiftr_0_r | reflexivity].
Qed.

Lemma land7 (x : Z) : 8 <= x <= 15 -> Z.land x 7 = x - 8.
Proof.
  intros Hx. change 7 with (Z.ones 3). rewrite Z.land_ones by lia.
  change (2^3) with 8. rewrite (Z.mod_eq x 8) by lia.
  assert (x / 8 = 1) by (symmetry; apply Z.div_unique with (x - 8); lia). lia.
Qed.

Lemma log2_bound64 (x : Z) : 1 <= x < 2 ^ 64 -> Z.log2 x <= 63.
Proof.
  intros Hx. apply Z.lt_succ_r. apply Z.log2_lt_pow2; lia.
Qed.

Lemma tabAt_range (i : Z) : 0 <= i <= 7 -> 0 <= nth (Z.to_nat i) whereCostTab 0 <= 9.
Proof.
  intros Hi. assert (i = 0 \/ i = 1 \/ i = 2 \/ i = 3 \/ i = 4 \/ i = 5 \/ i = 6 \/ i = 7) by lia.
  repeat match goal with H : _ \/ _ |- _ => destruct H end; subst; simpl; lia.
Qed.

(** [whereCost x] is [10*log2(x)] plus a correction read from the three
    bits below the leading one. *)
Lemma whereCost_large (x : Z) : 8 <= x < 2 ^ 64 ->
  whereCost x = 10 * Z.log2 x + nth (Z.to_nat (topBits x - 8)) whereCostTab 0.
Proof.
  intros Hx. unfold whereCost.
  destruct (Z.ltb_spec x 8); [lia|].
  assert (HL3 : 3 <= Z.log2 x) by (change 3 with (Z.log2 8); apply Z.log2_le_mono; lia).
  assert (HL63 := log2_bound64 x ltac:(lia)).
  pose proof (loopDown4_spec (whereCostFuel x) x 40 ltac:(lia) ltac:(unfold whereCostFuel; rewrite Nat2Z.inj_add, Z2Nat.id by lia; lia)) as H4.
  destruct (loopDown4 (whereCostFuel x) x 40) as [x1 y1].
  destruct H4 as (H41 & H42 & H43 & Hl1).
  pose proof (loopDown1_spec (whereCostFuel x) x1 y1 ltac:(lia) ltac:(unfold whereCostFuel; rewrite Nat2Z.inj_add, Z2Nat.id by lia; lia)) as H1.
  destruct (loopDown1 (whereCostFuel x) x1 y1) as [x2 y2].
  destruct H1 as (H11 & H12 & H13 & Hl2).
  destruct (topBits_small x2 H11) as [Ht Hl].
  rewrite land7 by lia.
  assert (Hx2 : x2 = topBits x) by congruence.
  pose proof (tabAt_range (x2 - 8) ltac:(lia)).
  rewrite <- Hx2. unfold u16. rewrite Z.mod_small by lia. lia.
Qed.


Lemma small_cases (x : Z) : 0 <= x < 8 ->
  x = 0 \/ x = 1 \/ x = 2 \/ x = 3 \/ x = 4 \/ x = 5 \/ x = 6 \/ x = 7.
Proof. lia. Qed.

Lemma tab_mono (i j : Z) : 0 <= i <= j -> j <= 7 ->
  nth (Z.to_nat i) whereCostTab 0 <= nth (Z.to_nat j) whereCostTab 0.
Proof.
  intros Hi Hj.
  destruct (small_cases i ltac:(lia)) as [->|[->|[->|[->|[->|[->|[->| ->]]]]]]];
  destruct (small_cases j ltac:(lia)) as [->|[->|[->|[->|[->|[->|[->| ->]]]]]]];
  simpl; lia.
Qed.

Lemma whereCost_bounds (x : Z) : 1 <= x < 2 ^ 64 ->
  10 * Z.log2 x <= whereCost x <= 10 * Z.log2 x + 9.
Proof.
  intros Hx. destruct (Z.ltb_spec x 8).
  - destruct (small_cases x ltac:(lia)) as [->|[->|[->|[->|[->|[->|[->| ->]]]]]]];
      try lia; vm_compute; split; discriminate.
  - rewrite whereCost_large by lia.
    pose proof (topBits_range x ltac:(lia)).
    pose proof (tabAt_range (topBits x - 8) ltac:(lia)). lia.
Qed.

Lemma whereCost_pow2 (k : Z) : 0 <= k <= 63 -> whereCost (2 ^ k) = 10 * k.
Proof.
  intros Hk. destruct (Z.ltb_spec k 3).
  - assert (k = 0 \/ k = 1 \/ k = 2) as [->|[->| ->]] by lia; reflexivity.
  - assert (H8 : 8 <= 2 ^ k) by (change 8 with (2^3); apply Z.pow_le_mono_r; lia).
    assert (Hlt : 2 ^ k < 2 ^ 64) by (apply Z.pow_lt_mono_r; lia).
    rewrite whereCost_large by lia.
    unfold topBits. rewrite Z.log2_pow2 by lia.
    rewrite Z.shiftr_div_pow2 by lia.
    replace (2 ^ k) with (2 ^ (k - 3) * 8) at 1
      by (change 8 with (2^3); rewrite <- Z.pow_add_r by lia; f_equal; lia).
    rewrite (Z.mul_comm (2 ^ (k - 3)) 8), Z.div_mul by (apply Z.pow_nonzero; lia).
    simpl. lia.
Qed.

Lemma whereCost_mono (x1 x2 : Z) : 0 <= x1 <= x2 -> x2 < 2 ^ 64 ->
  whereCost x1 <= whereCost x2.
Proof.
  intros H1 H2.
  destruct (Z.ltb_spec x2 8).
  - destruct (small_cases x1 ltac:(lia)) as [->|[->|[->|[->|[->|[->|[->| ->]]]]]]];
    destruct (small_cases x2 ltac:(lia)) as [->|[->|[->|[->|[->|[->|[->| ->]]]]]]];
    try lia; vm_compute; discriminate.
  - assert (HL3 : 3 <= Z.log2 x2) by (change 3 with (Z.log2 8); apply Z.log2_le_mono; lia).
    destruct (Z.ltb_spec x1 8).
    + assert (whereCost x1 <= 28).
      { destruct (small_cases x1 ltac:(lia)) as [->|[->|[->|[->|[->|[->|[->| ->]]]]]]];
          vm_compute; discriminate. }
      pose proof (whereCost_bounds x2 ltac:(lia)). lia.
    + assert (HLm : Z.log2 x1 <= Z.log2 x2) by (apply Z.log2_le_mono; lia).
      destruct (Z.eq_dec (Z.log2 x1) (Z.log2 x2)) as [He|Hne].
      * rewrite !whereCost_large by lia.
        assert (Ht : topBits x1 <= topBits x2).
        { unfold topBits. rewrite He, !Z.shiftr_div_pow2 by lia.
          apply Z.div_le_mono; [apply Z.pow_pos_nonneg|]; lia. }
        pose proof (topBits_range x1 ltac:(lia)).
        pose proof (topBits_range x2 ltac:(lia)).
        pose proof (tab_mono (topBits x1 - 8) (topBits x2 - 8) ltac:(lia) ltac:(lia)). lia.
      * pose proof (whereCost_bounds x1 ltac:(lia)).
        pose proof (whereCost_bounds x2 ltac:(lia)). lia.
Qed.



End CostEstFacts.


Section OrSetFacts.
Import OrSet.

Lemma replaceAt_length (s : list WhereOrCost) j x : List.length (replaceAt s j x) = List.length s.
Proof. revert j; induction s as [|y s IH]; intros [|j]; simpl; auto. Qed.

Lemma replaceAt_Exists_inv (P : WhereOrCost -> Prop) s j x :
  Exists P (replaceAt s j x) -> P x \/ Exists P s.
Proof.
  revert j; induction s as [|y s IH]; intros [|j] H; simpl in H.
  - inversion H.
  - inversion H.
  - apply Exists_cons in H as [H|H]; [left; exact H | right; apply Exists_cons; right; exact H].
  - apply Exists_cons in H as [H|H]; [right; apply Exists_cons; left; exact H|].
    destruct (IH j H) as [H'|H']; [left; exact H' | right; apply Exists_cons; right; exact H'].
Qed.

Lemma replaceAt_Exists_new (P : WhereOrCost -> Prop) s j x :
  (j < List.length s)%nat -> P x -> Exists P (replaceAt s j x).
Proof.
  revert j; induction s as [|y s IH]; intros [|j] Hj Hx; simpl in *; try lia.
  - apply Exists_cons; left; exact Hx.
  - apply Exists_cons; right; apply IH; [lia | exact Hx].
Qed.

Lemma replaceAt_Exists_old (P : WhereOrCost -> Prop) s j x :
  (P (nth j s dfltOrCost) -> P x) -> Exists P s -> Exists P (replaceAt s j x).
Proof.
  revert j; induction s as [|y s IH]; intros [|j] Hx H; simpl in *.
  - inversion H.
  - inversion H.
  - apply Exists_cons in H as [H|H]; apply Exists_cons; [left; auto | right; exact H].
  - apply Exists_cons in H as [H|H]; apply Exists_cons; [left; exact H | right; apply IH; auto].
Qed.

Lemma replaceAt_In (s : list WhereOrCost) j x :
  (j < List.length s)%nat -> In x (replaceAt s j x).
Proof.
  revert j; induction s as [|y s IH]; intros [|j] Hj; simpl in *; try lia.
  - left; reflexivity.
  - right; apply IH; lia.
Qed.

Lemma orSetScan_inl l p r j0 j :
  orSetScan l p r j0 = Some (inl j) ->
  (j0 <= j)%nat /\ (j - j0 < List.length l)%nat /\ r <= rRun (nth (j - j0) l dfltOrCost).
Proof.
  revert j0; induction l as [|q l IH]; intros j0 H; simpl in H; [discriminate|].
  destruct ((r <=? rRun q) && (Z.land p (prereq q) =? p)) eqn:E1.
  - injection H as <-. apply andb_true_iff in E1 as [E1 _]. apply Z.leb_le in E1.
    rewrite Nat.sub_diag. simpl. lia.
  - destruct ((rRun q <=? r) && (Z.land (prereq q) p =? prereq q)); [discriminate|].
    destruct (IH (S j0) H) as (H1 & H2 & H3).
    replace (j - j0)%nat with (S (j - S j0)) by lia. simpl. lia.
Qed.

Lemma orSetScan_inr l p r j0 u :
  orSetScan l p r j0 = Some (inr u) -> Exists (fun e => rRun e <= r) l.
Proof.
  revert j0; induction l as [|q l IH]; intros j0 H; simpl in H; [discriminate|].
  destruct ((r <=? rRun q) && (Z.land p (prereq q) =? p)); [discriminate|].
  destruct ((rRun q <=? r) && (Z.land (prereq q) p =? prereq q)) eqn:E2.
  - apply andb_true_iff in E2 as [E2 _]. apply Z.leb_le in E2.
    apply Exists_cons; left; exact E2.
  - apply Exists_cons; right; eapply IH; exact H.
Qed.

Lemma orSetMin_spec r best bestRun i :
  let m := orSetMin r best bestRun i in
  (m = best /\ Forall (fun q => bestRun <= rRun q) r) \/
  (exists k, m = (i + k)%nat /\ (k < List.length r)%nat /\
     rRun (nth k r dfltOrCost) < bestRun /\
     Forall (fun q => rRun (nth k r dfltOrCost) <= rRun q) r).
Proof.
  revert best bestRun i; induction r as [|q r IH]; intros best bestRun i; simpl.
  - left; split; [reflexivity | constructor].
  - destruct (Z.ltb_spec (rRun q) bestRun).
    + right. destruct (IH i (rRun q) (S i)) as [[-> Hf]|(k & -> & Hk & Hlt & Hf)].
      * exists 0%nat. simpl. split; [lia|]. split; [lia|]. split; [lia|].
        constructor; [lia | exact Hf].
      * exists (S k). simpl. split; [lia|]. split; [lia|]. split; [lia|].
        constructor; [lia | exact Hf].
    + destruct (IH best bestRun (S i)) as [[-> Hf]|(k & -> & Hk & Hlt & Hf)].
      * left. split; [reflexivity|]. constructor; [lia | exact Hf].
      * right. exists (S k). simpl. split; [lia|]. split; [lia|]. split; [lia|].
        constructor; [lia | exact Hf].
Qed.

(** The entry [orSetMin] selects in a non-empty set: in range and of least
    [rRun]. *)
Lemma orSetMin_least p0 r :
  let j := orSetMin r 0 (rRun p0) 1 in
  (j < S (List.length r))%nat /\
  Forall (fun q => rRun (nth j (p0 :: r) dfltOrCost) <= rRun q) (p0 :: r).
Proof.
  simpl. destruct (orSetMin_spec r 0 (rRun p0) 1) as [[-> Hf]|(k & -> & Hk & Hlt & Hf)].
  - split; [lia|]. constructor; [lia | exact Hf].
  - split; [simpl; lia|]. simpl. constructor; [lia | exact Hf].
Qed.


Lemma nth_app_length (s : list WhereOrCost) x :
  nth (List.length s) (s ++ [x]) dfltOrCost = x.
Proof. rewrite app_nth2 by lia. rewrite Nat.sub_diag. reflexivity. Qed.

Lemma Exists_le_weaken (s : list WhereOrCost) (r c : Z) :
  r <= c -> Exists (fun e => rRun e <= r) s -> Exists (fun e => rRun e <= c) s.
Proof. intros Hrc H. eapply Exists_impl; [|exact H]. simpl; intros; lia. Qed.

Lemma orInsert_cheapest (s : list OrSet.WhereOrCost) (p r n c : Z) :
  Exists (fun e => OrSet.rRun e <= c) (fst (OrSet.whereOrInsert s p r n)) <->
  r <= c \/ Exists (fun e => OrSet.rRun e <= c) s.
Proof.
  unfold OrSet.whereOrInsert.
  destruct (OrSet.orSetScan s p r 0) as [[j|u]|] eqn:Hs; simpl.
  - destruct (orSetScan_inl s p r 0 j Hs) as (_ & Hj & Hr).
    rewrite Nat.sub_0_r in Hj, Hr. unfold OrSet.orSetDone. split.
    + intros H. apply replaceAt_Exists_inv in H as [H|H]; [left; exact H | right; exact H].
    + intros [H|H].
      * apply replaceAt_Exists_new; [exact Hj | exact H].
      * apply replaceAt_Exists_old; [simpl; lia | exact H].
  - split; [intros H; right; exact H|].
    intros [H|H]; [|exact H].
    eapply Exists_le_weaken; [exact H | eapply orSetScan_inr; exact Hs].
  - destruct (Nat.ltb_spec (List.length s) OrSet.N_OR_COST) as [Hlt|Hge]; simpl.
    + unfold OrSet.orSetDone. rewrite nth_app_length. split.
      * intros H. apply replaceAt_Exists_inv in H as [H|H]; [left; exact H|].
        apply Exists_app in H as [H|H]; [right; exact H|].
        apply Exists_cons in H as [H|H]; [left; exact H | inversion H].
      * intros [H|H].
        -- apply replaceAt_Exists_new; [rewrite length_app; simpl; lia | exact H].
        -- apply replaceAt_Exists_old; [rewrite nth_app_length; simpl; lia|]. apply Exists_app; left; exact H.
    + destruct s as [|p0 rest]; [simpl in *; unfold OrSet.N_OR_COST in *; lia|].
      destruct (orSetMin_least p0 rest) as [Hj Hmin].
      set (j := OrSet.orSetMin rest 0 (OrSet.rRun p0) 1) in *.
      destruct (Z.leb_spec (OrSet.rRun (nth j (p0 :: rest) OrSet.dfltOrCost)) r) as [Hle|Hgt]; simpl.
      * split; [intros H; right; exact H|].
        intros [H|H]; [|exact H].
        apply Exists_exists. exists (nth j (p0 :: rest) OrSet.dfltOrCost).
        split; [apply nth_In; simpl; lia | lia].
      * unfold OrSet.orSetDone. split.
        -- intros H. apply replaceAt_Exists_inv in H as [H|H]; [left; exact H | right; exact H].
        -- intros [H|H].
           ++ apply replaceAt_Exists_new; [simpl; lia | exact H].
           ++ apply replaceAt_Exists_old; [intros Hn; simpl; lia | exact H].
Qed.

Lemma orSetDone_length s j p r n : List.length (OrSet.orSetDone s j p r n) = List.length s.
Proof. unfold OrSet.orSetDone. apply replaceAt_length. Qed.

Lemma orInsert_size (s : list OrSet.WhereOrCost) p r n :
  (List.length s <= OrSet.N_OR_COST)%nat ->
  let s' := fst (OrSet.whereOrInsert s p r n) in
  (List.length s <= List.length s' <= OrSet.N_OR_COST)%nat /\ s' <> [].
Proof.
  intros Hl. unfold OrSet.whereOrInsert.
  destruct (OrSet.orSetScan s p r 0) as [[j|u]|] eqn:Hs; simpl.
  - destruct (orSetScan_inl s p r 0 j Hs) as (_ & Hj & _).
    rewrite orSetDone_length. split; [lia|].
    intros H. apply (f_equal (@List.length _)) in H.
    rewrite orSetDone_length in H. simpl in H. lia.
  - destruct (orSetScan_inr s p r 0 u Hs); (split; [lia | discriminate]).
  - destruct (Nat.ltb_spec (List.length s) OrSet.N_OR_COST) as [Hlt|Hge]; simpl.
    + rewrite orSetDone_length, length_app. simpl. split; [lia|].
      intros H. apply (f_equal (@List.length _)) in H.
      rewrite orSetDone_length, length_app in H. simpl in H. lia.
    + destruct s as [|p0 rest]; [simpl in *; unfold OrSet.N_OR_COST in *; lia|].
      destruct (Z.leb_spec (OrSet.rRun (nth (OrSet.orSetMin rest 0 (OrSet.rRun p0) 1)
                                         (p0 :: rest) OrSet.dfltOrCost)) r); simpl.
      * unfold OrSet.N_OR_COST in *; simpl in *; split; [lia | discriminate].
      * unfold OrSet.N_OR_COST in *; rewrite orSetDone_length. simpl in *. split; [lia|].
        intros Heq. apply (f_equal (@List.length _)) in Heq.
        rewrite orSetDone_length in Heq. simpl in Heq. lia.
Qed.

Lemma orSetDone_In s j p r n :
  (j < List.length s)%nat ->
  exists n', n' <= n /\ In (OrSet.mkOrCost p r n') (OrSet.orSetDone s j p r n).
Proof.
  intros Hj. unfold OrSet.orSetDone.
  eexists; split; [|apply replaceAt_In; exact Hj].
  destruct (Z.ltb_spec n (OrSet.nOut (nth j s OrSet.dfltOrCost))); lia.
Qed.


Section Combine.
Variable c : Z.
Let P := fun e : OrSet.WhereOrCost => OrSet.rRun e <= c.

Lemma combine_inner_cheapest (a : OrSet.WhereOrCost) (B S : list OrSet.WhereOrCost) :
  Exists P (fold_left (fun sum b =>
      fst (OrSet.whereOrInsert sum (Z.lor (OrSet.prereq a) (OrSet.prereq b))
             (Cost.whereCostAdd (OrSet.rRun a) (OrSet.rRun b))
             (Cost.whereCostAdd (OrSet.nOut a) (OrSet.nOut b)))) B S) <->
  Exists P S \/ exists b, In b B /\ Cost.whereCostAdd (OrSet.rRun a) (OrSet.rRun b) <= c.
Proof.
  revert S; induction B as [|b B IH]; intros S; simpl.
  - split; [intros H; left; exact H | intros [H|(b & [] & _)]; exact H].
  - rewrite IH. unfold P at 1. rewrite orInsert_cheapest. fold P. split.
    + intros [[H|H]|(b' & Hb & H)].
      * right. exists b. split; [left; reflexivity | exact H].
      * left; exact H.
      * right. exists b'. split; [right; exact Hb | exact H].
    + intros [H|(b' & [<-|Hb] & H)].
      * left; right; exact H.
      * left; left; exact H.
      * right. exists b'. split; [exact Hb | exact H].
Qed.

Lemma combine_outer_cheapest (A B S : list OrSet.WhereOrCost) :
  Exists P (fold_left (fun sum a =>
    fold_left (fun sum b =>
      fst (OrSet.whereOrInsert sum (Z.lor (OrSet.prereq a) (OrSet.prereq b))
             (Cost.whereCostAdd (OrSet.rRun a) (OrSet.rRun b))
             (Cost.whereCostAdd (OrSet.nOut a) (OrSet.nOut b)))) B sum) A S) <->
  Exists P S \/ exists a b, In a A /\ In b B /\
    Cost.whereCostAdd (OrSet.rRun a) (OrSet.rRun b) <= c.
Proof.
  revert S; induction A as [|a A IH]; intros S; simpl.
  - split; [intros H; left; exact H | intros [H|(a & b & [] & _)]; exact H].
  - rewrite IH, combine_inner_cheapest. split.
    + intros [[H|(b & Hb & H)]|(a' & b & Ha & Hb & H)].
      * left; exact H.
      * right. exists a, b. split; [left; reflexivity|]. split; [exact Hb | exact H].
      * right. exists a', b. split; [right; exact Ha|]. split; [exact Hb | exact H].
    + intros [H|(a' & b & [<-|Ha] & Hb & H)].
      * left; left; exact H.
      * left; right. exists b. split; [exact Hb | exact H].
      * right. exists a', b. split; [exact Ha|]. split; [exact Hb | exact H].
Qed.

End Combine.

Lemma combine_inner_size (a : OrSet.WhereOrCost) (B S : list OrSet.WhereOrCost) :
  (List.length S <= OrSet.N_OR_COST)%nat ->
  let S' := fold_left (fun sum b =>
      fst (OrSet.whereOrInsert sum (Z.lor (OrSet.prereq a) (OrSet.prereq b))
             (Cost.whereCostAdd (OrSet.rRun a) (OrSet.rRun b))
             (Cost.whereCostAdd (OrSet.nOut a) (OrSet.nOut b)))) B S in
  (List.length S' <= OrSet.N_OR_COST)%nat /\ (S <> [] \/ B <> [] -> S' <> []).
Proof.
  revert S; induction B as [|b B IH]; intros S HS; simpl.
  - split; [exact HS|]. intros [H|H]; [exact H | contradiction].
  - destruct (orInsert_size S (Z.lor (OrSet.prereq a) (OrSet.prereq b))
                (Cost.whereCostAdd (OrSet.rRun a) (OrSet.rRun b))
                (Cost.whereCostAdd (OrSet.nOut a) (OrSet.nOut b)) HS) as [H1 H2].
    destruct (IH _ (proj2 H1)) as [H3 H4]. split; [exact H3|].
    intros _. apply H4. left; exact H2.
Qed.

Lemma combine_outer_size (A B S : list OrSet.WhereOrCost) :
  (List.length S <= OrSet.N_OR_COST)%nat ->
  let S' := fold_left (fun sum a =>
    fold_left (fun sum b =>
      fst (OrSet.whereOrInsert sum (Z.lor (OrSet.prereq a) (OrSet.prereq b))
             (Cost.whereCostAdd (OrSet.rRun a) (OrSet.rRun b))
             (Cost.whereCostAdd (OrSet.nOut a) (OrSet.nOut b)))) B sum) A S in
  (List.length S' <= OrSet.N_OR_COST)%nat /\
  (S <> [] \/ (A <> [] /\ B <> []) -> S' <> []).
Proof.
  revert S; induction A as [|a A IH]; intros S HS; simpl.
  - split; [exact HS|]. intros [H|[H _]]; [exact H | contradiction].
  - destruct (combine_inner_size a B S HS) as [H1 H2].
    destruct (IH _ H1) as [H3 H4]. split; [exact H3|].
    intros [H|[_ H]]; apply H4; left; apply H2; [left | right]; exact H.
Qed.

Lemma orSetCombine_size_aux (A B : list OrSet.WhereOrCost) :
  (List.length (OrSet.orSetCombine A B) <= OrSet.N_OR_COST)%nat /\
  (A <> [] -> B <> [] -> OrSet.orSetCombine A B <> []).
Proof.
  destruct (combine_outer_size A B [] ltac:(simpl; unfold OrSet.N_OR_COST; lia)) as [H1 H2].
  split; [exact H1|]. intros HA HB. apply H2. right; split; assumption.
Qed.


End OrSetFacts.

(** [whereOrInsert] keeps the least run cost seen: after the call, some
    entry costs at most [c] exactly when the new cost or an old entry does. *)
Theorem whereOrInsert_cheapest (s : list OrSet.WhereOrCost) (p r n c : Z) :
  Exists (fun e => OrSet.rRun e <= c) (fst (OrSet.whereOrInsert s p r n)) <->
  r <= c \/ Exists (fun e => OrSet.rRun e <= c) s.
Proof. apply orInsert_cheapest. Qed.

(** [whereOrInsert] on a set of at most [N_OR_COST] entries: the set never
    shrinks, never exceeds [N_OR_COST] entries and is non-empty after. *)
Theorem whereOrInsert_size (s : list OrSet.WhereOrCost) p r n :
  (List.length s <= OrSet.N_OR_COST)%nat ->
  let s' := fst (OrSet.whereOrInsert s p r n) in
  (List.length s <= List.length s' <= OrSet.N_OR_COST)%nat /\ s' <> [].
Proof. apply orInsert_size. Qed.

(** The return value of [whereOrInsert]: 1 when the set now holds an entry
    with the new prerequisites and run cost (and at most the new [nOut]);
    0 only when the set is unchanged and already holds an entry at most as
    costly. *)
Theorem whereOrInsert_result (s : list OrSet.WhereOrCost) p r n :
  let '(s', rc) := OrSet.whereOrInsert s p r n in
  (rc = 1 /\ exists n', n' <= n /\ In (OrSet.mkOrCost p r n') s') \/
  (rc = 0 /\ s' = s /\ Exists (fun e => OrSet.rRun e <= r) s).
Proof.
  unfold OrSet.whereOrInsert.
  destruct (OrSet.orSetScan s p r 0) as [[j|u]|] eqn:Hs.
  - left. split; [reflexivity|]. apply orSetDone_In.
    destruct (orSetScan_inl s p r 0 j Hs) as (_ & Hj & _). lia.
  - right. split; [reflexivity|]. split; [reflexivity|]. eapply orSetScan_inr; exact Hs.
  - destruct (Nat.ltb_spec (List.length s) OrSet.N_OR_COST) as [Hlt|Hge].
    + left. split; [reflexivity|].
      destruct (orSetDone_In (s ++ [OrSet.mkOrCost p r n]) (List.length s) p r n)
        as (n' & Hn & Hin); [rewrite length_app; simpl; lia|].
      exists n'. split; [exact Hn | exact Hin].
    + destruct s as [|p0 rest]; [simpl in *; unfold OrSet.N_OR_COST in *; lia|].
      destruct (orSetMin_least p0 rest) as [Hj Hmin].
      destruct (Z.leb_spec (OrSet.rRun (nth (OrSet.orSetMin rest 0 (OrSet.rRun p0) 1)
                                         (p0 :: rest) OrSet.dfltOrCost)) r).
      * right. split; [reflexivity|]. split; [reflexivity|].
        apply Exists_exists. eexists; split; [apply nth_In; simpl; exact Hj | exact H].
      * left. split; [reflexivity|]. apply orSetDone_In. simpl; exact Hj.
Qed.


(** The OR-operand cost combination of [whereLoopAddOr]: some combined
    entry costs at most [c] exactly when some pair of entries, one from each
    operand's set, has a [whereCostAdd] of its run costs at most [c]. *)
Theorem orSetCombine_cheapest (A B : list OrSet.WhereOrCost) (c : Z) :
  Exists (fun e => OrSet.rRun e <= c) (OrSet.orSetCombine A B) <->
  exists a b, In a A /\ In b B /\
    Cost.whereCostAdd (OrSet.rRun a) (OrSet.rRun b) <= c.
Proof.
  unfold OrSet.orSetCombine. rewrite combine_outer_cheapest. split.
  - intros [H|H]; [inversion H | exact H].
  - intros H; right; exact H.
Qed.

(** The combination of two non-empty operand sets is non-empty and holds at
    most [N_OR_COST] entries. *)
Theorem orSetCombine_size (A B : list OrSet.WhereOrCost) :
  A <> [] -> B <> [] ->
  OrSet.orSetCombine A B <> [] /\
  (List.length (OrSet.orSetCombine A B) <= OrSet.N_OR_COST)%nat.
Proof.
  intros HA HB. destruct (orSetCombine_size_aux A B) as [H1 H2].
  split; [apply H2; assumption | exact H1].
Qed.


Section AffinityFacts.
Variable NONE : Z.

Lemma skipLeading_spec (z : list Z) : forall base n,
  0 <= n <= Z.of_nat (List.length z) ->
  exists k, Affinity.skipLeadingNone NONE base n z =
              (base + Z.of_nat k, n - Z.of_nat k, skipn k z) /\
    Z.of_nat k <= n /\
    (forall i, (i < k)%nat -> nth i z 0 = NONE) /\
    (n - Z.of_nat k = 0 \/ nth k z 0 <> NONE).
Proof.
  induction z as [|c z IH]; intros base n Hn; simpl in *.
  - exists 0%nat. simpl. split; [f_equal; f_equal; lia|]. split; [lia|].
    split; [intros; lia | left; lia].
  - destruct (Z.ltb_spec 0 n); destruct (Z.eqb_spec c NONE); simpl.
    + destruct (IH (base + 1) (n - 1) ltac:(lia)) as (k & Heq & Hk & Hpre & Hend).
      exists (S k). rewrite Heq. simpl. split; [f_equal; f_equal; lia|]. split; [lia|].
      split.
      * intros [|i] Hi; simpl; [congruence|]. apply Hpre; lia.
      * destruct Hend as [Hend|Hend]; [left; lia | right; exact Hend].
    + exists 0%nat. simpl. split; [f_equal; f_equal; lia|]. split; [lia|].
      split; [intros; lia | right; exact n0].
    + exists 0%nat. simpl. split; [f_equal; f_equal; lia|]. split; [lia|].
      split; [intros; lia | left; lia].
    + exists 0%nat. simpl. split; [f_equal; f_equal; lia|]. split; [lia|].
      split; [intros; lia | left; lia].
Qed.

Lemma trimTrailing_spec (z : list Z) (fuel : nat) : forall n,
  1 <= n -> n <= Z.of_nat fuel ->
  let n2 := Affinity.trimTrailingNone NONE fuel n z in
  1 <= n2 <= n /\
  (forall i, n2 <= i < n -> nth (Z.to_nat i) z 0 = NONE) /\
  (n2 = 1 \/ nth (Z.to_nat (n2 - 1)) z 0 <> NONE).
Proof.
  induction fuel as [|f IH]; intros n H1 Hf; cbn [Affinity.trimTrailingNone].
  - lia.
  - destruct (Z.ltb_spec 1 n); destruct (Z.eqb_spec (nth (Z.to_nat (n - 1)) z 0) NONE); simpl.
    + destruct (IH (n - 1) ltac:(lia) ltac:(lia)) as (Hr & Hall & Hend).
      split; [lia|]. split; [|exact Hend].
      intros i Hi. destruct (Z.eq_dec i (n - 1)) as [->|Hne]; [exact e|].
      apply Hall; lia.
    + split; [lia|]. split; [intros; lia | right; exact n0].
    + split; [lia|]. split; [intros; lia | left; lia].
    + split; [lia|]. split; [intros; lia | left; lia].
Qed.

End AffinityFacts.

(** [codeApplyAffinity] drops exactly the [SQLITE4_AFF_NONE] entries at
    both ends of the affinity string: nothing is coded when all [n] entries
    are NONE; otherwise the coded range [zAff[k..k+n')] starts and ends with
    an entry other than NONE, every entry outside it is NONE, and [base] is
    moved by [k]. *)
Theorem codeApplyAffinity_trims (NONE base n : Z) (zAff : list Z) :
  0 <= n <= Z.of_nat (List.length zAff) ->
  match Affinity.codeApplyAffinity NONE base n zAff with
  | None => forall i, 0 <= i < n -> nth (Z.to_nat i) zAff 0 = NONE
  | Some (b', n', z') =>
      exists k, b' = base + k /\ 0 <= k /\ 1 <= n' /\ k + n' <= n /\
        z' = firstn (Z.to_nat n') (skipn (Z.to_nat k) zAff) /\
        (forall i, 0 <= i < k -> nth (Z.to_nat i) zAff 0 = NONE) /\
        (forall i, k + n' <= i < n -> nth (Z.to_nat i) zAff 0 = NONE) /\
        nth (Z.to_nat k) zAff 0 <> NONE /\
        nth (Z.to_nat (k + n' - 1)) zAff 0 <> NONE
  end.
Proof.
  intros Hn. unfold Affinity.codeApplyAffinity.
  destruct (skipLeading_spec NONE zAff base n Hn) as (k & Heq & Hk & Hpre & Hend).
  rewrite Heq.
  assert (Hnth : forall i, nth i (skipn k zAff) 0 = nth (k + i) zAff 0).
  { intros i. rewrite nth_skipn. f_equal; lia. }
  destruct (Z.eq_dec (n - Z.of_nat k) 0) as [H0|H0].
  - rewrite H0. simpl.
    intros i Hi. rewrite <- (Z2Nat.id i) in Hi by lia. apply Hpre. lia.
  - destruct Hend as [Hend|Hend]; [contradiction|].
    destruct (trimTrailing_spec NONE (skipn k zAff) (Z.to_nat (n - Z.of_nat k)) (n - Z.of_nat k)
                ltac:(lia) ltac:(lia)) as (Hr & Hall & Hlast).
    set (n2 := Affinity.trimTrailingNone NONE (Z.to_nat (n - Z.of_nat k)) (n - Z.of_nat k)
                 (skipn k zAff)) in *.
    destruct (Z.ltb_spec 0 n2); [|lia].
    exists (Z.of_nat k). rewrite Nat2Z.id.
    split; [reflexivity|]. split; [lia|]. split; [lia|]. split; [lia|].
    split; [reflexivity|]. split; [|split; [|split]].
    + intros i Hi. apply Hpre. lia.
    + intros i Hi. specialize (Hall (i - Z.of_nat k) ltac:(lia)).
      rewrite Hnth in Hall. rewrite <- Hall. f_equal. lia.
    + exact Hend.
    + destruct Hlast as [H1|H1].
      * replace (Z.of_nat k + n2 - 1) with (Z.of_nat k) by lia. rewrite Nat2Z.id. exact Hend.
      * rewrite Hnth in H1. replace (Z.to_nat (Z.of_nat k + n2 - 1)) with (k + Z.to_nat (n2 - 1))%nat
          by lia. exact H1.
Qed.


Section DisableFacts.
Import Term OrIn Disable.
Variable iLeftJoin : Z.
Variable fromJoin : Expr -> bool.

(** [t'] is [t] with possibly [TERM_CODED] added to [wtFlags] and [nChild]
    changed; nothing else. *)
Definition codedOrChild (t t' : WhereTerm) : Prop :=
  exists f c, t' = withChild (withFlags t f) c /\
    (f = wtFlags t \/ f = Z.lor (wtFlags t) TERM_CODED).

Definition codedOrChildL (wc wc' : list WhereTerm) : Prop :=
  List.length wc' = List.length wc /\
  forall k, codedOrChild (nth k wc dfltTerm) (nth k wc' dfltTerm).

Lemma codedOrChild_refl t : codedOrChild t t.
Proof. exists (wtFlags t), (nChild t). destruct t; split; [reflexivity|left; reflexivity]. Qed.

Lemma codedOrChild_trans t1 t2 t3 :
  codedOrChild t1 t2 -> codedOrChild t2 t3 -> codedOrChild t1 t3.
Proof.
  intros (f1 & c1 & -> & Hf1) (f2 & c2 & -> & Hf2).
  exists f2, c2. destruct t1; cbn in *. split; [reflexivity|].
  destruct Hf1 as [->| ->]; destruct Hf2 as [->| ->]; auto.
  right. rewrite <- Z.lor_assoc, Z.lor_diag. reflexivity.
Qed.

Lemma codedOrChildL_refl wc : codedOrChildL wc wc.
Proof. split; [reflexivity|]. intros k. apply codedOrChild_refl. Qed.

Lemma codedOrChildL_trans w1 w2 w3 :
  codedOrChildL w1 w2 -> codedOrChildL w2 w3 -> codedOrChildL w1 w3.
Proof.
  intros [L1 H1] [L2 H2]. split; [congruence|].
  intros k. eapply codedOrChild_trans; eauto.
Qed.

Lemma codedOrChildL_setAt wc i x :
  codedOrChild (nth i wc dfltTerm) x -> codedOrChildL wc (setAt wc i x).
Proof.
  intros H. split; [apply length_setAt|]. intros k.
  destruct (Nat.eq_dec k i) as [->|Hne].
  - destruct (Nat.lt_ge_cases i (List.length wc)) as [Hl|Hl].
    + rewrite nth_setAt_eq by exact Hl. exact H.
    + rewrite !nth_overflow by (rewrite ?length_setAt; lia). apply codedOrChild_refl.
  - rewrite nth_setAt_neq by exact Hne. apply codedOrChild_refl.
Qed.

Lemma codedOrChild_flags t :
  codedOrChild t (withFlags t (Z.lor (wtFlags t) TERM_CODED)).
Proof. exists (Z.lor (wtFlags t) TERM_CODED), (nChild t). destruct t; split; auto. Qed.

Lemma codedOrChild_child t c : codedOrChild t (withChild t c).
Proof. exists (wtFlags t), c. destruct t; split; auto. Qed.

Lemma disableTermF_codedOrChild fuel : forall wc i,
  codedOrChildL wc (disableTermF iLeftJoin fromJoin fuel wc i).
Proof.
  induction fuel as [|f IH]; intros wc i; cbn [disableTermF].
  - apply codedOrChildL_refl.
  - set (t := nth i wc dfltTerm).
    destruct (negb _ && _); [|apply codedOrChildL_refl].
    set (wc1 := setAt wc i _).
    assert (H1 : codedOrChildL wc wc1) by (apply codedOrChildL_setAt, codedOrChild_flags).
    destruct (0 <=? iParent t); [|exact H1].
    set (j := Z.to_nat (iParent t)).
    set (o := nth j wc1 dfltTerm).
    assert (H2 : codedOrChildL wc wc1 /\ codedOrChildL wc1 (setAt wc1 j (withChild o (u8 (nChild o - 1))))).
    { split; [exact H1|]. apply codedOrChildL_setAt, codedOrChild_child. }
    destruct H2 as [H2a H2b].
    destruct (_ =? 0).
    + eapply codedOrChildL_trans; [exact H2a|].
      eapply codedOrChildL_trans; [exact H2b|]. apply IH.
    + eapply codedOrChildL_trans; eauto.
Qed.

Lemma hasCoded_lor x : hasBits (Z.lor x TERM_CODED) TERM_CODED = true.
Proof.
  unfold hasBits, TERM_CODED. rewrite Z.land_lor_distr_l, Z.land_diag.
  destruct (Z.lor (Z.land x 4) 4 =? 0) eqn:E; [|reflexivity].
  apply Z.eqb_eq, Z.lor_eq_0_iff in E. lia.
Qed.

(** Coding is never undone. *)
Lemma codedOrChild_keeps_coded t t' :
  codedOrChild t t' -> hasBits (wtFlags t) TERM_CODED = true ->
  hasBits (wtFlags t') TERM_CODED = true.
Proof.
  intros (f & c & -> & [->| ->]) H; destruct t; cbn in *; auto.
  apply hasCoded_lor.
Qed.

Lemma codedOrChildL_keeps_coded wc wc' k :
  codedOrChildL wc wc' -> hasBits (wtFlags (nth k wc dfltTerm)) TERM_CODED = true ->
  hasBits (wtFlags (nth k wc' dfltTerm)) TERM_CODED = true.
Proof. intros [_ H]. apply codedOrChild_keeps_coded, H. Qed.

Definition enabled (t : WhereTerm) : bool :=
  (iLeftJoin =? 0) || fromJoin (pExpr t).

(** One step of [disableTerm] on an uncoded, enabled term in range codes it. *)
Lemma disableTermF_codes fuel wc i :
  (i < List.length wc)%nat -> enabled (nth i wc dfltTerm) = true ->
  hasBits (wtFlags (nth i (disableTermF iLeftJoin fromJoin (S fuel) wc i) dfltTerm)) TERM_CODED = true.
Proof.
  intros Hi He. unfold enabled in He.
  destruct (hasBits (wtFlags (nth i wc dfltTerm)) TERM_CODED) eqn:Hc.
  - eapply codedOrChildL_keeps_coded; [apply disableTermF_codedOrChild|exact Hc].
  - cbn [disableTermF]. rewrite Hc, He. cbn [negb andb].
    set (t := nth i wc dfltTerm).
    set (wc1 := setAt wc i _).
    assert (H1 : hasBits (wtFlags (nth i wc1 dfltTerm)) TERM_CODED = true).
    { unfold wc1. rewrite nth_setAt_eq by exact Hi. apply hasCoded_lor. }
    assert (H2 : forall x j, hasBits (wtFlags (nth i (setAt wc1 j (withChild (nth j wc1 dfltTerm) x)) dfltTerm)) TERM_CODED = true).
    { intros x j. eapply codedOrChildL_keeps_coded; [|exact H1].
      apply codedOrChildL_setAt, codedOrChild_child. }
    cbv zeta.
    destruct (0 <=? iParent t); [|exact H1].
    destruct (u8 _ =? 0); [|apply H2].
    eapply codedOrChildL_keeps_coded; [apply disableTermF_codedOrChild|apply H2].
Qed.

(** A term that is not coded and not enabled stops [disableTerm] at once. *)
Lemma disableTermF_skip fuel wc i :
  hasBits (wtFlags (nth i wc dfltTerm)) TERM_CODED || enabled (nth i wc dfltTerm) = false ->
  disableTermF iLeftJoin fromJoin fuel wc i = wc.
Proof.
  intros H. apply orb_false_iff in H as [Hc He]. unfold enabled in He.
  destruct fuel; cbn [disableTermF]; [reflexivity|]. rewrite Hc, He. reflexivity.
Qed.

(** The number of terms not yet coded. *)
Fixpoint uncoded (wc : list WhereTerm) : nat :=
  match wc with
  | [] => O
  | t :: r => ((if hasBits (wtFlags t) TERM_CODED then 0 else 1) + uncoded r)%nat
  end.

Lemma uncoded_setAt wc i x :
  (i < List.length wc)%nat ->
  (uncoded (setAt wc i x) + (if hasBits (wtFlags (nth i wc dfltTerm)) TERM_CODED then 0 else 1)
   = uncoded wc + (if hasBits (wtFlags x) TERM_CODED then 0 else 1))%nat.
Proof.
  revert i; induction wc as [|y r IH]; intros [|i] Hi; cbn in *; try lia.
  specialize (IH i ltac:(lia)). destruct (hasBits (wtFlags y) TERM_CODED); lia.
Qed.

Lemma uncoded_setAt_child wc j c :
  uncoded (setAt wc j (withChild (nth j wc dfltTerm) c)) = uncoded wc.
Proof.
  revert j; induction wc as [|y r IH]; intros [|j]; cbn; auto.
Qed.

(** Enough fuel: [disableTermF] does not depend on it beyond the number of
    uncoded terms. *)
Lemma disableTermF_fuel f : forall g wc i,
  (uncoded wc < f)%nat -> (f <= g)%nat ->
  disableTermF iLeftJoin fromJoin g wc i = disableTermF iLeftJoin fromJoin f wc i.
Proof.
  induction f as [|f IH]; intros g wc i Hf Hg; [lia|].
  destruct g as [|g]; [lia|]. cbn [disableTermF].
  destruct (Nat.lt_ge_cases i (List.length wc)) as [Hi|Hi].
  2:{ rewrite nth_overflow by exact Hi. reflexivity. }
  pose proof (uncoded_setAt wc i
    (withFlags (nth i wc dfltTerm) (Z.lor (wtFlags (nth i wc dfltTerm)) TERM_CODED)) Hi) as E.
  cbn [wtFlags withFlags] in E. rewrite hasCoded_lor in E.
  destruct (hasBits (wtFlags (nth i wc dfltTerm)) TERM_CODED) eqn:Hc; cbn [negb andb]; [reflexivity|].
  destruct (_ || _); [|reflexivity].
  cbv zeta.
  destruct (0 <=? iParent (nth i wc dfltTerm)); [|reflexivity].
  destruct (u8 _ =? 0); [|reflexivity].
  apply IH; [rewrite uncoded_setAt_child; lia|lia].
Qed.

End DisableFacts.

Section CoverFacts.
Import Cover.

Lemma testbit_maskbit (x b : Z) : 0 <= x < 63 -> 0 <= b ->
  Z.testbit (MASKBIT x) b = (x =? b).
Proof.
  intros Hx Hb. unfold MASKBIT, u64. rewrite Z.shiftl_1_l.
  rewrite Z.mod_small.
  - apply Z.pow2_bits_eqb. lia.
  - split; [apply Z.pow_nonneg; lia|].
    apply Z.lt_le_trans with (2 ^ 63); [apply Z.pow_lt_mono_r; lia|].
    vm_compute. discriminate.
Qed.

Lemma coverLoop_bits (l : list Z) (j : nat) : forall m b,
  (j <= List.length l)%nat -> Forall (fun x => 0 <= x) (firstn j l) -> 0 <= b ->
  Z.testbit (coverLoop l j m) b =
  Z.testbit m b || ((b <? BMS - 1) && existsb (fun y => y =? b) (firstn j l)).
Proof.
  induction j as [|j IH]; intros m b Hj Hn Hb; cbn [coverLoop].
  - rewrite firstn_O. cbn. rewrite andb_false_r, orb_false_r. reflexivity.
  - assert (Hf : firstn (S j) l = firstn j l ++ [nth j l 0]).
    { clear IH Hn. revert l Hj; induction j as [|j IHj]; intros [|y l] Hj; cbn in *; try lia.
      - reflexivity.
      - f_equal. rewrite IHj by lia. reflexivity. }
    rewrite Hf in Hn |- *. apply Forall_app in Hn as [Hn1 Hn2].
    inversion Hn2 as [|? ? Hx _]; subst.
    rewrite IH by (try exact Hn1; try exact Hb; lia).
    rewrite existsb_app. cbn [existsb]. rewrite orb_false_r.
    set (x := nth j l 0) in *.
    destruct (x <? BMS - 1) eqn:Hlt.
    + rewrite Z.lor_spec, testbit_maskbit by (unfold BMS in *; lia).
      destruct (b <? BMS - 1) eqn:Hb2; cbn.
      * destruct (Z.testbit m b), (x =? b), (existsb _ _); reflexivity.
      * unfold BMS in *. destruct (x =? b) eqn:E; [apply Z.eqb_eq in E; lia|].
        rewrite orb_false_r. reflexivity.
    + destruct (b <? BMS - 1) eqn:Hb2; cbn; [|reflexivity].
      destruct (x =? b) eqn:E; [apply Z.eqb_eq in E; unfold BMS in *; lia|].
      rewrite orb_false_r. reflexivity.
Qed.

End CoverFacts.

(** [disableTerm] changes only two fields: the [wtFlags] of some terms gain
    [TERM_CODED], and the [nChild] of some terms changes. The number of terms,
    their expressions, parents, operands, operators and masks are left
    unchanged. *)
Theorem disableTerm_changes_only_coded_and_nChild iLeftJoin fromJoin wc pTerm :
  let wc' := Disable.disableTerm iLeftJoin fromJoin wc pTerm in
  List.length wc' = List.length wc /\
  forall k, exists f c,
    nth k wc' OrIn.dfltTerm = OrIn.withChild (OrIn.withFlags (nth k wc OrIn.dfltTerm) f) c /\
    (f = Term.wtFlags (nth k wc OrIn.dfltTerm) \/
     f = Z.lor (Term.wtFlags (nth k wc OrIn.dfltTerm)) Term.TERM_CODED).
Proof.
  destruct pTerm as [i|]; unfold Disable.disableTerm.
  - apply (disableTermF_codedOrChild iLeftJoin fromJoin).
  - apply (codedOrChildL_refl).
Qed.

(** After [disableTerm] on the term [i] of the clause, that term is coded
    exactly when it was already coded, or when the level is not the right
    table of a LEFT JOIN ([iLeftJoin = 0]) or the term comes from its ON
    clause. *)
Theorem disableTerm_coded_iff iLeftJoin fromJoin wc i :
  (i < List.length wc)%nat ->
  let t := nth i wc OrIn.dfltTerm in
  Term.hasBits (Term.wtFlags (nth i (Disable.disableTerm iLeftJoin fromJoin wc (Some i)) OrIn.dfltTerm))
    Term.TERM_CODED =
  Term.hasBits (Term.wtFlags t) Term.TERM_CODED || ((iLeftJoin =? 0) || fromJoin (Term.pExpr t)).
Proof.
  intros Hi t. unfold Disable.disableTerm.
  destruct (Term.hasBits (Term.wtFlags t) Term.TERM_CODED) eqn:Hc; cbn [orb].
  - eapply codedOrChildL_keeps_coded; [apply disableTermF_codedOrChild|exact Hc].
  - destruct ((iLeftJoin =? 0) || fromJoin (Term.pExpr t)) eqn:He.
    + apply (disableTermF_codes iLeftJoin fromJoin); assumption.
    + rewrite disableTermF_skip; [exact Hc|]. unfold enabled. fold t. rewrite Hc, He. reflexivity.
Qed.

(** Disabling the last child of a parent term disables the parent: when
    the uncoded term [i] is coded and its parent [p] had [nChild = 1], the
    parent is coded as well (if it passes the same LEFT JOIN test). *)
Theorem disableTerm_codes_parent iLeftJoin fromJoin wc i :
  let t := nth i wc OrIn.dfltTerm in
  let p := Z.to_nat (Term.iParent t) in
  let o := nth p wc OrIn.dfltTerm in
  (i < List.length wc)%nat ->
  Term.hasBits (Term.wtFlags t) Term.TERM_CODED = false ->
  (iLeftJoin =? 0) || fromJoin (Term.pExpr t) = true ->
  0 <= Term.iParent t -> (p < List.length wc)%nat -> p <> i ->
  Term.nChild o = 1 ->
  (iLeftJoin =? 0) || fromJoin (Term.pExpr o) = true ->
  Term.hasBits (Term.wtFlags (nth p (Disable.disableTerm iLeftJoin fromJoin wc (Some i)) OrIn.dfltTerm))
    Term.TERM_CODED = true.
Proof.
  intros t p o Hi Hc He Hp0 Hp Hpi Hn Hoe.
  unfold Disable.disableTerm.
  assert (El : exists m, List.length wc = S m)
    by (destruct wc; cbn in *; [lia|eauto]).
  destruct El as [m El]. rewrite El. remember (S m) as f0 eqn:Ef.
  cbn [Disable.disableTermF]. fold t. rewrite Hc, He. cbn [negb andb].
  cbv zeta. replace (0 <=? Term.iParent t) with true by (symmetry; apply Z.leb_le; exact Hp0).
  fold p.
  set (wc1 := OrIn.setAt wc i _).
  assert (Ho : nth p wc1 OrIn.dfltTerm = o) by (apply nth_setAt_neq; exact Hpi).
  rewrite Ho, Hn.
  replace (Disable.u8 (1 - 1)) with 0 by reflexivity.
  change (0 =? 0) with true. cbv iota.
  set (wc2 := OrIn.setAt wc1 p (OrIn.withChild o 0)).
  assert (Hl2 : (p < List.length wc2)%nat) by (unfold wc2, wc1; rewrite !length_setAt; exact Hp).
  assert (Ho2 : nth p wc2 OrIn.dfltTerm = OrIn.withChild o 0)
    by (apply nth_setAt_eq; unfold wc1; rewrite length_setAt; exact Hp).
  destruct (Term.hasBits (Term.wtFlags o) Term.TERM_CODED) eqn:Hoc.
  - eapply codedOrChildL_keeps_coded; [apply disableTermF_codedOrChild|].
    change (Term.hasBits (Term.wtFlags (nth p wc2 OrIn.dfltTerm)) Term.TERM_CODED = true).
    rewrite Ho2. destruct o; exact Hoc.
  - rewrite Ef. apply (disableTermF_codes iLeftJoin fromJoin); [exact Hl2|].
    unfold enabled. rewrite Ho2. destruct o; exact Hoe.
Qed.

(** [columnsInIndex]: for an index that is not the primary key, bit [b] of
    the mask is set exactly when [b < 63] and [b] is one of the [nCover]
    covered columns.  For the primary key the mask is 0.  A column numbered
    63 or more sets no bit. *)
Theorem columnsInIndex_bits PK (pIdx : Cover.CoverIndex) (b : Z) :
  (Z.to_nat (Cover.nCover pIdx) <= List.length (Cover.aiCover pIdx))%nat ->
  Forall (fun x => 0 <= x) (firstn (Z.to_nat (Cover.nCover pIdx)) (Cover.aiCover pIdx)) ->
  0 <= b ->
  Z.testbit (Cover.columnsInIndex PK pIdx) b =
  negb (Cover.eIndexType pIdx =? PK) && (b <? 63) &&
  existsb (fun y => y =? b) (firstn (Z.to_nat (Cover.nCover pIdx)) (Cover.aiCover pIdx)).
Proof.
  intros Hl Hn Hb. unfold Cover.columnsInIndex.
  destruct (Cover.eIndexType pIdx =? PK); cbn [negb andb].
  - apply Z.testbit_0_l.
  - rewrite coverLoop_bits by assumption. rewrite Z.testbit_0_l. reflexivity.
Qed.

Section KeyStatsFacts.
Import KeyStats.

Lemma memcmp_zero (n : nat) : forall p q,
  (n <= List.length p)%nat -> (n <= List.length q)%nat ->
  (memcmp p q n = 0 <-> firstn n p = firstn n q).
Proof.
  induction n as [|n IH]; intros [|x p] [|y q] Hp Hq; cbn in *; try lia.
  - split; reflexivity.
  - split; reflexivity.
  - split; reflexivity.
  - split; reflexivity.
  - destruct (x =? y) eqn:E.
    + apply Z.eqb_eq in E; subst. rewrite IH by lia. split; intros H.
      * rewrite H; reflexivity.
      * injection H; auto.
    + apply Z.eqb_neq in E. split; intros H; [lia|]. injection H; intros; lia.
Qed.

Lemma firstn_all_length (l : list Z) n : n = List.length l -> firstn n l = l.
Proof. intros ->. apply firstn_all. Qed.

Lemma sampleCmp_zero_iff (buf : list Z) (s : IndexSample) :
  sampleCmp buf s = 0 <-> buf = aVal s.
Proof.
  unfold sampleCmp.
  set (m := Nat.min (List.length buf) (List.length (aVal s))).
  assert (Hm1 : (m <= List.length buf)%nat) by (unfold m; lia).
  assert (Hm2 : (m <= List.length (aVal s))%nat) by (unfold m; lia).
  destruct (memcmp buf (aVal s) m =? 0) eqn:E.
  - apply Z.eqb_eq in E. apply memcmp_zero in E; [|exact Hm1|exact Hm2].
    split; intros H.
    + assert (Hl : List.length buf = List.length (aVal s)) by lia.
      rewrite <- (firstn_all_length buf m), <- (firstn_all_length (aVal s) m) by (unfold m; lia).
      exact E.
    + rewrite H. lia.
  - apply Z.eqb_neq in E. split; intros H; [exact (False_ind _ (E H))|].
    exfalso. apply E. apply memcmp_zero; [exact Hm1|exact Hm2|]. rewrite H. reflexivity.
Qed.

Lemma findSample_spec buf (l : list IndexSample) : forall i0,
  exists k, fst (findSample buf l i0) = (i0 + k)%nat /\ (k <= List.length l)%nat /\
    (forall j, (j < k)%nat -> 0 < sampleCmp buf (nth j l dfltSample)) /\
    (if snd (findSample buf l i0)
     then (k < List.length l)%nat /\ sampleCmp buf (nth k l dfltSample) = 0
     else (k < List.length l)%nat -> sampleCmp buf (nth k l dfltSample) < 0).
Proof.
  induction l as [|s r IH]; intros i0; cbn [findSample].
  - exists O. cbn. split; [lia|]. split; [lia|]. split; [intros; lia|]. intros; lia.
  - destruct (sampleCmp buf s <=? 0) eqn:Hs.
    + exists O. cbn [fst snd nth List.length]. split; [lia|]. split; [lia|].
      split; [intros; lia|].
      destruct (sampleCmp buf s =? 0) eqn:E.
      * split; [lia|]. apply Z.eqb_eq, E.
      * intros _. apply Z.leb_le in Hs. apply Z.eqb_neq in E. lia.
    + destruct (IH (S i0)) as (k & Hk1 & Hk2 & Hk3 & Hk4).
      exists (S k). cbn [List.length]. split; [rewrite Hk1; lia|]. split; [lia|].
      split.
      * intros [|j] Hj; cbn [nth]; [apply Z.leb_gt, Hs|apply Hk3; lia].
      * destruct (snd _); [split; [lia|]; apply Hk4|intros Hl; apply Hk4; lia].
Qed.

End KeyStatsFacts.

(** [sampleCmp] is an equality test on encoded keys: the loop of
    [whereKeyStats] reports a zero comparison exactly for a sample whose
    bytes are the key. *)
Theorem whereKeyStats_cmp_zero_iff (buf : list Z) (s : KeyStats.IndexSample) :
  KeyStats.sampleCmp buf s = 0 <-> buf = KeyStats.aVal s.
Proof. apply sampleCmp_zero_iff. Qed.

(** When the key equals the sample [k] and every earlier sample compares
    below the key, [whereKeyStats] returns that sample's [nLt] and [nEq],
    whatever the rounding. *)
Theorem whereKeyStats_hit w n avgEq aSample buf roundUp k :
  (k < List.length aSample)%nat ->
  buf = KeyStats.aVal (nth k aSample KeyStats.dfltSample) ->
  (forall j, (j < k)%nat -> 0 < KeyStats.sampleCmp buf (nth j aSample KeyStats.dfltSample)) ->
  KeyStats.whereKeyStats w n avgEq aSample buf roundUp =
  (KeyStats.nLt (nth k aSample KeyStats.dfltSample), KeyStats.nEq (nth k aSample KeyStats.dfltSample)).
Proof.
  intros Hk Hb Hj. unfold KeyStats.whereKeyStats.
  destruct (findSample_spec buf aSample 0) as (k' & E1 & E2 & E3 & E4).
  destruct (KeyStats.findSample buf aSample 0) as [i isEq]. cbn [fst snd] in *. subst i.
  assert (Hz : KeyStats.sampleCmp buf (nth k aSample KeyStats.dfltSample) = 0)
    by (apply sampleCmp_zero_iff; exact Hb).
  assert (k' = k).
  { destruct (Nat.lt_trichotomy k' k) as [Hlt|[Heq|Hgt]]; [|exact Heq|].
    - destruct isEq.
      + destruct E4 as [_ E4]. specialize (Hj k' Hlt). lia.
      + specialize (E4 ltac:(lia)). specialize (Hj k' Hlt). lia.
    - specialize (E3 k Hgt). lia. }
  subst k'. cbn [Nat.add].
  destruct isEq; [reflexivity|]. specialize (E4 Hk). lia.
Qed.

(** When no sample equals the key, [whereKeyStats] returns [avgEq] as
    [aStat[1]] and, as [aStat[0]], a value between [iLower] and [iUpper]
    (or [iLower] if [iUpper <= iLower]), where [i] is the first sample
    above the key ([nSample] if there is none), for both roundings. *)
Theorem whereKeyStats_miss_between w n avgEq aSample buf roundUp :
  0 <= w -> 0 <= n < 2 ^ w ->
  Forall (fun s => 0 <= KeyStats.nLt s < 2 ^ w) aSample ->
  Forall (fun s => buf <> KeyStats.aVal s) aSample ->
  exists i, (i <= List.length aSample)%nat /\
    (forall j, (j < i)%nat -> 0 < KeyStats.sampleCmp buf (nth j aSample KeyStats.dfltSample)) /\
    ((i < List.length aSample)%nat -> KeyStats.sampleCmp buf (nth i aSample KeyStats.dfltSample) < 0) /\
    let '(iLower, iUpper) := KeyStats.keyStatsBounds w n aSample i in
    let r := KeyStats.whereKeyStats w n avgEq aSample buf roundUp in
    snd r = avgEq /\ iLower <= fst r <= Z.max iLower iUpper.
Proof.
  intros Hw Hn Hs Hne. unfold KeyStats.whereKeyStats.
  destruct (findSample_spec buf aSample 0) as (i & E1 & E2 & E3 & E4).
  destruct (KeyStats.findSample buf aSample 0) as [i' isEq]. cbn [fst snd] in *. subst i'.
  destruct isEq.
  { exfalso. destruct E4 as [Hl Hz]. apply sampleCmp_zero_iff in Hz.
    rewrite Forall_forall in Hne. apply (Hne (nth i aSample KeyStats.dfltSample)); [|exact Hz].
    apply nth_In. exact Hl. }
  exists i. split; [exact E2|]. split; [exact E3|]. split; [exact E4|].
  cbn [Nat.add].
  assert (Hpw : 0 < 2 ^ w) by (apply Z.pow_pos_nonneg; lia).
  assert (Hb : forall lo hi, lo = KeyStats.rowcnt w (fst (lo, hi)) \/ lo = 0 ->
            0 <= hi < 2 ^ w ->
            let iGap := if hi <=? lo then 0 else hi - lo in
            let iGap' := if roundUp then KeyStats.rowcnt w (iGap * 2) / 3 else iGap / 3 in
            lo <= KeyStats.rowcnt w (lo + iGap') <= Z.max lo hi).
  { intros lo hi Hlo Hhi iGap iGap'.
    assert (Hlo' : 0 <= lo < 2 ^ w).
    { destruct Hlo as [Hlo|Hlo]; [rewrite Hlo; unfold KeyStats.rowcnt; apply Z.mod_pos_bound; lia|lia]. }
    assert (Hg : 0 <= iGap /\ (iGap = 0 \/ lo + iGap = hi)).
    { unfold iGap. destruct (hi <=? lo) eqn:E; [lia|apply Z.leb_gt in E; lia]. }
    assert (Hg' : 0 <= iGap' <= iGap).
    { unfold iGap'. destruct roundUp.
      - unfold KeyStats.rowcnt.
        assert (0 <= (iGap * 2) mod 2 ^ w <= iGap * 2)
          by (split; [apply Z.mod_pos_bound; lia|apply Z.mod_le; lia]).
        split; [apply Z.div_pos; lia|]. apply Z.div_le_upper_bound; lia.
      - split; [apply Z.div_pos; lia|]. apply Z.div_le_upper_bound; lia. }
    unfold KeyStats.rowcnt. rewrite Z.mod_small by lia. lia. }
  unfold KeyStats.keyStatsBounds. destruct i as [|i].
  - cbn [snd fst]. split; [reflexivity|]. cbn [fst].
    apply (Hb 0). right; reflexivity.
    destruct aSample as [|s r]; cbn [nth]; [cbn; lia|].
    inversion Hs; subst; assumption.
  - cbn [snd fst]. split; [reflexivity|]. cbn [fst].
    apply Hb; [left; cbn [fst]; unfold KeyStats.rowcnt; rewrite Z.mod_mod by lia; reflexivity|].
    destruct (List.length aSample <=? S i)%nat eqn:E; [exact Hn|].
    apply Nat.leb_gt in E. rewrite Forall_forall in Hs. apply Hs, nth_In, E.
Qed.

(** [whereCost] is ten times the base-2 logarithm of a row count, plus a
    fraction from the next three bits between 0 and 9. *)
Theorem whereCost_log2_bounds (x : Z) : 1 <= x < 2 ^ 64 ->
  10 * Z.log2 x <= CostEst.whereCost x <= 10 * Z.log2 x + 9.
Proof. apply whereCost_bounds. Qed.

(** [whereCost] is exact on powers of two: [whereCost(2^k) = 10*k]. *)
Theorem whereCost_of_pow2 (k : Z) : 0 <= k <= 63 -> CostEst.whereCost (2 ^ k) = 10 * k.
Proof. apply whereCost_pow2. Qed.

(** [whereCost] is monotone on 64-bit row counts. *)
Theorem whereCost_monotone (x1 x2 : Z) : 0 <= x1 <= x2 -> x2 < 2 ^ 64 ->
  CostEst.whereCost x1 <= CostEst.whereCost x2.
Proof. apply whereCost_mono. Qed.

(* ------------------------------------------------------------------ *)
(** ** Instances of the properties above *)


Lemma whereCost_log2_bounds_witness :
  10 * Z.log2 1000 <= CostEst.whereCost 1000 <= 10 * Z.log2 1000 + 9.
Proof. apply (whereCost_log2_bounds 1000). split; [lia|reflexivity]. Defined.

Lemma whereCost_of_pow2_witness : CostEst.whereCost (2 ^ 10) = 10 * 10.
Proof. apply (whereCost_of_pow2 10). lia. Defined.

Lemma whereCost_monotone_witness : CostEst.whereCost 100 <= CostEst.whereCost 1000.
Proof. apply (whereCost_monotone 100 1000); [lia|reflexivity]. Defined.


Lemma whereOrInsert_size_witness :
  let s' := fst (OrSet.whereOrInsert [OrSet.mkOrCost 1 10 5] 2 20 3) in
  (1 <= List.length s' <= OrSet.N_OR_COST)%nat /\ s' <> [].
Proof. apply (whereOrInsert_size [OrSet.mkOrCost 1 10 5] 2 20 3). cbv. lia. Defined.


Lemma orSetCombine_size_witness :
  let s := OrSet.orSetCombine [OrSet.mkOrCost 1 10 5] [OrSet.mkOrCost 2 20 3] in
  s <> [] /\ (List.length s <= OrSet.N_OR_COST)%nat.
Proof.
  apply (orSetCombine_size [OrSet.mkOrCost 1 10 5] [OrSet.mkOrCost 2 20 3]); discriminate.
Defined.


Lemma codeApplyAffinity_trims_witness :
  match Affinity.codeApplyAffinity 98 5 4 [98; 99; 100; 98] with
  | None => forall i, 0 <= i < 4 -> nth (Z.to_nat i) [98; 99; 100; 98] 0 = 98
  | Some (b', n', z') =>
      exists k, b' = 5 + k /\ 0 <= k /\ 1 <= n' /\ k + n' <= 4 /\
        z' = firstn (Z.to_nat n') (skipn (Z.to_nat k) [98; 99; 100; 98]) /\
        (forall i, 0 <= i < k -> nth (Z.to_nat i) [98; 99; 100; 98] 0 = 98) /\
        (forall i, k + n' <= i < 4 -> nth (Z.to_nat i) [98; 99; 100; 98] 0 = 98) /\
        nth (Z.to_nat k) [98; 99; 100; 98] 0 <> 98 /\
        nth (Z.to_nat (k + n' - 1)) [98; 99; 100; 98] 0 <> 98
  end.
Proof. apply (codeApplyAffinity_trims 98 5 4 [98; 99; 100; 98]). cbn. lia. Defined.

(** A parent term (index 0) with one child (index 1), both uncoded. *)
Definition parentChildWC : list Term.WhereTerm :=
  [Term.mkTerm (Term.EColumn 0 1 0) (-1) 0 1 Term.WO_OR 0 1 0 0;
   Term.mkTerm (Term.EColumn 0 1 0) 0 0 1 Term.WO_EQ 0 0 0 0].

Lemma disableTerm_coded_iff_witness :
  Term.hasBits (Term.wtFlags (nth 1 (Disable.disableTerm 0 (fun _ => false) parentChildWC (Some 1%nat))
     OrIn.dfltTerm)) Term.TERM_CODED =
  Term.hasBits (Term.wtFlags (nth 1 parentChildWC OrIn.dfltTerm)) Term.TERM_CODED ||
  ((0 =? 0) || (fun _ => false) (Term.pExpr (nth 1 parentChildWC OrIn.dfltTerm))).
Proof. apply (disableTerm_coded_iff 0 (fun _ => false) parentChildWC 1). cbn. lia. Defined.

Lemma disableTerm_codes_parent_witness :
  Term.hasBits (Term.wtFlags (nth 0 (Disable.disableTerm 0 (fun _ => false) parentChildWC (Some 1%nat))
     OrIn.dfltTerm)) Term.TERM_CODED = true.
Proof.
  apply (disableTerm_codes_parent 0 (fun _ => false) parentChildWC 1);
    cbn; try reflexivity; try lia; discriminate.
Defined.

Lemma columnsInIndex_bits_witness :
  Z.testbit (Cover.columnsInIndex 2 (Cover.mkCoverIndex 1 3 [0; 5; 70])) 5 =
  negb (1 =? 2) && (5 <? 63) && existsb (fun y => y =? 5) (firstn 3 [0; 5; 70]).
Proof.
  apply (columnsInIndex_bits 2 (Cover.mkCoverIndex 1 3 [0; 5; 70]) 5).
  - cbn. lia.
  - cbn. repeat constructor; discriminate.
  - lia.
Defined.

Definition sampleKeys : list KeyStats.IndexSample :=
  [KeyStats.mkSample [1; 2] 10 3; KeyStats.mkSample [1; 5] 20 4].

Lemma whereKeyStats_hit_witness :
  KeyStats.whereKeyStats 64 100 7 sampleKeys [1; 5] true = (20, 4).
Proof.
  apply (whereKeyStats_hit 64 100 7 sampleKeys [1; 5] true 1).
  - cbn. lia.
  - reflexivity.
  - intros [|j] Hj; [reflexivity|lia].
Defined.

Lemma whereKeyStats_miss_between_witness :
  exists i, (i <= List.length sampleKeys)%nat /\
    (forall j, (j < i)%nat -> 0 < KeyStats.sampleCmp [1; 3] (nth j sampleKeys KeyStats.dfltSample)) /\
    ((i < List.length sampleKeys)%nat ->
       KeyStats.sampleCmp [1; 3] (nth i sampleKeys KeyStats.dfltSample) < 0) /\
    let '(iLower, iUpper) := KeyStats.keyStatsBounds 64 100 sampleKeys i in
    let r := KeyStats.whereKeyStats 64 100 7 sampleKeys [1; 3] false in
    snd r = 7 /\ iLower <= fst r <= Z.max iLower iUpper.
Proof.
  apply (whereKeyStats_miss_between 64 100 7 sampleKeys [1; 3] false).
  - lia.
  - split; [lia|reflexivity].
  - repeat constructor; discriminate.
  - repeat constructor; discriminate.
Defined.
